(** * cmonkey: a shallow embedding of the utilities and the Pratt parser

    The development follows the C sources of the interpreter:
    - [token.h]: the token kinds;
    - [cmonkey_utils.c]: the linked list, the chained hash table and
      [long_to_string];
    - [code.h]: the big-endian operand codec (declarations only);
    - [parser.c]: the Pratt parser and the string form of the AST.

    C integers are [Z] with their wrap-around written out, [char *] strings
    are [string], nullable pointers are [option], arrays are lists read with
    stdpp's lookup, and the heap of list nodes is a [gmap]. *)

From Stdlib Require Import ZArith Lia List String Ascii Bool.
From stdpp Require Import base tactics option list gmap strings.
From Equations Require Import Equations.

Local Open Scope string_scope.
Local Open Scope list_scope.
Local Open Scope Z_scope.

(** ** Tokens ([token.h]) *)

Module Token.

Inductive token_type : Set :=
| ILLEGAL
| END_OF_FILE
  (* identifiers, literals *)
| IDENT
| INT
  (* operators *)
| ASSIGN
| PLUS
| MINUS
| BANG
| SLASH
| ASTERISK
| LT
| GT
| EQ
| NOT_EQ
  (* delimiters *)
| COMMA
| SEMICOLON
| LPAREN
| RPAREN
| LBRACE
| RBRACE
  (* keywords *)
| FUNCTION
| LET
| IF
| ELSE
| RETURN
| TRUE
| FALSE.

#[global] Instance token_type_eq_dec : EqDecision token_type.
Proof. solve_decision. Defined.

(** The enumerators in declaration order: the position of a kind in this list
    is its integer value in C, which the parser uses as an array index. *)
Definition token_type_all : list token_type :=
  [ILLEGAL; END_OF_FILE; IDENT; INT; ASSIGN; PLUS; MINUS; BANG; SLASH;
   ASTERISK; LT; GT; EQ; NOT_EQ; COMMA; SEMICOLON; LPAREN; RPAREN; LBRACE;
   RBRACE; FUNCTION; LET; IF; ELSE; RETURN; TRUE; FALSE].

Definition token_type_value (t : token_type) : nat :=
  match t with
  | ILLEGAL => 0 | END_OF_FILE => 1 | IDENT => 2 | INT => 3 | ASSIGN => 4
  | PLUS => 5 | MINUS => 6 | BANG => 7 | SLASH => 8 | ASTERISK => 9
  | LT => 10 | GT => 11 | EQ => 12 | NOT_EQ => 13 | COMMA => 14
  | SEMICOLON => 15 | LPAREN => 16 | RPAREN => 17 | LBRACE => 18
  | RBRACE => 19 | FUNCTION => 20 | LET => 21 | IF => 22 | ELSE => 23
  | RETURN => 24 | TRUE => 25 | FALSE => 26
  end%nat.

(** The identifier of each enumerator, as spelled in [token.h]. *)
Definition token_type_ident (t : token_type) : string :=
  match t with
  | ILLEGAL => "ILLEGAL" | END_OF_FILE => "END_OF_FILE" | IDENT => "IDENT"
  | INT => "INT" | ASSIGN => "ASSIGN" | PLUS => "PLUS" | MINUS => "MINUS"
  | BANG => "BANG" | SLASH => "SLASH" | ASTERISK => "ASTERISK" | LT => "LT"
  | GT => "GT" | EQ => "EQ" | NOT_EQ => "NOT_EQ" | COMMA => "COMMA"
  | SEMICOLON => "SEMICOLON" | LPAREN => "LPAREN" | RPAREN => "RPAREN"
  | LBRACE => "LBRACE" | RBRACE => "RBRACE" | FUNCTION => "FUNCTION"
  | LET => "LET" | IF => "IF" | ELSE => "ELSE" | RETURN => "RETURN"
  | TRUE => "TRUE" | FALSE => "FALSE"
  end.

(** [typedef struct { token_type type; char *literal; } token;] *)
Record token : Set := mk_token { type : token_type; literal : string }.

#[global] Instance token_eq_dec : EqDecision token.
Proof. solve_decision. Defined.

(** The closed set of kinds of the language description (its section 6.1),
    in the order in which it lists them. *)
Definition described_token_kinds : list string :=
  ["ILLEGAL"; "END_OF_FILE"; "IDENT"; "INT"; "STRING"; "ASSIGN"; "PLUS";
   "MINUS"; "BANG"; "ASTERISK"; "SLASH"; "LT"; "GT"; "EQ"; "NOT_EQ"; "COMMA";
   "SEMICOLON"; "COLON"; "LPAREN"; "RPAREN"; "LBRACE"; "RBRACE"; "LBRACKET";
   "RBRACKET"; "FUNCTION"; "LET"; "IF"; "ELSE"; "RETURN"; "TRUE"; "FALSE"].

(** The kinds of the description that [token.h] does not declare. *)
Definition undeclared_token_kinds : list string :=
  ["STRING"; "COLON"; "LBRACKET"; "RBRACKET"].

End Token.
Export Token.

(** ** The operand codec ([code.h], exercised by [test_be_to_size_t]) *)

Module Codec.

(** Modelled from the spec: [size_t_to_uint8_be] is only called by the test
    [test_be_to_size_t] and its definition is not part of the sources at
    hand; operands are big-endian unsigned, so the encoding of [n] on
    [nbytes] bytes lists its base-256 digits, the most significant first. *)
Fixpoint size_t_to_uint8_be (n : Z) (nbytes : nat) : list Z :=
  match nbytes with
  | O => []
  | S k => Z.land (Z.shiftr n (8 * Z.of_nat k)) 255 :: size_t_to_uint8_be n k
  end.

(** Modelled from the spec: [be_to_size_t] (declared in [code.h] as
    [decode_instructions_to_sizet]) is defined outside the sources at hand;
    it reads [nbytes] bytes as one big-endian unsigned number. *)
Definition be_to_size_t (bytes : list Z) (nbytes : nat) : Z :=
  fold_left (fun acc b => Z.lor (Z.shiftl acc 8) b) (firstn nbytes bytes) 0.

End Codec.

(** ** C arithmetic *)

Module CInt.

Definition LONG_MAX : Z := 2 ^ 63 - 1.
Definition LONG_MIN : Z := - 2 ^ 63.
Definition SIZE_MODULUS : Z := 2 ^ 64.

(** [size_t] arithmetic wraps modulo 2^64. *)
Definition wrap_size_t (z : Z) : Z := z mod SIZE_MODULUS.

(** The value a two's complement machine leaves in a [long]; on [LONG_MIN]
    the negation [-1 * l] overflows (undefined in C) and this gives [LONG_MIN]
    back. *)
Definition wrap_long (z : Z) : Z := (z + 2 ^ 63) mod 2 ^ 64 - 2 ^ 63.

(** The character with code [z] (a [char] holds one byte). *)
Definition char_of_Z (z : Z) : ascii := ascii_of_N (Z.to_N (z mod 256)).
Definition Z_of_char (c : ascii) : Z := Z.of_N (N_of_ascii c).

(** [strtol(nptr, &ep, 10)] of the C library, by the C standard: leading
    white space is skipped, an optional sign is read, then the longest run
    of decimal digits.  Without a digit nothing is converted and [ep] is
    [nptr]; a value out of the range of [long] is clamped and [errno] is set
    to [ERANGE]. *)
Record strtol_result : Set := mk_strtol {
  strtol_value : Z;         (* the returned long *)
  strtol_consumed : bool;   (* false when ep == nptr *)
  strtol_rest : string;     (* the characters from ep on *)
  strtol_erange : bool      (* errno == ERANGE *)
}.

Definition isspace (c : ascii) : bool :=
  let n := Z_of_char c in (n =? 32) || ((9 <=? n) && (n <=? 13)).

Definition isdigit (c : ascii) : bool :=
  let n := Z_of_char c in (48 <=? n) && (n <=? 57).

Fixpoint skip_space (s : string) : string :=
  match s with
  | String c s' => if isspace c then skip_space s' else s
  | EmptyString => s
  end.

(** Accumulates the digits at the head of [s]: the value read so far, how
    many digits were read, and what follows them. *)
Fixpoint read_digits (acc : Z) (n : nat) (s : string) : Z * nat * string :=
  match s with
  | String c s' =>
      if isdigit c then read_digits (10 * acc + (Z_of_char c - 48)) (S n) s'
      else (acc, n, s)
  | EmptyString => (acc, n, s)
  end.

Definition strtol (nptr : string) : strtol_result :=
  let s := skip_space nptr in
  let '(negative, body) :=
    match s with
    | String "-" s' => (true, s')
    | String "+" s' => (false, s')
    | _ => (false, s)
    end in
  let '(magnitude, ndigits, rest) := read_digits 0 0 body in
  match ndigits with
  | O => mk_strtol 0 false nptr false
  | S _ =>
      let v := if negative then - magnitude else magnitude in
      if v >? LONG_MAX then mk_strtol LONG_MAX true rest true
      else if v <? LONG_MIN then mk_strtol LONG_MIN true rest true
      else mk_strtol v true rest false
  end.

End CInt.
Export CInt.

(** ** [long_to_string] ([cmonkey_utils.c]) *)

Module LongToString.

(** Dividing a number from 10 on by 10 shortens its binary numeral: this is
    the measure of the two loops on [l]. *)
Ltac quot_10_decreases l :=
  let Hl := fresh in
  assert (Hl : 10 <= l) by assumption;
  let H0 := fresh in
  assert (H0 : 0 <= Z.quot l 10) by (apply Z.quot_pos; lia);
  let H1 := fresh in
  assert (H1 : Z.quot l 10 <= Z.shiftr l 1) by
    (rewrite Z.shiftr_div_pow2 by lia; rewrite Z.quot_div_nonneg by lia;
     change (2 ^ 1) with 2; apply Z.div_le_lower_bound; [lia|];
     pose proof (Z.mul_div_le l 10 ltac:(lia)); lia);
  let H2 := fresh in
  assert (H2 : Z.log2 (Z.shiftr l 1) = Z.max 0 (Z.log2 l - 1))
    by (apply Z.log2_shiftr; lia);
  let H3 := fresh in
  pose proof (Z.log2_le_mono _ _ H1) as H3;
  let H4 := fresh in
  assert (H4 : 3 <= Z.log2 l)
    by (change 3 with (Z.log2 8); apply Z.log2_le_mono; lia);
  lia.

(** [while (l >= 10) { l /= 10; size++; }] *)
Equations? count_loop (l size : Z) : Z by wf (Z.to_nat (Z.log2 l)) lt :=
  count_loop l size with Z_le_gt_dec 10 l => {
    | left _ => count_loop (Z.quot l 10) (size + 1);
    | right _ => size }.
Proof. quot_10_decreases l. Qed.

Definition calculate_string_size (l : Z) : Z :=
  let size := 0 in
  let '(size, l) := if l <? 0 then (size + 1, wrap_long (-1 * l)) else (size, l) in
  let size := count_loop l size in
  size + 1.

(** The block returned by [malloc]: every byte is indeterminate ([None])
    until it is written. *)
Abbreviation buffer := (list (option ascii)).

Definition malloc_bytes (n : Z) : buffer := replicate (Z.to_nat n) None.

(** [str[i] = c]; a write outside the block is undefined. *)
Definition store (str : buffer) (i : Z) (c : ascii) : option buffer :=
  if (0 <=? i) && (i <? Z.of_nat (List.length str))
  then Some (<[Z.to_nat i := Some c]> str)
  else None.

(** The C string that starts at [str[0]]: the bytes up to the first NUL.
    Reading an indeterminate byte or running off the block is undefined. *)
Fixpoint c_string (str : buffer) : option string :=
  match str with
  | [] => None
  | None :: _ => None
  | Some c :: rest =>
      if Ascii.eqb c zero then Some EmptyString
      else match c_string rest with
           | Some s => Some (String c s)
           | None => None
           end
  end.

(** [while (l >= 10) { rem = l % 10; l /= 10; str[--index] = 48 + rem; }]
    The result is the state after the loop, or nothing when a write was
    undefined. *)
Equations? digit_loop (l index : Z) (str : buffer) : option (Z * Z * buffer)
  by wf (Z.to_nat (Z.log2 l)) lt :=
  digit_loop l index str with Z_le_gt_dec 10 l => {
    | left _ with store str (wrap_size_t (index - 1)) (char_of_Z (48 + Z.rem l 10)) => {
        | Some str' => digit_loop (Z.quot l 10) (wrap_size_t (index - 1)) str';
        | None => None };
    | right _ => Some (l, index, str) }.
Proof. quot_10_decreases l. Qed.

Definition long_to_string (l : Z) : option string :=
  let str_size := calculate_string_size l + 1 in
  let str := malloc_bytes (str_size + 1) in
  let index := str_size in
  let is_negative := l <? 0 in
  let l := if is_negative then wrap_long (-1 * l) else l in
  let index := wrap_size_t (index - 1) in
  str ← store str index zero;
  '(l, index, str) ← digit_loop l index str;
  let index := wrap_size_t (index - 1) in
  str ← store str index (char_of_Z (48 + l));
  if is_negative then
    let index := wrap_size_t (index - 1) in
    str ← store str index "-"%char;
    c_string str
  else c_string str.

(** [bool_to_string] *)
Definition bool_to_string (value : bool) : string :=
  if value then "true" else "false".

(** The decimal digits of a number, as the reference the result is compared
    with: the value of a digit string, and what a canonical numeral is. *)
Fixpoint digits_value (acc : Z) (s : string) : Z :=
  match s with
  | EmptyString => acc
  | String c s' => digits_value (10 * acc + (Z_of_char c - 48)) s'
  end.

Fixpoint all_digits (s : string) : bool :=
  match s with
  | EmptyString => true
  | String c s' => isdigit c && all_digits s'
  end.

(** A non-empty digit string without a leading zero, the single [0] apart. *)
Definition canonical_digits (s : string) : bool :=
  match s with
  | EmptyString => false
  | String c s' => all_digits s && (negb (Ascii.eqb c "0"%char) || String.eqb s' EmptyString)
  end.

(** [s] is the decimal representation of [n]: the digits of [|n|] without
    leading zeros, after a minus sign exactly when [n] is negative. *)
Definition decimal_repr (s : string) (n : Z) : Prop :=
  exists ds, s = (if n <? 0 then String "-" ds else ds)
             /\ canonical_digits ds = true
             /\ digits_value 0 ds = Z.abs n.

(** The numeral that the description asks for, computed from the most
    significant digit down: [digits_loop l acc] puts the digits of [l] in
    front of [acc]. *)
Equations? digits_loop (l : Z) (acc : string) : string
  by wf (Z.to_nat (Z.log2 l)) lt :=
  digits_loop l acc with Z_le_gt_dec 10 l => {
    | left _ => digits_loop (Z.quot l 10) (String (char_of_Z (48 + Z.rem l 10)) acc);
    | right _ => String (char_of_Z (48 + l)) acc }.
Proof. quot_10_decreases l. Qed.

Definition decimal (n : Z) : string :=
  if n <? 0 then String "-" (digits_loop (- n) EmptyString)
  else digits_loop n EmptyString.

(** The cells of a block that hold the characters of [s]. *)
Fixpoint cells (s : string) : buffer :=
  match s with
  | EmptyString => []
  | String c s' => Some c :: cells s'
  end.

End LongToString.
Export LongToString.


(** ** The linked list ([cm_list] in [cmonkey_utils.c]), on a heap of nodes *)

Module CmList.

(** Pointers are addresses; [NULL] is address 0. *)
Definition NULL : Z := 0.

(** [struct cm_list_node { void *data; struct cm_list_node *next; }] *)
Record cm_list_node : Set := mk_node { data : Z; next : Z }.

(** [struct cm_list { cm_list_node *head; cm_list_node *tail; size_t length; }] *)
Record cm_list : Set := mk_list { head : Z; tail : Z; length : Z }.

(** The nodes that [malloc] has handed out, by address. *)
Abbreviation heap := (gmap Z cm_list_node).

Definition cm_list_init : cm_list :=
  {| head := NULL; tail := NULL; length := 0 |}.

(** [cm_list_add(list, data)], where [node] is what [malloc] returned: [NULL]
    or the address of a fresh block.  The result is the heap, the list and
    the returned [int]; it is [None] when [list->tail->next = node] writes
    through a pointer that is no node (undefined behaviour). *)
Definition cm_list_add (h : heap) (list : cm_list) (d : Z) (node : Z)
  : option (heap * cm_list * Z) :=
  if node =? NULL then Some (h, list, 0)
  else
    let h := <[node := {| data := d; next := NULL |}]> h in
    let list := {| head := head list; tail := tail list;
                   length := wrap_size_t (length list + 1) |} in
    if head list =? NULL then
      Some (h, {| head := node; tail := node; length := length list |}, 1)
    else
      match h !! tail list with
      | Some t =>
          let h := <[tail list := {| data := data t; next := node |}]> h in
          Some (h, {| head := head list; tail := node; length := length list |}, 1)
      | None => None
      end.

(** The nodes at addresses [nodes], linked from [p] to [NULL], store [xs]. *)
Fixpoint chain (h : heap) (p : Z) (nodes : list Z) (xs : list Z) : Prop :=
  match nodes, xs with
  | [], [] => p = NULL
  | n :: nodes', x :: xs' =>
      p = n /\ n <> NULL /\
      exists nx, h !! n = Some {| data := x; next := nx |} /\ chain h nx nodes' xs'
  | _, _ => False
  end.

(** A valid address of a node: non-null and within the 64-bit address space. *)
Definition valid_addr (a : Z) : Prop := 0 < a < SIZE_MODULUS.

(** The list [l] holds the data pointers [xs], in this order: its nodes are
    linked from [head] to [NULL], [tail] is the last of them ([NULL] when
    there is none) and [length] counts them. *)
Definition is_list (h : heap) (l : cm_list) (xs : list Z) : Prop :=
  exists nodes,
    chain h (head l) nodes xs /\
    tail l = default NULL (last nodes) /\
    length l = Z.of_nat (List.length xs) /\
    Forall valid_addr nodes.

(** What a reader that follows the [next] pointers from [p] sees, as the
    loops [while (list_node != NULL)] of the code do; [bound] limits the
    number of nodes visited. *)
Fixpoint traverse (bound : nat) (h : heap) (p : Z) : option (list Z) :=
  if p =? NULL then Some []
  else match bound with
       | O => None
       | S k =>
           match h !! p with
           | Some n => cons (data n) <$> traverse k h (next n)
           | None => None
           end
       end.



End CmList.

(** ** The hash table ([cm_hash_table] in [cmonkey_utils.c]) *)

Module HashTable.

(** A bucket is a [cm_list] of entries; the table only appends to it and
    reads it from the head, so the bucket is kept as the sequence of its
    data, which is what [CmList.cm_list_add] maintains. *)
Module CmSeq.
Abbreviation cm_list := list (only parsing).
Definition cm_list_init {A : Type} : cm_list A := [].
Definition cm_list_add {A : Type} (l : cm_list A) (d : A) : cm_list A := l ++ [d].
End CmSeq.

Section Table.

(** Keys and values are [void *]: the table sees keys only through the
    hash function and the comparator, and never looks at a value.  A value
    pointer may be [NULL] ([None]). *)
Context {K V : Type}.

(** [struct cm_hash_entry { void *key; void *value; }] *)
Record cm_hash_entry : Type := mk_entry { key : K; value : option V }.

Record cm_hash_table : Type := mk_table {
  hash_func : K -> Z;
  keycmp : K -> K -> bool;
  table_size : Z;
  table : list (option (CmSeq.cm_list cm_hash_entry));
  nentries : Z;
  nkeys : Z
}.

(** [cm_hash_table_init]; [initial_size] is [INITIAL_HASHTABLE_SIZE], a
    constant of [cmonkey_utils.h]. *)
Definition cm_hash_table_init (initial_size : Z)
    (hash_func : K -> Z) (keycmp : K -> K -> bool) : cm_hash_table :=
  {| hash_func := hash_func; keycmp := keycmp;
     table_size := initial_size;
     table := replicate (Z.to_nat initial_size) None;
     nentries := 0; nkeys := 0 |}.

(** [hash_func(key) % table_size]: a [size_t]; the remainder by zero is
    undefined. *)
Definition slot_index (t : cm_hash_table) (k : K) : option nat :=
  if table_size t =? 0 then None
  else Some (Z.to_nat (wrap_size_t (hash_func t k) mod table_size t)).

(** [cm_hash_table_put]: the entry is appended to the list of its slot,
    which is created when the slot is empty.  [None] stands for undefined
    behaviour (a slot outside the array).  Allocation is taken to succeed. *)
Definition cm_hash_table_put (t : cm_hash_table) (k : K) (v : option V)
  : option cm_hash_table :=
  index ← slot_index t k;
  slot ← table t !! index;
  let '(list_entry, tbl, nentries) :=
    match slot with
    | None =>
        let list_entry := CmSeq.cm_list_init in
        (list_entry, <[index := Some list_entry]> (table t),
         wrap_size_t (nentries t + 1))
    | Some list_entry => (list_entry, table t, nentries t)
    end in
  let entry := {| key := k; value := v |} in
  Some {| hash_func := hash_func t; keycmp := keycmp t;
          table_size := table_size t;
          table := <[index := Some (CmSeq.cm_list_add list_entry entry)]> tbl;
          nentries := nentries;
          nkeys := wrap_size_t (nkeys t + 1) |}.

(** The loop of [cm_hash_table_get] over the nodes of a slot: the value of
    the first entry whose key the comparator accepts, [NULL] at the end. *)
Fixpoint find_entry (cmp : K -> K -> bool) (entries : list cm_hash_entry) (k : K)
  : option V :=
  match entries with
  | [] => None
  | entry :: rest =>
      if cmp (key entry) k then value entry else find_entry cmp rest k
  end.

(** [cm_hash_table_get]: the outer [None] is undefined behaviour, the inner
    one the [NULL] pointer. *)
Definition cm_hash_table_get (t : cm_hash_table) (k : K) : option (option V) :=
  index ← slot_index t k;
  slot ← table t !! index;
  match slot with
  | None => Some None
  | Some entry_list => Some (find_entry (keycmp t) entry_list k)
  end.

(** The table owns an array of [table_size] slots. *)
Definition table_ok (t : cm_hash_table) : Prop :=
  0 < table_size t /\ List.length (table t) = Z.to_nat (table_size t).

(** The entries of a slot, none for an empty slot. *)
Definition bucket (t : cm_hash_table) (i : nat) : list cm_hash_entry :=
  match table t !! i with
  | Some (Some l) => l
  | _ => []
  end.

(** No entry of the slot of [k] has a key equal to [k]. *)
Definition unbound (t : cm_hash_table) (k : K) : Prop :=
  forall index slot entry,
    slot_index t k = Some index -> table t !! index = Some (Some slot) ->
    In entry slot -> keycmp t (key entry) k = false.

End Table.

Arguments cm_hash_entry : clear implicits.
Arguments cm_hash_table : clear implicits.

(** [string_hash_function]: [hash = ((hash << 5) + hash) + c] over the bytes
    of the key, in [unsigned long] arithmetic; [c] is an [int] read from a
    [char], which is signed on the platforms the code is built for. *)
Definition int_of_char (c : ascii) : Z :=
  let n := Z_of_char c in if n <? 128 then n else n - 256.

Fixpoint string_hash_loop (hash : Z) (str : string) : Z :=
  match str with
  | EmptyString => hash
  | String c str' =>
      string_hash_loop
        (wrap_size_t (wrap_size_t (wrap_size_t (Z.shiftl hash 5) + hash) + int_of_char c))
        str'
  end.

Definition string_hash_function (key : string) : Z := string_hash_loop 5381 key.

(** [string_keycmp]: [strcmp(key1, key2) == 0]. *)
Definition string_keycmp (key1 key2 : string) : bool := String.eqb key1 key2.

(** *** Sequences of calls *)

Section Puts.
Context {K V : Type}.

(** A sequence of calls of [cm_hash_table_put], in the order of the list. *)
Fixpoint cm_hash_table_puts (t : cm_hash_table K V)
    (bindings : list (K * option V)) : option (cm_hash_table K V) :=
  match bindings with
  | [] => Some t
  | (k, v) :: rest => t' ← cm_hash_table_put t k v; cm_hash_table_puts t' rest
  end.

(** The entries that the calls make. *)
Definition entries_of (bindings : list (K * option V)) : list (cm_hash_entry K V) :=
  map (fun b => mk_entry b.1 b.2) bindings.

(** The slot of a key in a table of [size] slots. *)
Definition slot_of (hash : K -> Z) (size : Z) (k : K) : nat :=
  Z.to_nat (wrap_size_t (hash k) mod size).

(** The number of slots of the array that hold a list. *)
Definition used_slots (t : cm_hash_table K V) : Z :=
  Z.of_nat (List.length (List.filter (fun slot => bool_decide (is_Some slot)) (table t))).

(** What holds of a table made from an empty one by the calls that make
    the entries [es]. *)
Definition made_of (size : Z) (hash : K -> Z) (cmp : K -> K -> bool)
    (t : cm_hash_table K V) (es : list (cm_hash_entry K V)) : Prop :=
  table_ok t /\ hash_func t = hash /\ keycmp t = cmp /\ table_size t = size
  /\ nkeys t = wrap_size_t (Z.of_nat (List.length es))
  /\ forall i, bucket t i
               = List.filter (fun e => Nat.eqb (slot_of hash size (key e)) i) es.

End Puts.

(** The hash of Bernstein ([hash * 33 + c] from 5381 on) over the integers,
    without any wrap-around. *)
Fixpoint bernstein (hash : Z) (str : string) : Z :=
  match str with
  | EmptyString => hash
  | String c str' => bernstein (33 * hash + int_of_char c) str'
  end.

End HashTable.

(** ** The abstract syntax tree and its string form ([parser.c]) *)

Module Ast.

(** [identifier_t]: the token it was made from and its name. *)
Record identifier_t : Set := mk_identifier {
  ident_token : token;
  ident_value : string
}.

(** The nodes the parser builds.  A child that the parser may leave [NULL]
    is an [option]; the lists are the [cm_list]s and arrays of the nodes, in
    order.  Every node keeps a copy of a token. *)
#[local] Unset Elimination Schemes.
Inductive expression_t : Set :=
| IdentifierExpression (id : identifier_t)
| IntegerExpression (tok : token) (value : Z)
| PrefixExpression (tok : token) (operator : string) (right : option expression_t)
| InfixExpression (tok : token) (operator : string)
    (left : option expression_t) (right : option expression_t)
| BooleanExpression (tok : token) (value : bool)
| IfExpression (tok : token) (condition : option expression_t)
    (consequence : block_statement_t) (alternative : option block_statement_t)
| FunctionLiteral (tok : token) (parameters : list identifier_t)
    (body : block_statement_t)
| CallExpression (tok : token) (function : option expression_t)
    (arguments : list (option expression_t))
with statement_t : Set :=
| LetStatement (tok : token) (name : identifier_t) (value : option expression_t)
| ReturnStatement (tok : token) (return_value : option expression_t)
| ExpressionStatement (tok : token) (expression : option expression_t)
with block_statement_t : Set :=
| BlockStatement (tok : token) (statements : list statement_t).
#[local] Set Elimination Schemes.

(** [program_t]: the statements, in order. *)
Record program_t : Set := mk_program { program_statements : list statement_t }.

(** *** Releasing a tree

    The [free_*] functions matter to the parser only through the pointers
    they read: [free_expression] reads [exp->expression_type] without a null
    check, and so do the calls it makes on the operand of a prefix node, on
    both operands of an infix node and on each argument of a call.  The
    result is [true] when the call returns and [false] when it reads
    through [NULL]. *)
Fixpoint free_expression (e : expression_t) : bool :=
  match e with
  | IdentifierExpression _ => true
  | IntegerExpression _ _ => true
  | PrefixExpression _ _ operand =>
      match operand with Some x => free_expression x | None => false end
  | InfixExpression _ _ lhs rhs =>
      match lhs with Some x => free_expression x | None => false end
      && match rhs with Some x => free_expression x | None => false end
  | BooleanExpression _ _ => true
  | IfExpression _ condition consequence alternative =>
      match condition with Some c => free_expression c | None => true end
      && free_block_statement consequence
      && match alternative with Some b => free_block_statement b | None => true end
  | FunctionLiteral _ _ body => free_block_statement body
  | CallExpression _ function arguments =>
      match function with Some f => free_expression f | None => true end
      && (fix free_all (l : list (option expression_t)) : bool :=
            match l with
            | [] => true
            | a :: l' =>
                match a with Some x => free_expression x | None => false end
                && free_all l'
            end) arguments
  end
with free_block_statement (b : block_statement_t) : bool :=
  match b with
  | BlockStatement _ statements =>
      (fix free_all (l : list statement_t) : bool :=
         match l with
         | [] => true
         | s :: l' => free_statement s && free_all l'
         end) statements
  end
with free_statement (s : statement_t) : bool :=
  match s with
  | LetStatement _ _ (Some v) => free_expression v
  | ReturnStatement _ (Some v) => free_expression v
  | ExpressionStatement _ (Some v) => free_expression v
  | _ => true
  end.

(** [free_expression(exp)] on a pointer that may be [NULL]. *)
Definition free_expression_ptr (e : option expression_t) : bool :=
  match e with Some x => free_expression x | None => false end.

(** [cm_list_free(list, free_expression)]. *)
Definition free_expression_list (l : list (option expression_t)) : bool :=
  forallb free_expression_ptr l.

(** *** The string form

    Every node has a [string] function.  A call either returns a pointer to
    a string ([NULL] included), or reads through a null pointer or hands
    [NULL] to a [%s] conversion (both undefined), or never returns. *)
Inductive rendered : Set :=
| Text (s : option string)   (* the returned [char *]; [None] is [NULL] *)
| Fault                      (* undefined behaviour *)
| Endless.                   (* unbounded recursion *)

(** Sequencing: the first call that does not return decides. *)
Definition and_then (r : rendered) (k : option string -> rendered) : rendered :=
  match r with
  | Text s => k s
  | Fault => Fault
  | Endless => Endless
  end.

(** An argument of a [%s] conversion of [asprintf] must be a string. *)
Definition percent_s (s : option string) (k : string -> rendered) : rendered :=
  match s with
  | Some x => k x
  | None => Fault
  end.

(** [p->node.string(p)] on a pointer that may be [NULL]. *)
Definition string_of_ptr {A : Set} (f : A -> rendered) (p : option A) : rendered :=
  match p with
  | Some x => f x
  | None => Fault
  end.

Definition identifier_string (id : identifier_t) : rendered :=
  Text (Some (ident_value id)).

Definition integer_string (value : Z) : rendered :=
  match long_to_string value with
  | Some s => Text (Some s)
  | None => Fault
  end.

Definition boolean_expression_string (value : bool) : rendered :=
  Text (Some (if value then "true" else "false")).

(** [generate_parameters_string], given the string function of the elements
    of the list: it serves the parameters of a function literal and the
    arguments of a call. *)
Section Parameters.
Context {A : Set} (node_string : A -> rendered).

Fixpoint parameters_loop (l : list (option A)) (str : option string) : rendered :=
  match l with
  | [] => Text str
  | param :: l' =>
      and_then (string_of_ptr node_string param) (fun param_string =>
      percent_s param_string (fun ps =>
      match str with
      | None => parameters_loop l' (Some ps)
      | Some x => parameters_loop l' (Some (x +:+ ", " +:+ ps))
      end))
  end.

Definition generate_parameters_string (parameters_list : list (option A)) : rendered :=
  match parameters_list with
  | [] => Text (Some EmptyString)
  | _ => parameters_loop parameters_list None
  end.
End Parameters.

Fixpoint expression_string (e : expression_t) : rendered :=
  match e with
  | IdentifierExpression id => identifier_string id
  | IntegerExpression _ value => integer_string value
  | PrefixExpression _ operator operand =>
      and_then (string_of_ptr expression_string operand) (fun operand_string =>
      percent_s operand_string (fun os =>
      Text (Some ("(" +:+ operator +:+ os +:+ ")"))))
  | InfixExpression _ operator lhs rhs =>
      and_then (string_of_ptr expression_string lhs) (fun left_string =>
      and_then (string_of_ptr expression_string rhs) (fun right_string =>
      percent_s left_string (fun ls =>
      percent_s right_string (fun rs =>
      Text (Some ("(" +:+ ls +:+ " " +:+ operator +:+ " " +:+ rs +:+ ")"))))))
  | BooleanExpression _ value => boolean_expression_string value
  | IfExpression _ condition consequence alternative =>
      and_then (string_of_ptr expression_string condition) (fun condition_string =>
      and_then (block_statement_string consequence) (fun consequence_string =>
      match alternative with
      | Some alt =>
          and_then (block_statement_string alt) (fun alternative_string =>
          percent_s condition_string (fun cs =>
          percent_s consequence_string (fun qs =>
          percent_s alternative_string (fun als =>
          Text (Some ("if" +:+ cs +:+ " " +:+ qs +:+ " else " +:+ als))))))
      | None =>
          percent_s condition_string (fun cs =>
          percent_s consequence_string (fun qs =>
          Text (Some ("if" +:+ cs +:+ " " +:+ qs))))
      end))
  | FunctionLiteral tok parameters body =>
      and_then (generate_parameters_string identifier_string (map Some parameters))
        (fun params_string =>
      and_then (block_statement_string body) (fun body_string =>
      percent_s (Some (literal tok)) (fun fl =>
      percent_s params_string (fun ps =>
      percent_s body_string (fun bs =>
      Text (Some (fl +:+ "(" +:+ ps +:+ ") " +:+ bs)))))))
  | CallExpression _ function arguments =>
      and_then (generate_parameters_string expression_string arguments)
        (fun args_string =>
      and_then (string_of_ptr expression_string function) (fun function_string =>
      percent_s function_string (fun fs =>
      percent_s args_string (fun ars =>
      Text (Some (fs +:+ "(" +:+ ars +:+ ")"))))))
  end
with statement_string (s : statement_t) : rendered :=
  match s with
  | LetStatement tok name value =>
      and_then (identifier_string name) (fun ident_string =>
      and_then (match value with
                | Some v => expression_string v
                | None => Text (Some EmptyString)
                end) (fun value_string =>
      percent_s (Some (literal tok)) (fun let_string =>
      percent_s ident_string (fun ids =>
      percent_s value_string (fun vs =>
      Text (Some (let_string +:+ " " +:+ ids +:+ " = " +:+ vs +:+ ";")))))))
  | ReturnStatement _ return_value =>
      (* the first argument of [asprintf] is
         [ret_stmt->statement.node.string(ret_stmt)], this very function on
         this very statement *)
      and_then (match return_value with
                | Some v => expression_string v
                | None => Text (Some EmptyString)
                end) (fun _ => Endless)
  | ExpressionStatement _ expression =>
      match expression with
      | Some e => expression_string e
      | None => Text (Some EmptyString)
      end
  end
with block_statement_string (b : block_statement_t) : rendered :=
  match b with
  | BlockStatement _ statements =>
      (fix loop (l : list statement_t) (str : option string) : rendered :=
         match l with
         | [] => Text str
         | s :: l' =>
             and_then (statement_string s) (fun stmt_string =>
             match str with
             | None => loop l' stmt_string
             | Some x =>
                 percent_s stmt_string (fun ss => loop l' (Some (x +:+ " " +:+ ss)))
             end)
         end) statements None
  end.

(** The loop of [program_string]. *)
Fixpoint program_string_loop (l : list statement_t) (prog_string : option string)
  : rendered :=
  match l with
  | [] => Text prog_string
  | stmt :: l' =>
      and_then (statement_string stmt) (fun stmt_string =>
      percent_s stmt_string (fun ss =>
      match prog_string with
      | Some ps => program_string_loop l' (Some (ps +:+ " " +:+ ss))
      | None => program_string_loop l' (Some ss)
      end))
  end.

Definition program_string (program : program_t) : rendered :=
  program_string_loop (program_statements program) None.

(** [program_free]: [free_statement] on every statement of the array; the
    result is [false] when a call reads through [NULL]. *)
Definition program_free (program : program_t) : bool :=
  forallb free_statement (program_statements program).

(** *** Trees with a [return] statement

    The tree has a [return] statement somewhere: among the statements of
    the program or of a block, at any depth. *)
Fixpoint expression_has_return (e : expression_t) : bool :=
  match e with
  | IdentifierExpression _ => false
  | IntegerExpression _ _ => false
  | PrefixExpression _ _ operand =>
      match operand with Some x => expression_has_return x | None => false end
  | InfixExpression _ _ lhs rhs =>
      match lhs with Some x => expression_has_return x | None => false end
      || match rhs with Some x => expression_has_return x | None => false end
  | BooleanExpression _ _ => false
  | IfExpression _ condition consequence alternative =>
      match condition with Some c => expression_has_return c | None => false end
      || block_has_return consequence
      || match alternative with Some b => block_has_return b | None => false end
  | FunctionLiteral _ _ body => block_has_return body
  | CallExpression _ function arguments =>
      match function with Some f => expression_has_return f | None => false end
      || (fix any (l : list (option expression_t)) : bool :=
            match l with
            | [] => false
            | a :: l' =>
                match a with Some x => expression_has_return x | None => false end
                || any l'
            end) arguments
  end
with block_has_return (b : block_statement_t) : bool :=
  match b with
  | BlockStatement _ statements =>
      (fix any (l : list statement_t) : bool :=
         match l with
         | [] => false
         | s :: l' => statement_has_return s || any l'
         end) statements
  end
with statement_has_return (s : statement_t) : bool :=
  match s with
  | LetStatement _ _ value =>
      match value with Some x => expression_has_return x | None => false end
  | ReturnStatement _ _ => true
  | ExpressionStatement _ value =>
      match value with Some x => expression_has_return x | None => false end
  end.

Definition program_has_return (program : program_t) : bool :=
  existsb statement_has_return (program_statements program).

(** The call returns no string: it reads through a null pointer, hands
    [NULL] to [%s] or recurses without end. *)
Definition no_text (r : rendered) : Prop := forall s, r <> Text s.

(** *** Trees that have a string form

    No operand, condition, callee or argument is [NULL]; no block is empty
    (the string of an empty block is [NULL], which its owner hands to [%s]);
    there is no [return] statement; and every integer is above [LONG_MIN].
    A [let] or expression statement may lack its expression: its string is
    then the empty one. *)
Fixpoint printable_expression (e : expression_t) : bool :=
  match e with
  | IdentifierExpression _ => true
  | IntegerExpression _ value => (LONG_MIN <? value) && (value <=? LONG_MAX)
  | PrefixExpression _ _ operand =>
      match operand with Some x => printable_expression x | None => false end
  | InfixExpression _ _ lhs rhs =>
      match lhs with Some x => printable_expression x | None => false end
      && match rhs with Some x => printable_expression x | None => false end
  | BooleanExpression _ _ => true
  | IfExpression _ condition consequence alternative =>
      match condition with Some c => printable_expression c | None => false end
      && printable_block_statement consequence
      && match alternative with Some b => printable_block_statement b | None => true end
  | FunctionLiteral _ _ body => printable_block_statement body
  | CallExpression _ function arguments =>
      match function with Some f => printable_expression f | None => false end
      && (fix all (l : list (option expression_t)) : bool :=
            match l with
            | [] => true
            | a :: l' =>
                match a with Some x => printable_expression x | None => false end
                && all l'
            end) arguments
  end
with printable_block_statement (b : block_statement_t) : bool :=
  match b with
  | BlockStatement _ statements =>
      match statements with [] => false | _ => true end
      && (fix all (l : list statement_t) : bool :=
            match l with
            | [] => true
            | s :: l' => printable_statement s && all l'
            end) statements
  end
with printable_statement (s : statement_t) : bool :=
  match s with
  | LetStatement _ _ value =>
      match value with Some x => printable_expression x | None => true end
  | ReturnStatement _ _ => false
  | ExpressionStatement _ value =>
      match value with Some x => printable_expression x | None => true end
  end.

Definition printable_program (program : program_t) : bool :=
  match program_statements program with [] => false | _ => true end
  && forallb printable_statement (program_statements program).

(** The call returns a string that is not [NULL]. *)
Definition has_text (r : rendered) : Prop := exists s, r = Text (Some s).

End Ast.
Export Ast.

(** ** The Pratt parser ([parser.c]) *)

Module Parser.

(** Modelled from the spec: [operator_precedence_t] is declared in
    [parser.h], which is not part of the sources at hand; the levels are,
    from low to high, LOWEST, EQUALS, LESSGREATER, SUM, PRODUCT, PREFIX,
    CALL and INDEX. *)
Inductive operator_precedence_t : Set :=
| LOWEST | EQUALS | LESSGREATER | SUM | PRODUCT | PREFIX | CALL | INDEX.

(** The integer value of a level; the parser compares levels with [>=]. *)
Definition precedence_value (p : operator_precedence_t) : Z :=
  match p with
  | LOWEST => 1 | EQUALS => 2 | LESSGREATER => 3 | SUM => 4 | PRODUCT => 5
  | PREFIX => 6 | CALL => 7 | INDEX => 8
  end.

#[global] Instance operator_precedence_eq_dec : EqDecision operator_precedence_t.
Proof. solve_decision. Defined.

(** Modelled from the spec: [lexer_next_token] belongs to [lexer.c], which
    is not part of the sources at hand; the parser sees the lexer as the
    stream of the tokens it has yet to deliver, and at the end of the input
    the lexer returns END_OF_FILE again and again. *)
Definition eof_token : token := mk_token END_OF_FILE EmptyString.

Definition lexer_next_token (l : list token) : token * list token :=
  match l with
  | [] => (eof_token, [])
  | t :: l' => (t, l')
  end.

(** Modelled from the spec: [get_token_name_from_type] belongs to [token.c],
    which is not part of the sources at hand; a kind is named as the
    description lists it. *)
Definition get_token_name_from_type (t : token_type) : string :=
  token_type_ident t.

(** [parser_t]; [errors] is the list of messages, [NULL] until the first is
    added. *)
Record parser_t : Set := mk_parser {
  lexer : list token;
  cur_tok : token;
  peek_tok : token;
  errors : list string
}.

Definition parser_next_token (parser : parser_t) : parser_t :=
  let '(t, l) := lexer_next_token (lexer parser) in
  {| lexer := l; cur_tok := peek_tok parser; peek_tok := t;
     errors := errors parser |}.

(** [parser_init]: both tokens are read before the parser is used. *)
Definition parser_init (l : list token) : parser_t :=
  let '(t0, l) := lexer_next_token l in
  let '(t1, l) := lexer_next_token l in
  {| lexer := l; cur_tok := t0; peek_tok := t1; errors := [] |}.

Definition add_parse_error (parser : parser_t) (errmsg : string) : parser_t :=
  {| lexer := lexer parser; cur_tok := cur_tok parser;
     peek_tok := peek_tok parser; errors := errors parser ++ [errmsg] |}.

(** The double quote character. *)
Definition dquote : string := String (ascii_of_nat 34) EmptyString.

Definition handle_no_prefix_fn (parser : parser_t) : parser_t :=
  add_parse_error parser
    ("no prefix parse function for the token " +:+ dquote
       +:+ literal (cur_tok parser) +:+ dquote).

Definition precedence (tok_type : token_type) : operator_precedence_t :=
  match tok_type with
  | EQ | NOT_EQ => EQUALS
  | LT | GT => LESSGREATER
  | PLUS | MINUS => SUM
  | SLASH | ASTERISK => PRODUCT
  | LPAREN => CALL
  | _ => LOWEST
  end.

Definition peek_precedence (parser : parser_t) : operator_precedence_t :=
  precedence (type (peek_tok parser)).

Definition cur_precedence (parser : parser_t) : operator_precedence_t :=
  precedence (type (cur_tok parser)).

Definition peek_error (parser : parser_t) (tok_type : token_type) : parser_t :=
  add_parse_error parser
    ("expected next token to be " +:+ get_token_name_from_type tok_type
       +:+ ", got " +:+ get_token_name_from_type (type (peek_tok parser))
       +:+ " instead").

Definition expect_peek (parser : parser_t) (tok_type : token_type)
  : parser_t * bool :=
  if decide (type (peek_tok parser) = tok_type)
  then (parser_next_token parser, true)
  else (peek_error parser tok_type, false).

Definition create_identifier (parser : parser_t) : identifier_t :=
  {| ident_token := cur_tok parser; ident_value := literal (cur_tok parser) |}.

(** The parse functions of the two tables, by name. *)
Inductive prefix_parse_fn : Set :=
| parse_identifier_expression_fn
| parse_integer_expression_fn
| parse_prefix_expression_fn
| parse_grouped_expression_fn
| parse_function_literal_fn
| parse_if_expression_fn
| parse_boolean_expression_fn.

Inductive infix_parse_fn : Set :=
| parse_infix_expression_fn
| parse_call_expression_fn.

(** [prefix_fns] and [infix_fns]: arrays indexed by the token kind; [None] is
    the [NULL] entry. *)
Definition prefix_fns : list (option prefix_parse_fn) :=
  [ None;                                  (* ILLEGAL *)
    None;                                  (* END OF FILE *)
    Some parse_identifier_expression_fn;   (* IDENT *)
    Some parse_integer_expression_fn;      (* INT *)
    None;                                  (* ASSIGN *)
    None;                                  (* PLUS *)
    Some parse_prefix_expression_fn;       (* MINUS *)
    Some parse_prefix_expression_fn;       (* BANG *)
    None;                                  (* SLASH *)
    None;                                  (* ASTERISK *)
    None;                                  (* LT *)
    None;                                  (* GT *)
    None;                                  (* EQ *)
    None;                                  (* NOT_EQ *)
    None;                                  (* COMMA *)
    None;                                  (* SEMICOLON *)
    Some parse_grouped_expression_fn;      (* LPAREN *)
    None;                                  (* RPAREN *)
    None;                                  (* LBRACE *)
    None;                                  (* RBRACE *)
    Some parse_function_literal_fn;        (* FUNCTION *)
    None;                                  (* LET *)
    Some parse_if_expression_fn;           (* IF *)
    None;                                  (* ELSE *)
    None;                                  (* RETURN *)
    Some parse_boolean_expression_fn;      (* TRUE *)
    Some parse_boolean_expression_fn       (* FALSE *) ].

Definition infix_fns : list (option infix_parse_fn) :=
  [ None;                                  (* ILLEGAL *)
    None;                                  (* END OF FILE *)
    None;                                  (* IDENT *)
    None;                                  (* INT *)
    None;                                  (* ASSIGN *)
    Some parse_infix_expression_fn;        (* PLUS *)
    Some parse_infix_expression_fn;        (* MINUS *)
    None;                                  (* BANG *)
    Some parse_infix_expression_fn;        (* SLASH *)
    Some parse_infix_expression_fn;        (* ASTERISK *)
    Some parse_infix_expression_fn;        (* LT *)
    Some parse_infix_expression_fn;        (* GT *)
    Some parse_infix_expression_fn;        (* EQ *)
    Some parse_infix_expression_fn;        (* NOT_EQ *)
    None;                                  (* COMMA *)
    None;                                  (* SEMICOLON *)
    Some parse_call_expression_fn;         (* LPAREN *)
    None;                                  (* RPAREN *)
    None;                                  (* LBRACE *)
    None;                                  (* RBRACE *)
    None;                                  (* FUNCTION *)
    None;                                  (* LET *)
    None;                                  (* IF *)
    None;                                  (* ELSE *)
    None;                                  (* RETURN *)
    None;                                  (* TRUE *)
    None                                   (* FALSE *) ].

(** [fns[tok_type]]: the entry of a table for a kind. *)
Definition table_entry {A : Set} (fns : list (option A)) (t : token_type) : option A :=
  match fns !! token_type_value t with
  | Some entry => entry
  | None => None
  end.

(** *** Results

    A parse function changes the parser and returns a node (or [NULL]).  It
    may also stop the program by reading through a null pointer while it
    releases a tree.  The recursion of the functions is bounded here by a
    depth, which the last case reports as exhausted. *)
Inductive outcome (A : Type) : Type :=
| Returns (a : A) (parser : parser_t)
| Crash (parser : parser_t)
| OutOfFuel.
Arguments Returns {A} a parser.
Arguments Crash {A} parser.
Arguments OutOfFuel {A}.

Definition bind {A B : Type} (m : outcome A) (k : A -> parser_t -> outcome B)
  : outcome B :=
  match m with
  | Returns a parser => k a parser
  | Crash parser => Crash parser
  | OutOfFuel => OutOfFuel
  end.

Notation "'call' x , p <- m 'in' k" := (bind m (fun x p => k))
  (at level 10, x name, p name, m at level 100, k at level 200).

(** *** The parse functions that do not recurse *)

Definition parse_identifier_expression (parser : parser_t)
  : outcome (option expression_t) :=
  Returns (Some (IdentifierExpression (create_identifier parser))) parser.

(** The message is added when [strtol] converted nothing, stopped before
    the end of the literal or set [errno]. *)
Definition integer_conversion_failed (r : strtol_result) : bool :=
  negb (strtol_consumed r)                            (* ep == literal *)
  || negb (String.eqb (strtol_rest r) EmptyString)    (* *ep != 0 *)
  || strtol_erange r.                                 (* errno != 0 *)

Definition parse_integer_expression (parser : parser_t)
  : outcome (option expression_t) :=
  let lit := literal (cur_tok parser) in
  let r := strtol lit in
  let int_exp := IntegerExpression (cur_tok parser) (strtol_value r) in
  if integer_conversion_failed r
  then Returns (Some int_exp)
         (add_parse_error parser ("could not parse " +:+ lit +:+ " as integer"))
  else Returns (Some int_exp) parser.

Definition parse_boolean_expression (parser : parser_t)
  : outcome (option expression_t) :=
  Returns (Some (BooleanExpression (cur_tok parser)
                   (bool_decide (type (cur_tok parser) = TRUE)))) parser.

(** The loop [while (parser->peek_tok->type == COMMA)] of
    [parse_function_parameters]. *)
Fixpoint function_parameters_loop (fuel : nat) (parameters : list identifier_t)
    (parser : parser_t) : outcome (list identifier_t) :=
  match fuel with
  | O => OutOfFuel
  | S fuel =>
      if decide (type (peek_tok parser) = COMMA) then
        let parser := parser_next_token parser in
        let parser := parser_next_token parser in
        let identifier := create_identifier parser in
        function_parameters_loop fuel (parameters ++ [identifier]) parser
      else Returns parameters parser
  end.

(** [parse_function_parameters]: the list of the function, [NULL] after a
    missing [)]. *)
Definition parse_function_parameters (fuel : nat) (parser : parser_t)
  : outcome (option (list identifier_t)) :=
  if decide (type (peek_tok parser) = RPAREN) then
    Returns (Some []) (parser_next_token parser)
  else
    let parser := parser_next_token parser in
    let identifier := create_identifier parser in
    call parameters, parser <- function_parameters_loop fuel [identifier] parser in
    let '(parser, ok) := expect_peek parser RPAREN in
    if ok then Returns (Some parameters) parser
    else Returns None parser.

(** *** The parse functions that call [parse_expression] or
    [parser_parse_statement], given these two *)

Section Recursive.

Variable parse_expression :
  operator_precedence_t -> parser_t -> outcome (option expression_t).
Variable parser_parse_statement : parser_t -> outcome (option statement_t).
Variable parse_block_statement : parser_t -> outcome block_statement_t.
Variable fuel : nat.

Definition parse_prefix_expression (parser : parser_t)
  : outcome (option expression_t) :=
  let tok := cur_tok parser in
  let operator := literal (cur_tok parser) in
  let parser := parser_next_token parser in
  call operand, parser <- parse_expression PREFIX parser in
  Returns (Some (PrefixExpression tok operator operand)) parser.

Definition parse_infix_expression (lhs : option expression_t) (parser : parser_t)
  : outcome (option expression_t) :=
  let operator := literal (cur_tok parser) in
  let tok := cur_tok parser in
  let prec := cur_precedence parser in
  let parser := parser_next_token parser in
  call rhs, parser <- parse_expression prec parser in
  Returns (Some (InfixExpression tok operator lhs rhs)) parser.

Definition parse_grouped_expression (parser : parser_t)
  : outcome (option expression_t) :=
  let parser := parser_next_token parser in
  call exp, parser <- parse_expression LOWEST parser in
  let '(parser, ok) := expect_peek parser RPAREN in
  if ok then Returns exp parser
  else if free_expression_ptr exp then Returns None parser
  else Crash parser.

(** [free_if_expression] checks its three children before it releases
    them. *)
Definition free_if_expression (condition : option expression_t)
    (consequence alternative : option block_statement_t) : bool :=
  match condition with Some c => free_expression c | None => true end
  && match consequence with Some b => free_block_statement b | None => true end
  && match alternative with Some b => free_block_statement b | None => true end.

Definition parse_if_expression (parser : parser_t)
  : outcome (option expression_t) :=
  let tok := cur_tok parser in
  let '(parser, ok) := expect_peek parser LPAREN in
  if negb ok then Returns None parser
  else
    let parser := parser_next_token parser in
    call condition, parser <- parse_expression LOWEST parser in
    let '(parser, ok) := expect_peek parser RPAREN in
    if negb ok then
      if free_if_expression condition None None then Returns None parser
      else Crash parser
    else
      let '(parser, ok) := expect_peek parser LBRACE in
      if negb ok then
        if free_if_expression condition None None then Returns None parser
        else Crash parser
      else
        call consequence, parser <- parse_block_statement parser in
        if decide (type (peek_tok parser) = ELSE) then
          let parser := parser_next_token parser in
          let '(parser, ok) := expect_peek parser LBRACE in
          if negb ok then
            if free_if_expression condition (Some consequence) None
            then Returns None parser
            else Crash parser
          else
            call alternative, parser <- parse_block_statement parser in
            Returns (Some (IfExpression tok condition consequence (Some alternative)))
              parser
        else
          Returns (Some (IfExpression tok condition consequence None)) parser.

Definition parse_function_literal (parser : parser_t)
  : outcome (option expression_t) :=
  let tok := cur_tok parser in
  let '(parser, ok) := expect_peek parser LPAREN in
  if negb ok then Returns None parser
  else
    call parameters, parser <- parse_function_parameters fuel parser in
    match parameters with
    | None => Returns None parser
    | Some parameters =>
        let '(parser, ok) := expect_peek parser LBRACE in
        if negb ok then Returns None parser
        else
          call body, parser <- parse_block_statement parser in
          Returns (Some (FunctionLiteral tok parameters body)) parser
    end.

Definition parse_letstatement (parser : parser_t)
  : outcome (option statement_t) :=
  let tok := cur_tok parser in
  let '(parser, ok) := expect_peek parser IDENT in
  if negb ok then Returns None parser
  else
    let ident := create_identifier parser in
    let '(parser, ok) := expect_peek parser ASSIGN in
    if negb ok then Returns None parser
    else
      let parser := parser_next_token parser in
      call value, parser <- parse_expression LOWEST parser in
      let parser :=
        if decide (type (peek_tok parser) = SEMICOLON)
        then parser_next_token parser else parser in
      Returns (Some (LetStatement tok ident value)) parser.

Definition parse_return_statement (parser : parser_t)
  : outcome (option statement_t) :=
  let tok := cur_tok parser in
  let parser := parser_next_token parser in
  call return_value, parser <- parse_expression LOWEST parser in
  let parser :=
    if decide (type (peek_tok parser) = SEMICOLON)
    then parser_next_token parser else parser in
  Returns (Some (ReturnStatement tok return_value)) parser.

Definition parse_expression_statement (parser : parser_t)
  : outcome (option statement_t) :=
  let tok := cur_tok parser in
  call expression, parser <- parse_expression LOWEST parser in
  let parser :=
    if decide (type (peek_tok parser) = SEMICOLON)
    then parser_next_token parser else parser in
  Returns (Some (ExpressionStatement tok expression)) parser.

End Recursive.

(** *** The recursive parse functions

    [fuel] bounds the depth of the calls; each function hands the rest of
    it to the functions it calls, and a loop spends one unit per turn. *)
Fixpoint parse_expression (fuel : nat) (prec : operator_precedence_t)
    (parser : parser_t) {struct fuel} : outcome (option expression_t) :=
  match fuel with
  | O => OutOfFuel
  | S fuel =>
      match table_entry prefix_fns (type (cur_tok parser)) with
      | None => Returns None (handle_no_prefix_fn parser)
      | Some prefix_fn =>
          call left_exp, parser <-
            match prefix_fn with
            | parse_identifier_expression_fn => parse_identifier_expression parser
            | parse_integer_expression_fn => parse_integer_expression parser
            | parse_prefix_expression_fn =>
                parse_prefix_expression (parse_expression fuel) parser
            | parse_grouped_expression_fn =>
                parse_grouped_expression (parse_expression fuel) parser
            | parse_function_literal_fn =>
                parse_function_literal (parse_block_statement fuel) fuel parser
            | parse_if_expression_fn =>
                parse_if_expression (parse_expression fuel)
                  (parse_block_statement fuel) parser
            | parse_boolean_expression_fn => parse_boolean_expression parser
            end in
          infix_loop fuel prec left_exp parser
      end
  end

(** The loop [for (;;)] of [parse_expression]. *)
with infix_loop (fuel : nat) (prec : operator_precedence_t)
    (left_exp : option expression_t) (parser : parser_t) {struct fuel}
  : outcome (option expression_t) :=
  match fuel with
  | O => OutOfFuel
  | S fuel =>
      if decide (type (peek_tok parser) = SEMICOLON) then Returns left_exp parser
      else if precedence_value prec >=? precedence_value (peek_precedence parser)
      then Returns left_exp parser
      else
        match table_entry infix_fns (type (peek_tok parser)) with
        | None => Returns left_exp parser
        | Some infix_fn =>
            let parser := parser_next_token parser in
            call right, parser <-
              match infix_fn with
              | parse_infix_expression_fn =>
                  parse_infix_expression (parse_expression fuel) left_exp parser
              | parse_call_expression_fn =>
                  parse_call_expression fuel left_exp parser
              end in
            infix_loop fuel prec right parser
        end
  end

(** [parse_call_expression]; the token kept by the node is the one after
    the parenthesis ([parser->peek_tok]). *)
with parse_call_expression (fuel : nat) (function : option expression_t)
    (parser : parser_t) {struct fuel} : outcome (option expression_t) :=
  match fuel with
  | O => OutOfFuel
  | S fuel =>
      let tok := peek_tok parser in
      call arguments, parser <- parse_call_arguments fuel parser in
      match arguments with
      | None => Returns None parser
      | Some arguments => Returns (Some (CallExpression tok function arguments)) parser
      end
  end

(** [parse_call_arguments]: the list of the call, [NULL] after a missing
    [)]; releasing the arguments read so far reads through each of them. *)
with parse_call_arguments (fuel : nat) (parser : parser_t) {struct fuel}
  : outcome (option (list (option expression_t))) :=
  match fuel with
  | O => OutOfFuel
  | S fuel =>
      if decide (type (peek_tok parser) = RPAREN) then
        Returns (Some []) (parser_next_token parser)
      else
        let parser := parser_next_token parser in
        call arg, parser <- parse_expression fuel LOWEST parser in
        call arguments, parser <- call_arguments_loop fuel [arg] parser in
        let '(parser, ok) := expect_peek parser RPAREN in
        if ok then Returns (Some arguments) parser
        else if free_expression_list arguments then Returns None parser
        else Crash parser
  end

(** The loop [while (parser->peek_tok->type == COMMA)] of
    [parse_call_arguments]. *)
with call_arguments_loop (fuel : nat) (arguments : list (option expression_t))
    (parser : parser_t) {struct fuel} : outcome (list (option expression_t)) :=
  match fuel with
  | O => OutOfFuel
  | S fuel =>
      if decide (type (peek_tok parser) = COMMA) then
        let parser := parser_next_token parser in
        let parser := parser_next_token parser in
        call arg, parser <- parse_expression fuel LOWEST parser in
        call_arguments_loop fuel (arguments ++ [arg]) parser
      else Returns arguments parser
  end

with parse_block_statement (fuel : nat) (parser : parser_t) {struct fuel}
  : outcome block_statement_t :=
  match fuel with
  | O => OutOfFuel
  | S fuel =>
      let tok := cur_tok parser in
      let parser := parser_next_token parser in
      call statements, parser <- block_statement_loop fuel [] parser in
      Returns (BlockStatement tok statements) parser
  end

(** The loop of [parse_block_statement]. *)
with block_statement_loop (fuel : nat) (statements : list statement_t)
    (parser : parser_t) {struct fuel} : outcome (list statement_t) :=
  match fuel with
  | O => OutOfFuel
  | S fuel =>
      if negb (bool_decide (type (cur_tok parser) = RBRACE))
         && negb (bool_decide (type (cur_tok parser) = END_OF_FILE))
      then
        call stmt, parser <- parser_parse_statement fuel parser in
        let statements :=
          match stmt with
          | Some s => statements ++ [s]
          | None => statements
          end in
        let parser := parser_next_token parser in
        block_statement_loop fuel statements parser
      else Returns statements parser
  end

with parser_parse_statement (fuel : nat) (parser : parser_t) {struct fuel}
  : outcome (option statement_t) :=
  match fuel with
  | O => OutOfFuel
  | S fuel =>
      match type (cur_tok parser) with
      | LET => parse_letstatement (parse_expression fuel) parser
      | RETURN => parse_return_statement (parse_expression fuel) parser
      | _ => parse_expression_statement (parse_expression fuel) parser
      end
  end.

(** The loop of [parse_program]. *)
Fixpoint program_loop (fuel : nat) (statements : list statement_t)
    (parser : parser_t) : outcome (list statement_t) :=
  match fuel with
  | O => OutOfFuel
  | S fuel =>
      if negb (bool_decide (type (cur_tok parser) = END_OF_FILE)) then
        call stmt, parser <- parser_parse_statement fuel parser in
        let statements :=
          match stmt with
          | Some s => statements ++ [s]
          | None => statements
          end in
        let parser := parser_next_token parser in
        program_loop fuel statements parser
      else Returns statements parser
  end.

Definition parse_program (fuel : nat) (parser : parser_t) : outcome program_t :=
  call statements, parser <- program_loop fuel [] parser in
  Returns (mk_program statements) parser.

End Parser.
Export Parser.

(** ** The lexer *)

Module Lexer.

(** Modelled from the spec: [lexer.c] is not part of the sources at hand.
    The lexer discards white space (space, tab, carriage return, newline);
    reads [==] and [!=] as two-character operators and [=] and [!] alone as
    assignment and logical not; reads the one-character operators and
    delimiters; reads an identifier [[A-Za-z_][A-Za-z0-9_]*] and looks it up
    among the keywords; reads an integer [[0-9]+] with its text kept as it
    is; gives ILLEGAL, with the byte as its literal, for any other byte; and
    returns END_OF_FILE at the end of the input, again and again.  The kinds
    are those of [token.h]: the bytes of the kinds it does not declare
    (brackets, colon, double quote) are unknown bytes. *)
Definition is_letter (c : ascii) : bool :=
  let n := Z_of_char c in
  ((97 <=? n) && (n <=? 122)) || ((65 <=? n) && (n <=? 90)) || (n =? 95).

Definition is_whitespace (c : ascii) : bool :=
  let n := Z_of_char c in
  (n =? 32) || (n =? 9) || (n =? 13) || (n =? 10).

Definition is_ident_char (c : ascii) : bool := is_letter c || isdigit c.

(** The longest prefix of [s] whose characters satisfy [f], and the rest. *)
Fixpoint read_while (f : ascii -> bool) (s : string) : string * string :=
  match s with
  | String c s' =>
      if f c then
        let '(word, rest) := read_while f s' in (String c word, rest)
      else (EmptyString, s)
  | EmptyString => (EmptyString, EmptyString)
  end.

Fixpoint skip_whitespace (s : string) : string :=
  match s with
  | String c s' => if is_whitespace c then skip_whitespace s' else s
  | EmptyString => s
  end.

Definition keywords : list (string * token_type) :=
  [("let", LET); ("fn", FUNCTION); ("if", IF); ("else", ELSE);
   ("return", RETURN); ("true", TRUE); ("false", FALSE)].

Fixpoint lookup_keyword (table : list (string * token_type)) (word : string)
  : token_type :=
  match table with
  | [] => IDENT
  | (k, t) :: table' => if String.eqb k word then t else lookup_keyword table' word
  end.

Definition lookup_ident (word : string) : token_type :=
  lookup_keyword keywords word.

Definition one_char_kinds : list (ascii * token_type) :=
  [("+"%char, PLUS); ("-"%char, MINUS); ("*"%char, ASTERISK); ("/"%char, SLASH);
   ("<"%char, LT); (">"%char, GT); ("("%char, LPAREN); (")"%char, RPAREN);
   ("{"%char, LBRACE); ("}"%char, RBRACE); (","%char, COMMA);
   (";"%char, SEMICOLON)].

Fixpoint one_char_kind (table : list (ascii * token_type)) (c : ascii)
  : option token_type :=
  match table with
  | [] => None
  | (k, t) :: table' => if Ascii.eqb k c then Some t else one_char_kind table' c
  end.

(** The character that follows is [=]: the second half of [==] and [!=]. *)
Definition followed_by_equals (rest : string) : bool :=
  match rest with
  | String c _ => Ascii.eqb c "="%char
  | EmptyString => false
  end.

Definition string_tail (s : string) : string :=
  match s with
  | String _ s' => s'
  | EmptyString => EmptyString
  end.

(** [next_token]: the next token of the input and the input after it. *)
Definition next_token (input : string) : token * string :=
  match skip_whitespace input with
  | EmptyString => (eof_token, EmptyString)
  | String c rest =>
      if Ascii.eqb c "="%char then
        if followed_by_equals rest
        then (mk_token EQ "==", string_tail rest)
        else (mk_token ASSIGN "=", rest)
      else if Ascii.eqb c "!"%char then
        if followed_by_equals rest
        then (mk_token NOT_EQ "!=", string_tail rest)
        else (mk_token BANG "!", rest)
      else
        match one_char_kind one_char_kinds c with
        | Some t => (mk_token t (String c EmptyString), rest)
        | None =>
            if is_letter c then
              let '(word, rest') := read_while is_ident_char (String c rest) in
              (mk_token (lookup_ident word) word, rest')
            else if isdigit c then
              let '(word, rest') := read_while isdigit (String c rest) in
              (mk_token INT word, rest')
            else (mk_token ILLEGAL (String c EmptyString), rest)
        end
  end.

(** The tokens of the input up to its end; a token takes at least one
    character, so [fuel] above the length of the input is enough. *)
Fixpoint tokenize (fuel : nat) (input : string) : list token :=
  match fuel with
  | O => []
  | S fuel =>
      let '(tok, rest) := next_token input in
      if decide (type tok = END_OF_FILE) then []
      else tok :: tokenize fuel rest
  end.

Definition lex (input : string) : list token :=
  tokenize (S (String.length input)) input.

End Lexer.
Export Lexer.

(** ** The vocabulary of the statements about the parser *)

Module ParserSpec.

(** What holds of the parser whenever a parse function stops, returning or
    not. *)
Definition sat {A : Type} (P : parser_t -> Prop) (o : outcome A) : Prop :=
  match o with
  | Returns _ parser => P parser
  | Crash parser => P parser
  | OutOfFuel => True
  end.

Definition keeps {A : Type} (P : parser_t -> Prop) (f : parser_t -> outcome A) : Prop :=
  forall p, P p -> sat P (f p).

(** The three forms of the messages of the parser. *)
Definition parse_error_form (msg : string) : Prop :=
  (exists expected found : token_type,
      msg = "expected next token to be " +:+ get_token_name_from_type expected
              +:+ ", got " +:+ get_token_name_from_type found +:+ " instead")
  \/ (exists lit : string,
         msg = "no prefix parse function for the token " +:+ dquote +:+ lit +:+ dquote)
  \/ (exists lit : string, msg = "could not parse " +:+ lit +:+ " as integer").

(** An invariant of the parser: a property of its state that reading a token
    and recording any of the three messages keep. *)
Record parser_invariant (P : parser_t -> Prop) : Prop := {
  inv_next : forall p, P p -> P (parser_next_token p);
  inv_error : forall p msg, parse_error_form msg -> P p -> P (add_parse_error p msg)
}.

(** [o'] is what [o] becomes with more fuel: the same, unless [o] ran out. *)
Definition refines {A : Type} (o o' : outcome A) : Prop :=
  o <> OutOfFuel -> o' = o.

(** The two forms of message that the description of the parser names. *)
Definition described_error_form (msg : string) : Prop :=
  (exists x y : string,
      msg = "expected next token to be " +:+ x +:+ ", got " +:+ y +:+ " instead")
  \/ (exists z : string, msg = "no prefix parse function for token " +:+ z).

(** The kinds that have a prefix parse function. *)
Definition prefix_kinds : list token_type :=
  [IDENT; INT; MINUS; BANG; LPAREN; FUNCTION; IF; TRUE; FALSE].

(** The message of [handle_no_prefix_fn] for a token. *)
Definition no_prefix_message (tok : token) : string :=
  "no prefix parse function for the token " +:+ dquote +:+ literal tok +:+ dquote.

(** *** Expressions over the binary operators

    An operand is an identifier, an integer or a boolean; an operator is one
    of [== != < > + - * /].  [operation] is the tree of such an expression,
    with the tokens it is read from. *)
Inductive operation : Set :=
| Operand (tok : token)
| Operation (op : token) (lhs rhs : operation).

Definition is_operand (tok : token) : bool :=
  bool_decide (type tok ∈ [IDENT; INT; TRUE; FALSE]).

Definition is_operator (tok : token) : bool :=
  bool_decide (type tok ∈ [EQ; NOT_EQ; LT; GT; PLUS; MINUS; SLASH; ASTERISK]).

Fixpoint well_tokened (e : operation) : bool :=
  match e with
  | Operand tok => is_operand tok
  | Operation op lhs rhs => is_operator op && well_tokened lhs && well_tokened rhs
  end.

(** The tokens of the expression as it is written, without parentheses. *)
Fixpoint infix_tokens (e : operation) : list token :=
  match e with
  | Operand tok => [tok]
  | Operation op lhs rhs => infix_tokens lhs ++ op :: infix_tokens rhs
  end.

Fixpoint last_token (e : operation) : token :=
  match e with
  | Operand tok => tok
  | Operation _ _ rhs => last_token rhs
  end.

(** The node that the prefix parse function of an operand builds, and the
    message that an integer operand may add. *)
Definition operand_expression (tok : token) : expression_t :=
  match type tok with
  | IDENT => IdentifierExpression {| ident_token := tok; ident_value := literal tok |}
  | INT => IntegerExpression tok (strtol_value (strtol (literal tok)))
  | _ => BooleanExpression tok (bool_decide (type tok = TRUE))
  end.

Definition operand_errors (tok : token) : list string :=
  match type tok with
  | INT =>
      if integer_conversion_failed (strtol (literal tok))
      then ["could not parse " +:+ literal tok +:+ " as integer"]
      else []
  | _ => []
  end.

Fixpoint operation_expression (e : operation) : expression_t :=
  match e with
  | Operand tok => operand_expression tok
  | Operation op lhs rhs =>
      InfixExpression op (literal op)
        (Some (operation_expression lhs)) (Some (operation_expression rhs))
  end.

Fixpoint operation_errors (e : operation) : list string :=
  match e with
  | Operand tok => operand_errors tok
  | Operation _ lhs rhs => operation_errors lhs ++ operation_errors rhs
  end.

(** The level of the operator at the root; an operand has none. *)
Definition root_level (e : operation) : option Z :=
  match e with
  | Operand _ => None
  | Operation op _ _ => Some (precedence_value (precedence (type op)))
  end.

Definition level_at_least (bound : Z) (e : operation) : bool :=
  match root_level e with
  | Some o => bound <=? o
  | None => true
  end.

Definition level_above (bound : Z) (e : operation) : bool :=
  match root_level e with
  | Some o => bound <? o
  | None => true
  end.

(** The tree respects the precedences: under an operator, the left operand
    is an operation of the same or a higher level (operators of one level
    group to the left) and the right operand one of a strictly higher level
    (a tighter operator takes its operands first). *)
Fixpoint precedence_shaped (e : operation) : bool :=
  match e with
  | Operand _ => true
  | Operation op lhs rhs =>
      precedence_shaped lhs && precedence_shaped rhs
      && level_at_least (precedence_value (precedence (type op))) lhs
      && level_above (precedence_value (precedence (type op))) rhs
  end.

(** The tree of [e op b], for a tree [e] that respects the precedences: the
    new operator takes the last operand of [e] when it binds tighter than
    the operator above that operand, and the whole of [e] otherwise. *)
Fixpoint attach (e : operation) (op b : token) : operation :=
  match e with
  | Operand _ => Operation op e (Operand b)
  | Operation o lhs rhs =>
      if precedence_value (precedence (type o)) <? precedence_value (precedence (type op))
      then Operation o lhs (attach rhs op b)
      else Operation op e (Operand b)
  end.

(** The tree of the expression [a op1 b1 op2 b2 ...]. *)
Definition shape (a : token) (rest : list (token * token)) : operation :=
  fold_left (fun e '(op, b) => attach e op b) rest (Operand a).

Definition flat_tokens (a : token) (rest : list (token * token)) : list token :=
  a :: flat_map (fun '(op, b) => [op; b]) rest.

(** The parser with [ts] as the tokens from the current one on, and [errs]
    as the messages recorded so far. *)
Definition parser_at (ts : list token) (errs : list string) : parser_t :=
  {| lexer := List.tl (List.tl ts);
     cur_tok := List.hd eof_token ts;
     peek_tok := List.hd eof_token (List.tl ts);
     errors := errs |}.

(** From some depth on, [f] gives [r]. *)
Definition yields {A : Type} (f : nat -> outcome A) (r : outcome A) : Prop :=
  exists fuel0, forall fuel, (fuel0 <= fuel)%nat -> f fuel = r.

(** The token that the parser peeks at when [rest] follows the current
    token. *)
Definition peeked (rest : list token) : token :=
  match rest with
  | [] => eof_token
  | t :: _ => t
  end.

(** Operators paired with the operands that follow them. *)
Definition operators_and_operands (rest : list (token * token)) : bool :=
  forallb (fun '(op, b) => is_operator op && is_operand b) rest.

(** *** What is left to read

    The tokens before the parser: the current one, the one it peeks at and
    those of the lexer.  [level_of] counts them up to the last one that is
    not END_OF_FILE. *)
Definition pending (p : parser_t) : list token :=
  cur_tok p :: peek_tok p :: lexer p.

Fixpoint level_of (ts : list token) : nat :=
  match ts with
  | [] => O
  | t :: ts' =>
      match level_of ts' with
      | O => if decide (type t = END_OF_FILE) then O else 1%nat
      | S n => S (S n)
      end
  end.

Definition level (p : parser_t) : nat := level_of (pending p).

(** A run that stops: it returns or reads through a null pointer. *)
Definition stops {A : Type} (o : outcome A) : Prop := o <> OutOfFuel.

(** What a run of the recursive parse functions needs to stop, at [m] tokens
    left: fuel in proportion. *)
Record stops_at (m : nat) : Prop := {
  at_infix_loop : forall p fuel prec left_exp,
    (level p <= m)%nat -> (6 * m + 1 <= fuel)%nat ->
    stops (infix_loop fuel prec left_exp p);
  at_expression : forall p fuel prec,
    (level p <= m)%nat -> (6 * m + 2 <= fuel)%nat ->
    stops (parse_expression fuel prec p);
  at_arguments_loop : forall p fuel arguments,
    (level p <= m)%nat -> (6 * m + 1 <= fuel)%nat ->
    stops (call_arguments_loop fuel arguments p);
  at_call_arguments : forall p fuel,
    (level p <= m)%nat -> (6 * m + 3 <= fuel)%nat ->
    stops (parse_call_arguments fuel p);
  at_call_expression : forall p fuel function,
    (level p <= m)%nat -> (6 * m + 4 <= fuel)%nat ->
    stops (parse_call_expression fuel function p);
  at_statement : forall p fuel,
    (level p <= m)%nat -> (6 * m + 3 <= fuel)%nat ->
    stops (parser_parse_statement fuel p);
  at_block_loop : forall p fuel statements,
    (level p <= m)%nat -> (6 * m + 4 <= fuel)%nat ->
    stops (block_statement_loop fuel statements p);
  at_block : forall p fuel,
    (level p <= m)%nat -> (6 * m + 5 <= fuel)%nat ->
    stops (parse_block_statement fuel p)
}.

(** The number of messages recorded. *)
Definition error_count (p : parser_t) : nat := List.length (errors p).

(** *** What a run guarantees about its result

    [ensures n G o], for a run [o] that started with at least [n] messages
    recorded: none of them is lost; a run that returns with exactly [n]
    messages returns a result that satisfies [G]; and a run that reads
    through a null pointer has recorded a message before. *)
Definition ensures {A : Type} (n : nat) (G : A -> Prop) (o : outcome A) : Prop :=
  match o with
  | Returns a p =>
      (n <= error_count p)%nat /\ (error_count p = n -> G a)
  | Crash p => (n < error_count p)%nat
  | OutOfFuel => True
  end.

(** A pointer that is not [NULL] and whose node satisfies [Q]. *)
Definition present {A : Type} (Q : A -> Prop) (o : option A) : Prop :=
  match o with
  | Some a => Q a
  | None => False
  end.

(** A property of the nodes that every node has whose children have it,
    when none of the children that the parser may leave [NULL] is [NULL]; an
    [if] without [else] has no alternative. *)
Record node_property (Qe : expression_t -> Prop) (Qs : statement_t -> Prop)
    (Qb : block_statement_t -> Prop) : Prop := {
  np_identifier : forall id, Qe (IdentifierExpression id);
  np_integer : forall tok value, Qe (IntegerExpression tok value);
  np_boolean : forall tok value, Qe (BooleanExpression tok value);
  np_prefix : forall tok operator operand,
    present Qe operand -> Qe (PrefixExpression tok operator operand);
  np_infix : forall tok operator lhs rhs,
    present Qe lhs -> present Qe rhs -> Qe (InfixExpression tok operator lhs rhs);
  np_if : forall tok condition consequence alternative,
    present Qe condition -> Qb consequence ->
    match alternative with Some b => Qb b | None => True end ->
    Qe (IfExpression tok condition consequence alternative);
  np_function : forall tok parameters body,
    Qb body -> Qe (FunctionLiteral tok parameters body);
  np_call : forall tok function arguments,
    present Qe function -> Forall (present Qe) arguments ->
    Qe (CallExpression tok function arguments);
  np_let : forall tok name value,
    present Qe value -> Qs (LetStatement tok name value);
  np_return : forall tok value,
    present Qe value -> Qs (ReturnStatement tok value);
  np_expression : forall tok value,
    present Qe value -> Qs (ExpressionStatement tok value);
  np_block : forall tok statements,
    Forall Qs statements -> Qb (BlockStatement tok statements)
}.

(** *** Trees without a null pointer

    No child that the parser may leave [NULL] is [NULL], at any depth.  The
    alternative of an [if] without [else] is no child. *)
Fixpoint complete_expression (e : expression_t) : bool :=
  match e with
  | IdentifierExpression _ => true
  | IntegerExpression _ _ => true
  | PrefixExpression _ _ operand =>
      match operand with Some x => complete_expression x | None => false end
  | InfixExpression _ _ lhs rhs =>
      match lhs with Some x => complete_expression x | None => false end
      && match rhs with Some x => complete_expression x | None => false end
  | BooleanExpression _ _ => true
  | IfExpression _ condition consequence alternative =>
      match condition with Some c => complete_expression c | None => false end
      && complete_block_statement consequence
      && match alternative with Some b => complete_block_statement b | None => true end
  | FunctionLiteral _ _ body => complete_block_statement body
  | CallExpression _ function arguments =>
      match function with Some f => complete_expression f | None => false end
      && (fix complete_all (l : list (option expression_t)) : bool :=
            match l with
            | [] => true
            | a :: l' =>
                match a with Some x => complete_expression x | None => false end
                && complete_all l'
            end) arguments
  end
with complete_block_statement (b : block_statement_t) : bool :=
  match b with
  | BlockStatement _ statements =>
      (fix complete_all (l : list statement_t) : bool :=
         match l with
         | [] => true
         | s :: l' => complete_statement s && complete_all l'
         end) statements
  end
with complete_statement (s : statement_t) : bool :=
  match s with
  | LetStatement _ _ value =>
      match value with Some x => complete_expression x | None => false end
  | ReturnStatement _ value =>
      match value with Some x => complete_expression x | None => false end
  | ExpressionStatement _ value =>
      match value with Some x => complete_expression x | None => false end
  end.

Definition complete_program (program : program_t) : bool :=
  forallb complete_statement (program_statements program).

(** The outcome of [parse_program] on a token stream: the same with any
    fuel from six times the length of the stream plus four on. *)
Definition parses_to (tokens : list token) (r : outcome program_t) : Prop :=
  stops r
  /\ forall fuel, (6 * List.length tokens + 4 <= fuel)%nat ->
                  parse_program fuel (parser_init tokens) = r.

(** The tokens of the lexer are no END_OF_FILE tokens, and END_OF_FILE as
    the current or the peek token means that everything after it is read:
    this holds of the parser of a stream that has END_OF_FILE at its end
    only. *)
Definition end_marked (p : parser_t) : Prop :=
  Forall (fun t => type t <> END_OF_FILE) (lexer p)
  /\ (type (peek_tok p) = END_OF_FILE -> lexer p = [])
  /\ (type (cur_tok p) = END_OF_FILE -> type (peek_tok p) = END_OF_FILE).

(** The message of [peek_error]. *)
Definition expected_message (expected found : token_type) : string :=
  "expected next token to be " +:+ get_token_name_from_type expected
    +:+ ", got " +:+ get_token_name_from_type found +:+ " instead".

(** No token before the parser is an opening parenthesis. *)
Definition no_parenthesis (p : parser_t) : Prop :=
  type (cur_tok p) <> LPAREN /\ type (peek_tok p) <> LPAREN
  /\ Forall (fun t => type t <> LPAREN) (lexer p).

(** The run does not stop by reading through a null pointer. *)
Definition never_crashes {A : Type} (o : outcome A) : Prop :=
  forall p, o <> Crash p.

End ParserSpec.
Export ParserSpec.

(** ** Programs that survive printing and reading back *)

Module RoundTrip.

(** The structure of an expression built from identifiers, integers,
    booleans, the two prefix operators, the eight infix operators and
    calls: the tree without the tokens its nodes keep. *)
Inductive prefix_operator : Set := Negate | Not.

Inductive infix_operator : Set :=
| Add | Subtract | Multiply | Divide | Less | Greater | Equal | NotEqual.

#[local] Unset Elimination Schemes.
Inductive simple : Set :=
| SIdent (name : string)
| SInt (n : Z)
| SBool (b : bool)
| SPrefix (op : prefix_operator) (e : simple)
| SInfix (op : infix_operator) (lhs rhs : simple)
| SCall (f : simple) (args : list simple).
#[local] Set Elimination Schemes.

(** The structure of a statement: a [let] or an expression statement. *)
Inductive simple_statement : Set :=
| SLet (name : string) (value : simple)
| SExpression (e : simple).

Definition prefix_token (op : prefix_operator) : token :=
  match op with
  | Negate => mk_token MINUS "-"
  | Not => mk_token BANG "!"
  end.

Definition infix_token (op : infix_operator) : token :=
  match op with
  | Add => mk_token PLUS "+"
  | Subtract => mk_token MINUS "-"
  | Multiply => mk_token ASTERISK "*"
  | Divide => mk_token SLASH "/"
  | Less => mk_token LT "<"
  | Greater => mk_token GT ">"
  | Equal => mk_token EQ "=="
  | NotEqual => mk_token NOT_EQ "!="
  end.

Definition prefix_operators : list prefix_operator := [Negate; Not].

Definition infix_operators : list infix_operator :=
  [Add; Subtract; Multiply; Divide; Less; Greater; Equal; NotEqual].

(** The operator that a node names by its [operator] string. *)
Definition prefix_of_string (s : string) : option prefix_operator :=
  List.find (fun op => String.eqb (literal (prefix_token op)) s) prefix_operators.

Definition infix_of_string (s : string) : option infix_operator :=
  List.find (fun op => String.eqb (literal (infix_token op)) s) infix_operators.

(** [Some] of each element, when every element has one. *)
Fixpoint all_some {A : Type} (l : list (option A)) : option (list A) :=
  match l with
  | [] => Some []
  | Some x :: l' =>
      match all_some l' with
      | Some xs => Some (x :: xs)
      | None => None
      end
  | None :: _ => None
  end.

(** The structure of a node, when the node is of the kinds above and none
    of its children is null. *)
Fixpoint structure_of (e : expression_t) : option simple :=
  match e with
  | IdentifierExpression id => Some (SIdent (ident_value id))
  | IntegerExpression _ value => Some (SInt value)
  | BooleanExpression _ value => Some (SBool value)
  | PrefixExpression _ operator (Some operand) =>
      match prefix_of_string operator, structure_of operand with
      | Some op, Some s => Some (SPrefix op s)
      | _, _ => None
      end
  | InfixExpression _ operator (Some lhs) (Some rhs) =>
      match infix_of_string operator, structure_of lhs, structure_of rhs with
      | Some op, Some l, Some r => Some (SInfix op l r)
      | _, _, _ => None
      end
  | CallExpression _ (Some function) arguments =>
      match structure_of function,
            all_some (map (fun a => match a with
                                    | Some x => structure_of x
                                    | None => None
                                    end) arguments) with
      | Some f, Some args => Some (SCall f args)
      | _, _ => None
      end
  | _ => None
  end.

Definition statement_structure (s : statement_t) : option simple_statement :=
  match s with
  | LetStatement tok name (Some value) =>
      if String.eqb (literal tok) "let"
      then SLet (ident_value name) <$> structure_of value
      else None
  | ExpressionStatement _ (Some e) => SExpression <$> structure_of e
  | _ => None
  end.

Definition program_structure (program : program_t) : option (list simple_statement) :=
  all_some (map statement_structure (program_statements program)).

(** An identifier of the language that is not a keyword. *)
Fixpoint all_ident_chars (s : string) : bool :=
  match s with
  | EmptyString => true
  | String c s' => is_ident_char c && all_ident_chars s'
  end.

Definition is_identifier (s : string) : bool :=
  match s with
  | EmptyString => false
  | String c s' =>
      is_letter c && all_ident_chars s'
      && bool_decide (lookup_ident s = IDENT)
  end.

(** The structures a source program can have: names are identifiers and
    integers are what an integer literal can denote. *)
Fixpoint well_formed (s : simple) : bool :=
  match s with
  | SIdent name => is_identifier name
  | SInt n => (0 <=? n) && (n <=? LONG_MAX)
  | SBool _ => true
  | SPrefix _ e => well_formed e
  | SInfix _ lhs rhs => well_formed lhs && well_formed rhs
  | SCall f args => well_formed f && forallb well_formed args
  end.

Definition well_formed_statement (s : simple_statement) : bool :=
  match s with
  | SLet name value => is_identifier name && well_formed value
  | SExpression e => well_formed e
  end.

(** The strings of a list, with [sep] between them. *)
Fixpoint join (sep : string) (l : list string) : string :=
  match l with
  | [] => EmptyString
  | [x] => x
  | x :: l' => x +:+ sep +:+ join sep l'
  end.

Fixpoint join_tokens (sep : token) (l : list (list token)) : list token :=
  match l with
  | [] => []
  | [x] => x
  | x :: l' => x ++ sep :: join_tokens sep l'
  end.

(** The text of a structure: every compound expression in parentheses. *)
Fixpoint render (s : simple) : string :=
  match s with
  | SIdent name => name
  | SInt n => decimal n
  | SBool b => if b then "true" else "false"
  | SPrefix op e => "(" +:+ literal (prefix_token op) +:+ render e +:+ ")"
  | SInfix op lhs rhs =>
      "(" +:+ render lhs +:+ " " +:+ literal (infix_token op) +:+ " "
          +:+ render rhs +:+ ")"
  | SCall f args => render f +:+ "(" +:+ join ", " (map render args) +:+ ")"
  end.

Definition render_statement (s : simple_statement) : string :=
  match s with
  | SLet name value => "let " +:+ name +:+ " = " +:+ render value +:+ ";"
  | SExpression e => render e
  end.

(** The tokens of that text. *)
Fixpoint tokens_of (s : simple) : list token :=
  match s with
  | SIdent name => [mk_token IDENT name]
  | SInt n => [mk_token INT (decimal n)]
  | SBool b => [if b then mk_token TRUE "true" else mk_token FALSE "false"]
  | SPrefix op e =>
      mk_token LPAREN "(" :: prefix_token op :: tokens_of e ++ [mk_token RPAREN ")"]
  | SInfix op lhs rhs =>
      mk_token LPAREN "(" :: tokens_of lhs ++ infix_token op :: tokens_of rhs
        ++ [mk_token RPAREN ")"]
  | SCall f args =>
      tokens_of f ++ mk_token LPAREN "("
        :: join_tokens (mk_token COMMA ",") (map tokens_of args)
        ++ [mk_token RPAREN ")"]
  end.

Definition statement_tokens (s : simple_statement) : list token :=
  match s with
  | SLet name value =>
      mk_token LET "let" :: mk_token IDENT name :: mk_token ASSIGN "="
        :: tokens_of value ++ [mk_token SEMICOLON ";"]
  | SExpression e => tokens_of e
  end.

(** The node that the parser builds from those tokens. *)
Fixpoint reparsed (s : simple) : expression_t :=
  match s with
  | SIdent name =>
      IdentifierExpression
        {| ident_token := mk_token IDENT name; ident_value := name |}
  | SInt n => IntegerExpression (mk_token INT (decimal n)) n
  | SBool b =>
      BooleanExpression (if b then mk_token TRUE "true" else mk_token FALSE "false") b
  | SPrefix op e =>
      PrefixExpression (prefix_token op) (literal (prefix_token op))
        (Some (reparsed e))
  | SInfix op lhs rhs =>
      InfixExpression (infix_token op) (literal (infix_token op))
        (Some (reparsed lhs)) (Some (reparsed rhs))
  | SCall f args =>
      CallExpression
        (List.hd (mk_token RPAREN ")")
           (join_tokens (mk_token COMMA ",") (map tokens_of args)
              ++ [mk_token RPAREN ")"]))
        (Some (reparsed f)) (map (fun a => Some (reparsed a)) args)
  end.

Definition reparsed_statement (s : simple_statement) : statement_t :=
  match s with
  | SLet name value =>
      LetStatement (mk_token LET "let")
        {| ident_token := mk_token IDENT name; ident_value := name |}
        (Some (reparsed value))
  | SExpression e =>
      ExpressionStatement (List.hd eof_token (tokens_of e)) (Some (reparsed e))
  end.

(** The text of the expression starts with an operand, not with a
    parenthesis. *)
Fixpoint starts_with_operand (s : simple) : bool :=
  match s with
  | SIdent _ | SInt _ | SBool _ => true
  | SPrefix _ _ | SInfix _ _ _ => false
  | SCall f _ => starts_with_operand f
  end.

(** In the text of the statements, an expression statement that follows
    another one must not start with a parenthesis: the parser would read the
    parenthesis as the argument list of a call of the statement before. *)
Fixpoint separable (l : list simple_statement) : bool :=
  match l with
  | SExpression _ :: ((SExpression e :: _) as l') =>
      starts_with_operand e && separable l'
  | _ :: l' => separable l'
  | [] => true
  end.

(** What may follow a word or a number in the input: no character that
    would continue it. *)
Definition boundary (rest : string) : bool :=
  match rest with
  | String c _ => negb (is_ident_char c)
  | EmptyString => true
  end.

(** The lexer reads the tokens [toks] from [input] and is left with
    [rest]. *)
Definition lexes (input : string) (toks : list token) (rest : string) : Prop :=
  forall fuel, tokenize (List.length toks + fuel) input = toks ++ tokenize fuel rest.

(** ** Reading a rendered text back *)

(** The last token of the text of a structure. *)
Definition closing (s : simple) : token := List.last (tokens_of s) eof_token.

Definition RP : token := mk_token RPAREN ")".
Definition LP : token := mk_token LPAREN "(".
Definition CM : token := mk_token COMMA ",".

(** From the tokens of a structure, [parse_expression] reaches its loop with
    the node of the structure as the left expression. *)
Definition reads_back (s : simple) : Prop :=
  forall (prec : operator_precedence_t) (rest : list token) (errs : list string)
         (r : outcome (option expression_t)),
    precedence_value prec < precedence_value CALL ->
    yields (fun fuel =>
              infix_loop fuel prec (Some (reparsed s))
                (parser_at (closing s :: rest) errs)) r ->
    yields (fun fuel =>
              parse_expression fuel prec (parser_at (tokens_of s ++ rest) errs)) r.

(** The token on which the parser stands after a statement. *)
Definition closing_statement (s : simple_statement) : token :=
  match s with
  | SLet _ _ => mk_token SEMICOLON ";"
  | SExpression e => closing e
  end.

(** What follows an expression statement ends the expression and is no
    semicolon. *)
Definition ends_statement (s : simple_statement) (rest : list token) : Prop :=
  match s with
  | SLet _ _ => True
  | SExpression _ =>
      precedence (type (peeked rest)) = LOWEST /\ type (peeked rest) <> SEMICOLON
  end.

(** The text of a list of statements: their texts with a space between. *)
Definition render_program (l : list simple_statement) : string :=
  join " " (map render_statement l).

Definition program_tokens (l : list simple_statement) : list token :=
  concat (map statement_tokens l).

(** Lexing and parsing a text. *)
Definition parse_text (fuel : nat) (text : string) : outcome program_t :=
  parse_program fuel (parser_init (lex text)).

Definition LB : token := mk_token LBRACE "{".
Definition RB : token := mk_token RBRACE "}".

(** What may follow the statements of a block: the closing brace, or the
    end of the input. *)
Definition ends_block (tail : list token) : Prop :=
  type (List.hd eof_token tail) = RBRACE \/ tail = [].

(** The tokens of a function without parameters whose body holds the
    statements [l], up to the last token of the body. *)
Definition function_tokens (fn : token) (l : list simple_statement) : list token :=
  fn :: LP :: RP :: LB :: program_tokens l.

End RoundTrip.
Export RoundTrip.

(** ** The arrays of statements ([parser.c]) *)

Module StatementArray.

(** The array of the statements

    A program and a block keep their statements in an array that grows:
    [statements] is the array ([None] when the pointer is [NULL]; a cell
    that holds no statement is [None]), [nstatements] the number of
    statements and [array_size] the number of cells.  The two counters are
    taken to be [size_t], the type of [new_size] in the code ([ast.h] is not
    part of the sources at hand). *)
Record statement_array : Set := mk_statement_array {
  statements : option (list (option statement_t));
  nstatements : Z;
  array_size : Z
}.

(** The array of [program_init]: 64 cells from [calloc]. *)
Definition program_init : statement_array :=
  {| statements := Some (replicate 64 None); nstatements := 0; array_size := 64 |}.

(** The array of [create_block_statement]: 8 cells from [calloc]. *)
Definition block_init : statement_array :=
  {| statements := Some (replicate 8 None); nstatements := 0; array_size := 8 |}.

(** [reallocarray(array, new_size, ...)]: [NULL] when it fails, else the
    old cells (as many as fit) followed by new ones. *)
Definition reallocarray (array : option (list (option statement_t))) (new_size : Z)
    (succeeds : bool) : option (list (option statement_t)) :=
  if succeeds then Some (resize (Z.to_nat new_size) None (default [] array))
  else None.

(** [add_statement_to_program] (and [add_statement_to_block], which has
    the same body): the array and the returned [int]; [None] when the write
    [statements[nstatements++] = stmt] is outside the array or through
    [NULL]. *)
Definition add_statement_to_program (program : statement_array) (stmt : statement_t)
    (reallocarray_succeeds : bool) : option (statement_array * Z) :=
  let '(program, failed) :=
    if nstatements program =? array_size program then
      let new_size := wrap_size_t (array_size program * 2) in
      let array := reallocarray (statements program) new_size reallocarray_succeeds in
      match array with
      | None =>
          ({| statements := None; nstatements := nstatements program;
              array_size := array_size program |}, true)
      | Some _ =>
          ({| statements := array; nstatements := nstatements program;
              array_size := new_size |}, false)
      end
    else (program, false) in
  if failed then Some (program, 1)
  else
    match statements program with
    | None => None
    | Some cells =>
        let n := nstatements program in
        if (0 <=? n) && (n <? Z.of_nat (List.length cells)) then
          Some ({| statements := Some (<[Z.to_nat n := Some stmt]> cells);
                   nstatements := wrap_size_t (n + 1);
                   array_size := array_size program |}, 0)
        else None
    end.

Definition add_statement_to_block := add_statement_to_program.

(** The calls of the loop of [parse_program] for the statements [stmts],
    one after the other; every [reallocarray] succeeds. *)
Fixpoint add_statements (program : statement_array) (stmts : list statement_t)
  : option statement_array :=
  match stmts with
  | [] => Some program
  | stmt :: rest =>
      match add_statement_to_program program stmt true with
      | Some (program', 0) => add_statements program' rest
      | _ => None
      end
  end.

(** The array holds the statements [stmts], in this order, in its first
    cells. *)
Definition holds (program : statement_array) (stmts : list statement_t) : Prop :=
  exists cells,
    statements program = Some cells
    /\ Z.of_nat (List.length cells) = array_size program
    /\ nstatements program = Z.of_nat (List.length stmts)
    /\ nstatements program <= array_size program
    /\ 0 < array_size program
    /\ take (List.length stmts) cells = map Some stmts.

End StatementArray.

(** * Properties *)

(** [simpl] computes the appends of string literals. *)
#[local] Arguments String.append !_ _ / : simpl nomatch.

(** ** Token kinds *)

Section TokenKinds.

Lemma token_type_all_complete (t : token_type) : In t token_type_all.
Proof. destruct t; simpl; tauto. Qed.

Lemma token_type_all_NoDup : NoDup token_type_all.
Proof. apply (bool_decide_unpack _). vm_compute. exact I. Qed.

Lemma token_type_value_index (t : token_type) :
  token_type_all !! token_type_value t = Some t.
Proof. destruct t; reflexivity. Qed.

Lemma token_type_idents :
  map token_type_ident token_type_all =
  filter (fun s => s ∉ undeclared_token_kinds)
    ["ILLEGAL"; "END_OF_FILE"; "IDENT"; "INT"; "STRING"; "ASSIGN"; "PLUS";
     "MINUS"; "BANG"; "SLASH"; "ASTERISK"; "LT"; "GT"; "EQ"; "NOT_EQ"; "COMMA";
     "SEMICOLON"; "COLON"; "LPAREN"; "RPAREN"; "LBRACE"; "RBRACE"; "LBRACKET";
     "RBRACKET"; "FUNCTION"; "LET"; "IF"; "ELSE"; "RETURN"; "TRUE"; "FALSE"].
Proof. vm_compute. reflexivity. Qed.

End TokenKinds.

(** C5, as stated, fails: the description lists a kind [STRING] (and
    [COLON], [LBRACKET], [RBRACKET]) that no enumerator of [token_type] is
    named after. *)
Lemma C5_described_kind_not_declared :
  ~ (forall s : string,
       In s described_token_kinds <-> exists t, token_type_ident t = s).
Proof.
  intros H.
  destruct (proj1 (H "STRING")) as [t Ht].
  - simpl; tauto.
  - destruct t; discriminate Ht.
Qed.

(** C5, amended: [token_type] declares exactly the kinds of the description
    other than STRING, COLON, LBRACKET and RBRACKET: 27 kinds, each named
    once, numbered from 0 in the order of their declaration. *)
Theorem C5_token_kinds :
  (forall s : string,
      (exists t, token_type_ident t = s) <->
      In s described_token_kinds /\ ~ In s undeclared_token_kinds)
  /\ (forall t1 t2, token_type_ident t1 = token_type_ident t2 -> t1 = t2)
  /\ List.length token_type_all = 27%nat
  /\ (forall t, token_type_all !! token_type_value t = Some t).
Proof.
  split; [|split; [|split]].
  - intros s; split.
    + intros [t <-]. destruct t; vm_compute; intuition discriminate.
    + intros [Hin Hout]. simpl in Hin, Hout.
      repeat (destruct Hin as [<- | Hin];
              [first [ by (exfalso; apply Hout; tauto)
                     | by (eexists ILLEGAL) | by (eexists END_OF_FILE)
                     | by (eexists IDENT) | by (eexists INT)
                     | by (eexists ASSIGN) | by (eexists PLUS)
                     | by (eexists MINUS) | by (eexists BANG)
                     | by (eexists SLASH) | by (eexists ASTERISK)
                     | by (eexists LT) | by (eexists GT) | by (eexists EQ)
                     | by (eexists NOT_EQ) | by (eexists COMMA)
                     | by (eexists SEMICOLON) | by (eexists LPAREN)
                     | by (eexists RPAREN) | by (eexists LBRACE)
                     | by (eexists RBRACE) | by (eexists FUNCTION)
                     | by (eexists LET) | by (eexists IF) | by (eexists ELSE)
                     | by (eexists RETURN) | by (eexists TRUE)
                     | by (eexists FALSE) ] |]).
      destruct Hin.
  - intros t1 t2 H. destruct t1; destruct t2; first [reflexivity | discriminate H].
  - reflexivity.
  - apply token_type_value_index.
Qed.

(** ** The operand codec *)

Section CodecFacts.
Import Codec.

(** The two bytes of a 16-bit number, high byte first. *)
Lemma encode_two_bytes (n : Z) :
  0 <= n < 65536 -> size_t_to_uint8_be n 2 = [n / 256; n mod 256].
Proof.
  intros Hn. simpl size_t_to_uint8_be.
  change (8 * Z.of_nat 1) with 8. change (8 * Z.of_nat 0) with 0.
  rewrite Z.shiftr_0_r.
  change 255 with (Z.ones 8).
  rewrite !Z.land_ones by lia.
  rewrite Z.shiftr_div_pow2 by lia.
  change (2 ^ 8) with 256.
  f_equal. apply Z.mod_small. split.
  - apply Z.div_pos; lia.
  - apply Z.div_lt_upper_bound; lia.
Qed.

(** Shifting in a byte: the low eight bits of [acc << 8] are free. *)
Lemma lor_shiftl_byte (acc b : Z) :
  0 <= b < 256 -> Z.lor (Z.shiftl acc 8) b = 256 * acc + b.
Proof.
  intros Hb.
  pose proof (Z.add_lor_land (Z.shiftl acc 8) b) as Hadd.
  assert (Hland : Z.land (Z.shiftl acc 8) b = 0).
  { apply Z.bits_inj'. intros i Hi. rewrite Z.land_spec, Z.bits_0.
    destruct (Z.ltb_spec i 8).
    - rewrite Z.shiftl_spec_low by lia. reflexivity.
    - replace b with (b mod 2 ^ 8) by (apply Z.mod_small; simpl; lia).
      rewrite Z.mod_pow2_bits_high by lia. apply andb_false_r. }
  rewrite Z.shiftl_mul_pow2 in * by lia. change (2 ^ 8) with 256 in *. lia.
Qed.

Lemma decode_two_bytes (hi lo : Z) :
  0 <= hi < 256 -> 0 <= lo < 256 -> be_to_size_t [hi; lo] 2 = 256 * hi + lo.
Proof.
  intros Hhi Hlo. unfold be_to_size_t. simpl.
  rewrite !lor_shiftl_byte by lia. lia.
Qed.

End CodecFacts.

(** C8: decoding the two-byte big-endian encoding of a 16-bit number gives
    the number back, and the encoding puts the high byte first. *)
Theorem C8_u16_roundtrip (n : Z) :
  0 <= n < 65536 ->
  Codec.size_t_to_uint8_be n 2 = [n / 256; n mod 256]
  /\ Codec.be_to_size_t (Codec.size_t_to_uint8_be n 2) 2 = n.
Proof.
  intros Hn. split; [by apply encode_two_bytes|].
  rewrite encode_two_bytes by done.
  rewrite decode_two_bytes.
  - pose proof (Z.div_mod n 256 ltac:(lia)). lia.
  - split; [apply Z.div_pos; lia | apply Z.div_lt_upper_bound; lia].
  - apply Z.mod_pos_bound; lia.
Qed.

Lemma C8_u16_roundtrip_witness :
  0 <= 513 < 65536
  /\ Codec.size_t_to_uint8_be 513 2 = [2; 1]
  /\ Codec.be_to_size_t (Codec.size_t_to_uint8_be 513 2) 2 = 513.
Proof.
  split; [lia|]. exact (C8_u16_roundtrip 513 ltac:(lia)).
Defined.

(** ** [long_to_string] *)

Section LongToStringFacts.

Lemma count_loop_eq (l size : Z) :
  count_loop l size = if 10 <=? l then count_loop (Z.quot l 10) (size + 1) else size.
Proof.
  rewrite count_loop_equation_1.
  destruct (Z_le_gt_dec 10 l); simpl; destruct (Z.leb_spec 10 l); (reflexivity || lia).
Qed.

Lemma digit_loop_eq (l index : Z) (str : buffer) :
  digit_loop l index str =
  if 10 <=? l then
    match store str (wrap_size_t (index - 1)) (char_of_Z (48 + Z.rem l 10)) with
    | Some str' => digit_loop (Z.quot l 10) (wrap_size_t (index - 1)) str'
    | None => None
    end
  else Some (l, index, str).
Proof.
  rewrite digit_loop_equation_1.
  destruct (Z_le_gt_dec 10 l); simpl; destruct (Z.leb_spec 10 l); try lia; reflexivity.
Qed.

Lemma digits_loop_eq (l : Z) (acc : string) :
  digits_loop l acc =
  if 10 <=? l then digits_loop (Z.quot l 10) (String (char_of_Z (48 + Z.rem l 10)) acc)
  else String (char_of_Z (48 + l)) acc.
Proof.
  rewrite digits_loop_equation_1.
  destruct (Z_le_gt_dec 10 l); simpl; destruct (Z.leb_spec 10 l); (reflexivity || lia).
Qed.

(** Induction on a non-negative number through its quotient by 10. *)
Lemma quot_10_ind (P : Z -> Prop) :
  (forall l, 0 <= l < 10 -> P l) ->
  (forall l, 10 <= l -> P (Z.quot l 10) -> P l) ->
  forall l, 0 <= l -> P l.
Proof.
  intros Hsmall Hbig l Hl.
  cut (0 <= l -> P l); [auto|]. pattern l.
  apply Z_lt_induction; [|exact Hl].
  intros x IH Hx0. destruct (Z_le_gt_dec 10 x) as [Hx|Hx].
  - apply Hbig; [exact Hx|].
    assert (0 <= Z.quot x 10) by (apply Z.quot_pos; lia).
    apply IH; [|assumption]. split; [assumption|]. apply Z.quot_lt; lia.
  - apply Hsmall; lia.
Qed.

Lemma count_loop_shift (l : Z) :
  0 <= l -> forall size, count_loop l size = size + count_loop l 0.
Proof.
  intros Hl. pattern l. apply quot_10_ind; [| |exact Hl]; clear l Hl.
  - intros l Hl size. rewrite !(count_loop_eq l).
    destruct (Z.leb_spec 10 l); lia.
  - intros l Hl IH size. rewrite !(count_loop_eq l).
    destruct (Z.leb_spec 10 l); [|lia].
    rewrite (IH (size + 1)), (IH (0 + 1)). lia.
Qed.

Lemma count_loop_bounds (l : Z) : 0 <= l -> 0 <= count_loop l 0 <= l.
Proof.
  intros Hl. pattern l. apply quot_10_ind; [| |exact Hl]; clear l Hl.
  - intros l Hl. rewrite count_loop_eq. destruct (Z.leb_spec 10 l); lia.
  - intros l Hl IH. rewrite count_loop_eq. destruct (Z.leb_spec 10 l); [|lia].
    rewrite count_loop_shift by (apply Z.quot_pos; lia).
    assert (Z.quot l 10 < l) by (apply Z.quot_lt; lia). lia.
Qed.

Lemma wrap_size_t_small (z : Z) : 0 <= z < SIZE_MODULUS -> wrap_size_t z = z.
Proof. intros H. unfold wrap_size_t. by apply Z.mod_small. Qed.

Lemma store_front (i : Z) (c : ascii) (rest : buffer) :
  0 < i < SIZE_MODULUS ->
  store (replicate (Z.to_nat i) None ++ rest) (wrap_size_t (i - 1)) c
  = Some (replicate (Z.to_nat (i - 1)) None ++ Some c :: rest).
Proof.
  intros Hi. rewrite wrap_size_t_small by lia. unfold store.
  rewrite length_app, length_replicate.
  destruct (Z.leb_spec 0 (i - 1)); [|lia].
  destruct (Z.ltb_spec (i - 1) (Z.of_nat (Z.to_nat i + List.length rest))); [|lia].
  simpl. f_equal.
  replace (Z.to_nat i) with (Z.to_nat (i - 1) + 1)%nat by lia.
  rewrite replicate_add. simpl. rewrite <- app_assoc. simpl.

  rewrite insert_app_r_alt by (rewrite length_replicate; lia).
  rewrite length_replicate, Nat.sub_diag. reflexivity.
Qed.

Lemma cells_app (s1 s2 : string) : cells (s1 +:+ s2) = cells s1 ++ cells s2.
Proof. induction s1; simpl; [done|]. by rewrite IHs1. Qed.

Lemma digit_char (d : Z) :
  0 <= d < 10 ->
  Z_of_char (char_of_Z (48 + d)) = 48 + d /\ isdigit (char_of_Z (48 + d)) = true.
Proof.
  intros Hd.
  assert (d = 0 \/ d = 1 \/ d = 2 \/ d = 3 \/ d = 4 \/ d = 5 \/ d = 6 \/ d = 7
          \/ d = 8 \/ d = 9) as H by lia.
  repeat (destruct H as [-> | H]; [split; reflexivity|]). subst; split; reflexivity.
Qed.

(** The loop writes the low digits of [l] downwards from [index] and leaves
    the leading digit in [l]. *)
Lemma digit_loop_spec (l : Z) :
  0 <= l ->
  forall (index : Z) (acc : string) (rest : buffer),
    count_loop l 0 < index < SIZE_MODULUS ->
    exists lf acc',
      digit_loop l index (replicate (Z.to_nat index) None ++ cells acc ++ rest)
      = Some (lf, index - count_loop l 0,
              replicate (Z.to_nat (index - count_loop l 0)) None ++ cells acc' ++ rest)
      /\ 0 <= lf < 10
      /\ String (char_of_Z (48 + lf)) acc' = digits_loop l acc.
Proof.
  intros Hl. pattern l. apply quot_10_ind; [| |exact Hl]; clear l Hl.
  - intros l Hl index acc rest Hi.
    rewrite digit_loop_eq, digits_loop_eq, count_loop_eq.
    destruct (Z.leb_spec 10 l); [lia|].
    exists l, acc. rewrite Z.sub_0_r. auto.
  - intros l Hl IH index acc rest Hi.
    assert (Hge : (10 <=? l) = true) by (apply Z.leb_le; lia).
    assert (0 <= Z.quot l 10) by (apply Z.quot_pos; lia).
    pose proof (count_loop_bounds (Z.quot l 10) ltac:(assumption)).
    assert (Hc : count_loop l 0 = 1 + count_loop (Z.quot l 10) 0).
    { rewrite (count_loop_eq l), Hge. by rewrite count_loop_shift. }
    rewrite digit_loop_eq, digits_loop_eq, Hge, Hc in *.
    rewrite store_front by lia.
    rewrite wrap_size_t_small by lia.
    destruct (IH (index - 1) (String (char_of_Z (48 + Z.rem l 10)) acc) rest)
      as (lf & acc' & Hloop & Hlf & Hdig); [lia|].
    simpl cells in Hloop.
    change (replicate (Z.to_nat (index - 1)) None ++
            Some (char_of_Z (48 + Z.rem l 10)) :: cells acc ++ rest)
      with (replicate (Z.to_nat (index - 1)) (@None ascii) ++
            (Some (char_of_Z (48 + Z.rem l 10)) :: cells acc) ++ rest).
    rewrite Hloop.
    exists lf, acc'. split; [|split; assumption].
    by replace (index - 1 - count_loop (Z.quot l 10) 0)
      with (index - (1 + count_loop (Z.quot l 10) 0)) by lia.
Qed.

Lemma c_string_cells (s : string) (rest : buffer) :
  (forall c, In c (list_ascii_of_string s) -> c <> zero) ->
  c_string (cells s ++ Some zero :: rest) = Some s.
Proof.
  induction s as [|c s IH]; intros Hs; simpl.
  - reflexivity.
  - destruct (Ascii.eqb_spec c zero) as [->|_].
    + exfalso. apply (Hs zero); [simpl; auto | reflexivity].
    + rewrite IH; [reflexivity|]. intros c' Hc'. apply Hs. simpl; auto.
Qed.

Lemma all_digits_In (s : string) :
  all_digits s = true -> forall c, In c (list_ascii_of_string s) -> isdigit c = true.
Proof.
  induction s as [|c s IH]; simpl; [tauto|].
  intros [Hc Hs]%andb_prop c' [<-|Hin]; auto.
Qed.

Lemma digits_loop_all_digits (l : Z) :
  0 <= l -> forall acc, all_digits acc = true -> all_digits (digits_loop l acc) = true.
Proof.
  intros Hl. pattern l. apply quot_10_ind; [| |exact Hl]; clear l Hl.
  - intros l Hl acc Hacc. rewrite digits_loop_eq.
    destruct (Z.leb_spec 10 l); [lia|]. simpl.
    rewrite (proj2 (digit_char l Hl)). exact Hacc.
  - intros l Hl IH acc Hacc. rewrite digits_loop_eq.
    destruct (Z.leb_spec 10 l); [|lia].
    apply IH. simpl.
    assert (0 <= Z.rem l 10 < 10) by (apply Z.rem_bound_pos; lia).
    rewrite (proj2 (digit_char _ ltac:(eassumption))). exact Hacc.
Qed.

Lemma digits_loop_value (l : Z) :
  0 <= l -> forall acc, digits_value 0 (digits_loop l acc) = digits_value l acc.
Proof.
  intros Hl. pattern l. apply quot_10_ind; [| |exact Hl]; clear l Hl.
  - intros l Hl acc. rewrite digits_loop_eq.
    destruct (Z.leb_spec 10 l); [lia|]. simpl.
    rewrite (proj1 (digit_char l Hl)). f_equal. lia.
  - intros l Hl IH acc. rewrite digits_loop_eq.
    destruct (Z.leb_spec 10 l); [|lia].
    rewrite IH. simpl.
    assert (0 <= Z.rem l 10 < 10) by (apply Z.rem_bound_pos; lia).
    rewrite (proj1 (digit_char _ ltac:(eassumption))). f_equal.
    pose proof (Z.quot_rem' l 10). lia.
Qed.

(** The numeral starts with a digit, which is 0 only for the number 0. *)
Lemma digits_loop_head (l : Z) :
  0 <= l -> forall acc,
    exists c s, digits_loop l acc = String c s
                /\ (c = "0"%char -> l = 0 /\ s = acc).
Proof.
  intros Hl. pattern l. apply quot_10_ind; [| |exact Hl]; clear l Hl.
  - intros l Hl acc. rewrite digits_loop_eq.
    destruct (Z.leb_spec 10 l); [lia|].
    eexists _, _. split; [reflexivity|]. intros Hc. split; [|reflexivity].
    pose proof (proj1 (digit_char l Hl)) as Hz. rewrite Hc in Hz.
    change (Z_of_char "0") with 48 in Hz. lia.
  - intros l Hl IH acc. rewrite digits_loop_eq.
    destruct (Z.leb_spec 10 l); [|lia].
    destruct (IH (String (char_of_Z (48 + Z.rem l 10)) acc)) as (c & s & -> & Hc).
    exists c, s. split; [reflexivity|]. intros Hc0.
    destruct (Hc Hc0) as [Hq _].
    pose proof (Z.quot_rem' l 10).
    assert (0 <= Z.rem l 10 < 10) by (apply Z.rem_bound_pos; lia). lia.
Qed.

Lemma digits_loop_canonical (l : Z) :
  0 <= l -> canonical_digits (digits_loop l EmptyString) = true.
Proof.
  intros Hl.
  pose proof (digits_loop_all_digits l Hl EmptyString eq_refl) as Hall.
  destruct (digits_loop_head l Hl EmptyString) as (c & s & Heq & Hc).
  rewrite Heq in *. unfold canonical_digits. rewrite Hall. simpl.
  destruct (Ascii.eqb_spec c "0"%char) as [Hc0|_]; [|reflexivity].
  destruct (Hc Hc0) as [_ ->]. reflexivity.
Qed.

Lemma read_digits_all (s : string) :
  all_digits s = true ->
  forall acc n, read_digits acc n s = (digits_value acc s, (n + String.length s)%nat, EmptyString).
Proof.
  induction s as [|c s IH]; simpl; intros Hs acc n.
  - by rewrite Nat.add_0_r.
  - apply andb_prop in Hs as [Hc Hs]. rewrite Hc, IH by exact Hs.
    by rewrite Nat.add_succ_r.
Qed.

Lemma wrap_long_small (z : Z) : LONG_MIN <= z <= LONG_MAX -> wrap_long z = z.
Proof.
  unfold wrap_long, LONG_MIN, LONG_MAX. intros H.
  rewrite Z.mod_small; lia.
Qed.

Lemma no_nul_of_digits (s : string) :
  all_digits s = true -> forall c, In c (list_ascii_of_string s) -> c <> zero.
Proof.
  intros Hs c Hc ->. by pose proof (all_digits_In s Hs _ Hc).
Qed.

(** The block after the digits of [l >= 0] were written below [index]. *)
Lemma write_digits (l index : Z) (rest : buffer) :
  0 <= l -> count_loop l 0 < index < SIZE_MODULUS ->
  (p ← digit_loop l index (replicate (Z.to_nat index) None ++ rest);
   let '(l', index', str) := p in
   str' ← store str (wrap_size_t (index' - 1)) (char_of_Z (48 + l'));
   Some (wrap_size_t (index' - 1), str'))
  = Some (index - count_loop l 0 - 1,
          replicate (Z.to_nat (index - count_loop l 0 - 1)) None
            ++ cells (digits_loop l EmptyString) ++ rest).
Proof.
  intros Hl Hi.
  destruct (digit_loop_spec l Hl index EmptyString rest Hi)
    as (lf & acc' & Hloop & Hlf & Hdig).
  change (cells EmptyString ++ rest) with rest in Hloop. rewrite Hloop. simpl.
  pose proof (count_loop_bounds l Hl).
  rewrite store_front by lia. simpl.
  rewrite wrap_size_t_small by lia.
  rewrite <- Hdig. reflexivity.
Qed.

Lemma long_to_string_decimal (n : Z) :
  LONG_MIN < n <= LONG_MAX -> long_to_string n = Some (decimal n).
Proof.
  intros Hn. unfold long_to_string, calculate_string_size, decimal.
  set (l := if n <? 0 then wrap_long (-1 * n) else n).
  assert (Hl : l = Z.abs n /\ 0 <= l <= LONG_MAX).
  { subst l. unfold LONG_MIN, LONG_MAX in *. destruct (Z.ltb_spec n 0).
    - rewrite wrap_long_small by (unfold LONG_MIN, LONG_MAX; lia). lia.
    - lia. }
  destruct Hl as [Hlabs Hl].
  pose proof (count_loop_bounds l ltac:(lia)) as Hc.
  assert (HM : LONG_MAX < SIZE_MODULUS - 4) by (vm_compute; reflexivity).
  set (neg := if n <? 0 then 1 else 0).
  assert (Hsize : (let '(size, l0) :=
                     if n <? 0 then (0 + 1, wrap_long (-1 * n)) else (0, n) in
                   count_loop l0 size + 1) = neg + count_loop l 0 + 1).
  { subst l neg. destruct (n <? 0).
    - rewrite count_loop_shift; [lia|].
      destruct (Z.ltb_spec n 0); lia.
    - lia. }
  rewrite Hsize. clear Hsize.
  set (c := count_loop l 0) in *.
  unfold malloc_bytes.
  replace (Z.to_nat (neg + c + 1 + 1 + 1))
    with (Z.to_nat (neg + c + 1 + 1) + 1)%nat by (subst neg; destruct (n <? 0); lia).
  rewrite replicate_add. simpl replicate at 2.
  assert (Hneg : 0 <= neg <= 1) by (subst neg; destruct (n <? 0); lia).
  rewrite store_front by lia. simpl.
  rewrite wrap_size_t_small by lia.
  replace (neg + c + 1 + 1 - 1) with (neg + c + 1) by lia.
  pose proof (write_digits l (neg + c + 1) [Some zero; None] ltac:(lia) ltac:(fold c; lia)) as Hw.
  fold c in Hw.
  destruct (digit_loop l (neg + c + 1) _) as [[[l' index'] str]|]; [|discriminate Hw].
  simpl in Hw |- *.
  destruct (store str _ _) as [str'|]; [|discriminate Hw].
  simpl in Hw |- *. injection Hw as Hidx Hstr.
  replace (neg + c + 1 - c - 1) with neg in * by lia.
  pose proof (digits_loop_all_digits l ltac:(lia) EmptyString eq_refl) as Hall.
  subst neg. destruct (Z.ltb_spec n 0).
  - rewrite Hidx, Hstr.
    rewrite (store_front 1) by (split; [lia | vm_compute; reflexivity]).
    simpl.
    replace (- n) with l by lia.
    apply (c_string_cells (String "-" (digits_loop l EmptyString)) [None]).
    intros ch [<-|Hin]; [discriminate|]. by eapply no_nul_of_digits.
  - rewrite Hstr. simpl.
    replace n with l at 2 by lia.
    apply (c_string_cells (digits_loop l EmptyString) [None]).
    by apply no_nul_of_digits.
Qed.

Lemma decimal_repr_decimal (n : Z) : decimal_repr (decimal n) n.
Proof.
  unfold decimal_repr, decimal.
  destruct (Z.ltb_spec n 0).
  - exists (digits_loop (- n) EmptyString). split; [reflexivity|].
    split; [apply digits_loop_canonical; lia|].
    rewrite digits_loop_value by lia. simpl. lia.
  - exists (digits_loop n EmptyString). split; [reflexivity|].
    split; [apply digits_loop_canonical; lia|].
    rewrite digits_loop_value by lia. simpl. lia.
Qed.

Lemma digit_not_sign_or_space (c : ascii) :
  isdigit c = true ->
  isspace c = false /\ c <> "-"%char /\ c <> "+"%char.
Proof.
  destruct c as [[] [] [] [] [] [] [] []]; vm_compute; intuition discriminate.
Qed.

Lemma strtol_decimal (n : Z) :
  LONG_MIN <= n <= LONG_MAX ->
  strtol (decimal n) = mk_strtol n true EmptyString false.
Proof.
  intros Hn. unfold decimal.
  destruct (Z.ltb_spec n 0) as [Hneg|Hpos].
  - pose proof (digits_loop_all_digits (- n) ltac:(lia) EmptyString eq_refl) as Hall.
    pose proof (digits_loop_value (- n) ltac:(lia) EmptyString) as Hval.
    destruct (digits_loop_head (- n) ltac:(lia) EmptyString) as (c & s & Heq & _).
    unfold strtol. cbn [skip_space]. change (isspace "-") with false. cbv iota zeta.
    rewrite read_digits_all by exact Hall. rewrite Hval. cbn [digits_value].
    rewrite Heq. cbn [String.length Nat.add].
    rewrite Z.opp_involutive.
    destruct (Z.gtb_spec n LONG_MAX); [lia|].
    destruct (Z.ltb_spec n LONG_MIN); [lia|]. reflexivity.
  - pose proof (digits_loop_all_digits n Hpos EmptyString eq_refl) as Hall.
    pose proof (digits_loop_value n Hpos EmptyString) as Hval.
    destruct (digits_loop_head n Hpos EmptyString) as (c & s & Heq & _).
    unfold strtol. rewrite Heq in *.
    simpl in Hall. apply andb_prop in Hall as [Hc Hs].
    destruct (digit_not_sign_or_space c Hc) as (Hsp & Hm & Hp).
    cbn [skip_space]. rewrite Hsp. cbv zeta.
    assert (Hbody : match String c s with
                    | String "-" s' => (true, s')
                    | String "+" s' => (false, s')
                    | _ => (false, String c s)
                    end = (false, String c s)).
    { clear -Hm Hp.
      destruct c as [[] [] [] [] [] [] [] []]; try reflexivity; congruence. }
    rewrite Hbody.
    rewrite read_digits_all by (simpl; by rewrite Hc, Hs).
    rewrite Hval. cbn [digits_value String.length Nat.add].
    destruct (Z.gtb_spec n LONG_MAX); [lia|].
    destruct (Z.ltb_spec n LONG_MIN); [lia|]. reflexivity.
Qed.

End LongToStringFacts.

(** C9: for every [long] above [LONG_MIN], [long_to_string] returns the
    decimal representation of the number (the digits of its absolute value
    without leading zeros, after a minus sign exactly when it is negative),
    and reading that string back with [strtol] gives the number. *)
Theorem C9_long_to_string_decimal (n : Z) :
  LONG_MIN < n <= LONG_MAX ->
  exists s, long_to_string n = Some s
            /\ decimal_repr s n
            /\ strtol s = mk_strtol n true EmptyString false.
Proof.
  intros Hn. exists (decimal n). split; [|split].
  - by apply long_to_string_decimal.
  - apply decimal_repr_decimal.
  - apply strtol_decimal. lia.
Qed.

Lemma C9_long_to_string_decimal_witness :
  LONG_MIN < -1203 <= LONG_MAX
  /\ exists s, long_to_string (-1203) = Some s
               /\ decimal_repr s (-1203)
               /\ strtol s = mk_strtol (-1203) true EmptyString false.
Proof.
  assert (H : LONG_MIN < -1203 <= LONG_MAX) by (vm_compute; split; [reflexivity | discriminate]).
  split; [exact H | exact (C9_long_to_string_decimal (-1203) H)].
Defined.


(** ** The linked list *)

Section CmListFacts.
Import CmList.

Implicit Types (h : heap) (nodes xs : list Z) (p n d : Z).

Lemma chain_lengths h p nodes xs :
  chain h p nodes xs -> List.length nodes = List.length xs.
Proof.
  revert p xs. induction nodes as [|n nodes IH]; intros p [|x xs]; simpl; try tauto.
  intros (_ & _ & nx & _ & Hc). f_equal. eauto.
Qed.

Lemma chain_allocated h p nodes xs :
  chain h p nodes xs -> forall n, n ∈ nodes -> is_Some (h !! n).
Proof.
  revert p xs. induction nodes as [|n nodes IH]; intros p [|x xs]; simpl; try tauto.
  - intros _ n Hn. by apply elem_of_nil in Hn.
  - intros (-> & _ & nx & Hn & Hc) m [->|Hm]%elem_of_cons; eauto.
Qed.

(** Two chains from the same pointer are the same chain. *)
Lemma chain_functional h p nodes1 xs1 nodes2 xs2 :
  chain h p nodes1 xs1 -> chain h p nodes2 xs2 -> nodes1 = nodes2.
Proof.
  revert p xs1 nodes2 xs2.
  induction nodes1 as [|n nodes1 IH]; intros p [|x xs1] [|m nodes2] [|y xs2];
    simpl; try tauto.
  - intros -> (-> & Hm & _). done.
  - intros (-> & Hn & _) Hp. done.
  - intros (-> & _ & nx & Hn & Hc) (<- & _ & ny & Hm & Hc').
    rewrite Hn in Hm. injection Hm as <- <-. f_equal. eauto.
Qed.

Lemma chain_from_member h p nodes xs n :
  chain h p nodes xs -> n ∈ nodes ->
  exists pre post xs', nodes = pre ++ n :: post /\ chain h n (n :: post) xs'.
Proof.
  revert p xs. induction nodes as [|m nodes IH]; intros p [|x xs]; simpl; try tauto.
  - intros _ Hn. by apply elem_of_nil in Hn.
  - intros (-> & Hm0 & nx & Hm & Hc) [->|Hn]%elem_of_cons.
    + exists [], nodes, (x :: xs). simpl. eauto 10.
    + destruct (IH _ _ Hc Hn) as (pre & post & xs' & -> & Hc').
      exists (m :: pre), post, xs'. eauto.
Qed.

(** A chain that reaches [NULL] visits no node twice. *)
Lemma chain_NoDup h p nodes xs : chain h p nodes xs -> NoDup nodes.
Proof.
  revert p xs. induction nodes as [|n nodes IH]; intros p [|x xs]; simpl; try tauto.
  - intros _. constructor.
  - intros (-> & Hn0 & nx & Hn & Hc). constructor; [|eauto].
    intros Hin.
    destruct (chain_from_member _ _ _ _ _ Hc Hin) as (pre & post & xs' & Heq & Hc').
    assert (Hc2 : chain h n (n :: nodes) (x :: xs)) by (simpl; eauto 10).
    pose proof (chain_functional _ _ _ _ _ _ Hc' Hc2) as Hsame.
    injection Hsame as ->. apply (f_equal List.length) in Heq.
    rewrite length_app in Heq. simpl in Heq. lia.
Qed.

(** Writing a node that the chain does not visit leaves the chain alone. *)
Lemma chain_insert_other h p nodes xs a v :
  chain h p nodes xs -> a ∉ nodes -> chain (<[a := v]> h) p nodes xs.
Proof.
  revert p xs. induction nodes as [|n nodes IH]; intros p [|x xs]; simpl; try tauto.
  intros (-> & Hn0 & nx & Hn & Hc) Ha.
  apply not_elem_of_cons in Ha as [Han Ha].
  split; [done|]. split; [done|]. exists nx. split; [|eauto].
  by rewrite lookup_insert_ne.
Qed.

(** Linking a fresh node behind the last node of a chain. *)
Lemma chain_snoc h p nodes xs t node d :
  chain h p nodes xs -> last nodes = Some t ->
  node <> NULL -> h !! node = None ->
  exists x, h !! t = Some {| data := x; next := NULL |} /\
    chain (<[t := {| data := x; next := node |}]>
             (<[node := {| data := d; next := NULL |}]> h))
          p (nodes ++ [node]) (xs ++ [d]).
Proof.
  intros Hc Hlast Hnode Hfresh.
  pose proof (chain_NoDup _ _ _ _ Hc) as Hnd.
  assert (Hnt : node <> t).
  { intros ->. apply last_Some in Hlast as [l' ->].
    destruct (chain_allocated _ _ _ _ Hc t) as [v Hv]; [set_solver|]. congruence. }
  revert p xs Hc Hlast Hnd.
  induction nodes as [|n nodes IH]; intros p [|x xs]; simpl; try tauto; try done.
  intros (-> & Hn0 & nx & Hn & Hc) Hlast Hnd.
  apply NoDup_cons in Hnd as [Hnin Hnd].
  destruct nodes as [|n' nodes'].
  - simpl in Hlast. injection Hlast as ->.
    destruct xs; simpl in Hc; [|tauto]. subst nx.
    exists x. split; [done|]. simpl.
    split; [done|]. split; [done|]. exists node.
    rewrite lookup_insert_eq. split; [done|].
    split; [done|]. split; [done|]. exists NULL.
    rewrite lookup_insert_ne by done. rewrite lookup_insert_eq. done.
  - assert (Hlast' : last (n' :: nodes') = Some t) by exact Hlast.
    destruct (IH _ _ Hc Hlast' Hnd) as (x' & Ht & Hc').
    exists x'. split; [done|].
    split; [done|]. split; [done|]. exists nx. split; [|exact Hc'].
    assert (n <> t).
    { intros ->. apply Hnin. apply last_Some in Hlast' as [l' ->]. set_solver. }
    assert (n <> node) by (intros ->; congruence).
    by rewrite !lookup_insert_ne.
Qed.

(** At most [2^64 - 1] distinct valid addresses exist. *)
Lemma valid_addrs_bounded nodes :
  NoDup nodes -> Forall valid_addr nodes ->
  Z.of_nat (List.length nodes) <= SIZE_MODULUS - 1.
Proof.
  intros Hnd Hvalid.
  assert (Hsub : nodes ⊆+ seqZ 1 (SIZE_MODULUS - 1)).
  { apply NoDup_submseteq; [done|]. intros a Ha.
    rewrite Forall_forall in Hvalid. apply Hvalid in Ha.
    apply elem_of_seqZ. unfold valid_addr in Ha. lia. }
  apply submseteq_length in Hsub. rewrite length_seqZ in Hsub.
  assert (0 <= SIZE_MODULUS - 1) by (vm_compute; discriminate). lia.
Qed.

Lemma traverse_chain h p nodes xs (bound : nat) :
  chain h p nodes xs -> (List.length nodes <= bound)%nat ->
  traverse bound h p = Some xs.
Proof.
  revert p xs bound.
  induction nodes as [|n nodes IH]; intros p [|x xs] bound; simpl; try tauto.
  - intros -> _. by destruct bound.
  - intros (-> & Hn0 & nx & Hn & Hc) Hb.
    destruct bound as [|bound]; [lia|]. simpl.
    destruct (Z.eqb_spec n NULL); [done|].
    rewrite Hn. simpl. rewrite (IH _ _ _ Hc) by lia. done.
Qed.

Lemma is_list_init h : is_list h cm_list_init [].
Proof. exists []. simpl. repeat split; constructor. Qed.

Lemma cm_list_add_spec h (l : cm_list) xs d node :
  is_list h l xs -> valid_addr node -> h !! node = None ->
  exists h' l',
    cm_list_add h l d node = Some (h', l', 1)
    /\ is_list h' l' (xs ++ [d])
    /\ length l' = length l + 1
    /\ tail l' = node
    /\ h' !! node = Some {| data := d; next := NULL |}.
Proof.
  intros (nodes & Hc & Htail & Hlen & Hvalid) Hnode Hfresh.
  assert (Hnode0 : node <> NULL) by (unfold valid_addr, NULL in *; lia).
  pose proof (chain_NoDup _ _ _ _ Hc) as Hnd.
  pose proof (chain_lengths _ _ _ _ Hc) as Hlens.
  assert (Hnotin : node ∉ nodes).
  { intros Hin. destruct (chain_allocated _ _ _ _ Hc _ Hin) as [v Hv]. congruence. }
  assert (Hroom : length l + 1 < SIZE_MODULUS).
  { pose proof (valid_addrs_bounded (node :: nodes)) as Hb.
    simpl in Hb. rewrite Hlen, <- Hlens.
    assert (NoDup (node :: nodes)) by (by constructor).
    assert (Forall valid_addr (node :: nodes)) by (by constructor).
    specialize (Hb ltac:(assumption) ltac:(assumption)). lia. }
  assert (Hwrap : wrap_size_t (length l + 1) = length l + 1)
    by (apply wrap_size_t_small; lia).
  unfold cm_list_add.
  destruct (Z.eqb_spec node NULL) as [|_]; [done|]. simpl.
  rewrite Hwrap.
  destruct nodes as [|n nodes].
  - destruct xs; simpl in Hc; [|tauto]. rewrite Hc. simpl.
    eexists _, _. split; [reflexivity|]. simpl.
    split; [|by rewrite lookup_insert_eq].
    exists [node]. simpl in *. rewrite lookup_insert_eq.
    repeat split; eauto; try lia.
  - assert (Hlast : exists t, last (n :: nodes) = Some t).
    { destruct (last (n :: nodes)) eqn:E; [eauto|].
      by apply last_None in E. }
    destruct Hlast as [t Hlast].
    destruct (chain_snoc _ _ _ _ t node d Hc Hlast Hnode0 Hfresh) as (x & Ht & Hc').
    rewrite Hlast in Htail. simpl in Htail.
    destruct xs as [|x0 xs]; simpl in Hc; [tauto|].
    destruct Hc as (Hhead & Hn0 & _).
    rewrite Hhead. destruct (Z.eqb_spec n NULL) as [|_]; [done|].
    assert (Hnt : node <> t) by (intros ->; congruence).
    rewrite Htail, lookup_insert_ne, Ht by done. simpl.
    eexists _, _. split; [reflexivity|]. simpl.
    split; [|by rewrite lookup_insert_ne, lookup_insert_eq].
    exists ((n :: nodes) ++ [node]). rewrite Hhead in Hc'.
    split; [exact Hc'|]. split.
    + by rewrite last_snoc.
    + split.
      * simpl in *. rewrite length_app. simpl. lia.
      * apply Forall_app. split; [done|]. by constructor.
Qed.

End CmListFacts.

(** C10: a successful [cm_list_add] (its [malloc] returned a fresh node) on a
    list that holds [xs] returns 1, increments the length by exactly one,
    makes the new node the tail with a null [next] pointer and leaves a list
    that holds [xs ++ [d]]: the earlier data pointers in their order, then
    the new one.  Holding its elements in insertion order is thus an
    invariant, which the empty list of [cm_list_init] starts. *)
Theorem C10_cm_list_add_appends (h : gmap Z CmList.cm_list_node)
    (l : CmList.cm_list) (xs : list Z) (d node : Z) :
  CmList.is_list h l xs -> CmList.valid_addr node -> h !! node = None ->
  CmList.is_list h CmList.cm_list_init []
  /\ exists h' l',
       CmList.cm_list_add h l d node = Some (h', l', 1)
       /\ CmList.is_list h' l' (xs ++ [d])
       /\ CmList.length l' = CmList.length l + 1
       /\ CmList.tail l' = node
       /\ h' !! node = Some {| CmList.data := d; CmList.next := CmList.NULL |}
       /\ CmList.traverse (S (List.length xs)) h' (CmList.head l') = Some (xs ++ [d]).
Proof.
  intros Hl Hnode Hfresh. split; [apply is_list_init|].
  destruct (cm_list_add_spec h l xs d node Hl Hnode Hfresh)
    as (h' & l' & Hadd & Hl' & Hlen & Htail & Hnew).
  exists h', l'. repeat (split; [assumption|]).
  destruct Hl' as (nodes & Hc & _).
  apply (traverse_chain h' _ nodes); [exact Hc|].
  apply chain_lengths in Hc. rewrite Hc, length_app. simpl. lia.
Qed.

Lemma C10_cm_list_add_appends_witness :
  let h : gmap Z CmList.cm_list_node := {[ 16 := CmList.mk_node 7 0 ]} in
  let l := CmList.mk_list 16 16 1 in
  CmList.is_list h l [7] /\ CmList.valid_addr 32 /\ h !! 32 = None
  /\ exists h' l',
       CmList.cm_list_add h l 9 32 = Some (h', l', 1)
       /\ CmList.is_list h' l' ([7] ++ [9])
       /\ CmList.length l' = CmList.length l + 1
       /\ CmList.tail l' = 32
       /\ h' !! 32 = Some {| CmList.data := 9; CmList.next := CmList.NULL |}
       /\ CmList.traverse 2 h' (CmList.head l') = Some ([7] ++ [9]).
Proof.
  intros h l.
  assert (H1 : CmList.is_list h l [7]).
  { exists [16]. simpl. split; [|split; [reflexivity|split; [reflexivity|]]].
    - split; [reflexivity|]. split; [discriminate|].
      exists 0. split; reflexivity.
    - constructor; [|constructor]. vm_compute. split; reflexivity. }
  assert (H2 : CmList.valid_addr 32) by (vm_compute; split; reflexivity).
  assert (H3 : h !! 32 = None) by reflexivity.
  split; [exact H1|]. split; [exact H2|]. split; [exact H3|].
  exact (proj2 (C10_cm_list_add_appends h l [7] 9 32 H1 H2 H3)).
Defined.

(** ** The hash table *)

Section HashTableFacts.
Import HashTable.
Context {K V : Type}.
Implicit Types (t : cm_hash_table K V) (k : K) (v : option V).

Lemma slot_index_in_range t k :
  table_ok t -> exists i, slot_index t k = Some i /\ (i < List.length (table t))%nat.
Proof.
  intros [Hsize Hlen]. unfold slot_index.
  destruct (Z.eqb_spec (table_size t) 0); [lia|].
  eexists. split; [reflexivity|].
  pose proof (Z.mod_pos_bound (wrap_size_t (hash_func t k)) (table_size t) Hsize).
  rewrite Hlen. lia.
Qed.

Lemma find_entry_app cmp (l1 l2 : list (cm_hash_entry K V)) k :
  find_entry cmp (l1 ++ l2) k =
  if existsb (fun e => cmp (key e) k) l1 then find_entry cmp l1 k
  else find_entry cmp l2 k.
Proof.
  induction l1 as [|e l1 IH]; simpl; [done|].
  destruct (cmp (key e) k); simpl; [done|]. exact IH.
Qed.

Lemma unbound_bucket t k i :
  unbound t k -> slot_index t k = Some i ->
  existsb (fun e => keycmp t (key e) k) (bucket t i) = false.
Proof.
  intros Hun Hi. unfold bucket.
  destruct (table t !! i) as [[l|]|] eqn:Hslot; try reflexivity.
  apply not_true_is_false. intros (e & He & Hcmp)%existsb_exists.
  rewrite (Hun i l e Hi Hslot He) in Hcmp. discriminate.
Qed.

Lemma get_bucket t k i :
  table_ok t -> slot_index t k = Some i ->
  cm_hash_table_get t k = Some (find_entry (keycmp t) (bucket t i) k).
Proof.
  intros Hok Hi. unfold cm_hash_table_get, bucket. rewrite Hi. simpl.
  destruct (slot_index_in_range t k Hok) as (i' & Hi' & Hlt).
  assert (i' = i) as -> by congruence.
  destruct (lookup_lt_is_Some_2 (table t) i Hlt) as [slot Hslot].
  rewrite Hslot. simpl. by destruct slot.
Qed.

(** What [cm_hash_table_put] does to the table: the slot of the key gets
    the entry at its end, every other slot and field stays. *)
Lemma put_spec t k v i :
  table_ok t -> slot_index t k = Some i ->
  exists t',
    cm_hash_table_put t k v = Some t'
    /\ table_ok t'
    /\ hash_func t' = hash_func t /\ keycmp t' = keycmp t
    /\ table_size t' = table_size t
    /\ nkeys t' = wrap_size_t (nkeys t + 1)
    /\ bucket t' i = bucket t i ++ [{| key := k; value := v |}]
    /\ (forall j, j <> i -> bucket t' j = bucket t j).
Proof.
  intros Hok Hi. unfold cm_hash_table_put. rewrite Hi. simpl.
  destruct (slot_index_in_range t k Hok) as (i' & Hi' & Hlt).
  assert (i' = i) as -> by congruence.
  destruct (lookup_lt_is_Some_2 (table t) i Hlt) as [slot Hslot].
  rewrite Hslot. simpl.
  destruct Hok as [Hsize Hlen].
  destruct slot as [l|]; eexists; (split; [reflexivity|]); simpl;
    unfold table_ok, bucket; simpl; rewrite ?length_insert;
    (split; [done|]); repeat (split; [reflexivity|]); split.
  - rewrite list_lookup_insert_eq by done. by rewrite Hslot.
  - intros j Hj. by rewrite list_lookup_insert_ne.
  - rewrite list_lookup_insert_eq by (by rewrite length_insert).
    by rewrite Hslot.
  - intros j Hj. by rewrite !list_lookup_insert_ne.
Qed.

Lemma slot_index_same t t' k :
  hash_func t' = hash_func t -> table_size t' = table_size t ->
  slot_index t' k = slot_index t k.
Proof. intros H1 H2. unfold slot_index. by rewrite H1, H2. Qed.


(** After two puts, the slot of [k] starts with its old entries and the
    first new entry. *)
Lemma put_put_get t k k2 v1 v2 :
  table_ok t ->
  exists t1 t2 i rest,
    cm_hash_table_put t k v1 = Some t1
    /\ cm_hash_table_put t1 k2 v2 = Some t2
    /\ slot_index t k = Some i
    /\ nkeys t2 = wrap_size_t (wrap_size_t (nkeys t + 1) + 1)
    /\ cm_hash_table_get t k = Some (find_entry (keycmp t) (bucket t i) k)
    /\ cm_hash_table_get t2 k
       = Some (find_entry (keycmp t)
                 (bucket t i ++ {| key := k; value := v1 |} :: rest) k).
Proof.
  intros Hok.
  destruct (slot_index_in_range t k Hok) as (i & Hi & _).
  destruct (put_spec t k v1 i Hok Hi)
    as (t1 & Hput1 & Hok1 & Hh1 & Hc1 & Hs1 & Hn1 & Hb1 & Hother1).
  destruct (slot_index_in_range t1 k2 Hok1) as (j & Hj & _).
  destruct (put_spec t1 k2 v2 j Hok1 Hj)
    as (t2 & Hput2 & Hok2 & Hh2 & Hc2 & Hs2 & Hn2 & Hb2 & Hother2).
  assert (Hi2 : slot_index t2 k = Some i).
  { rewrite (slot_index_same t1 t2) by done.
    by rewrite (slot_index_same t t1). }
  exists t1, t2, i, (if decide (j = i) then [{| key := k2; value := v2 |}] else []).
  split; [done|]. split; [done|]. split; [done|].
  split; [by rewrite Hn2, Hn1|].
  split; [by apply get_bucket|].
  rewrite (get_bucket t2 k i Hok2 Hi2), Hc2, Hc1. do 2 f_equal.
  destruct (decide (j = i)) as [->|Hne].
  - by rewrite Hb2, Hb1, <- app_assoc.
  - by rewrite (Hother2 i) by done; rewrite Hb1.
Qed.

End HashTableFacts.

(** C2, as stated, fails: a table of string keys that binds ["x"] to a
    first value and then to a second one still answers the first. *)
Lemma C2_second_put_is_shadowed :
  (t1 ← HashTable.cm_hash_table_put
          (HashTable.cm_hash_table_init 16 HashTable.string_hash_function
             HashTable.string_keycmp) "x" (Some 1);
   t2 ← HashTable.cm_hash_table_put t1 "x" (Some 2);
   HashTable.cm_hash_table_get t2 "x") = Some (Some 1)
  /\ HashTable.string_keycmp "x" "x" = true
  /\ Some (Some 1) <> Some (Some 2).
Proof. split; [vm_compute; reflexivity|]. split; [reflexivity | discriminate]. Qed.

(** C2, amended: [cm_hash_table_put] never replaces a binding.  It appends
    the entry to the chain of its slot (and counts it in [nkeys]), and
    [cm_hash_table_get] answers with the first entry of the chain whose key
    the comparator accepts.  So after [put(t, k, v1)] and [put(t, k2, v2)],
    whatever [k2] is (a key equal to [k] included), [get(t, k)] returns
    [v1] when the table had no entry for a key equal to [k], and still
    returns the older value when it had one. *)
Theorem C2_put_keeps_first_binding {K V : Type}
    (t : HashTable.cm_hash_table K V) (k k2 : K) (v1 v2 : option V) :
  HashTable.table_ok t -> HashTable.keycmp t k k = true ->
  exists t1 t2,
    HashTable.cm_hash_table_put t k v1 = Some t1
    /\ HashTable.cm_hash_table_put t1 k2 v2 = Some t2
    /\ HashTable.nkeys t2
       = wrap_size_t (wrap_size_t (HashTable.nkeys t + 1) + 1)
    /\ (HashTable.unbound t k -> HashTable.cm_hash_table_get t2 k = Some v1)
    /\ (forall w, HashTable.cm_hash_table_get t k = Some (Some w) ->
                  HashTable.cm_hash_table_get t2 k = Some (Some w)).
Proof.
  intros Hok Hrefl.
  destruct (put_put_get t k k2 v1 v2 Hok)
    as (t1 & t2 & i & rest & Hput1 & Hput2 & Hi & Hn & Hget & Hget2).
  exists t1, t2. split; [done|]. split; [done|]. split; [done|].
  rewrite Hget2, find_entry_app. split.
  - intros Hun. rewrite (unbound_bucket t k i Hun Hi). simpl. by rewrite Hrefl.
  - intros w Hw. rewrite Hget in Hw. injection Hw as Hw.
    destruct (existsb _ _) eqn:Hex; [by rewrite Hw|].
    exfalso. clear -Hw Hex.
    induction (HashTable.bucket t i) as [|e l IH]; simpl in *; [done|].
    destruct (HashTable.keycmp t (HashTable.key e) k); [done|]. auto.
Qed.

Lemma C2_put_keeps_first_binding_witness :
  let t := HashTable.cm_hash_table_init (V := Z) 16
             HashTable.string_hash_function HashTable.string_keycmp in
  HashTable.table_ok t /\ HashTable.keycmp t "x" "x" = true
  /\ HashTable.unbound t "x"
  /\ exists t1 t2,
       HashTable.cm_hash_table_put t "x" (Some 1) = Some t1
       /\ HashTable.cm_hash_table_put t1 "x" (Some 2) = Some t2
       /\ HashTable.cm_hash_table_get t2 "x" = Some (Some 1).
Proof.
  intros t.
  assert (H1 : HashTable.table_ok t) by (split; reflexivity).
  assert (H2 : HashTable.keycmp t "x" "x" = true) by reflexivity.
  assert (H3 : HashTable.unbound t "x").
  { intros index slot entry Hi Hslot _. vm_compute in Hi.
    injection Hi as <-. vm_compute in Hslot. discriminate Hslot. }
  split; [exact H1|]. split; [exact H2|]. split; [exact H3|].
  destruct (C2_put_keeps_first_binding t "x" "x" (Some 1) (Some 2) H1 H2)
    as (t1 & t2 & Hp1 & Hp2 & _ & Hget & _).
  exists t1, t2. split; [exact Hp1|]. split; [exact Hp2|]. exact (Hget H3).
Defined.

(** ** The parser: fuel *)

Section Monotone.

Lemma refines_refl {A : Type} (o : outcome A) : refines o o.
Proof. by intros _. Qed.

Lemma refines_bind {A B : Type} (m m' : outcome A)
    (k k' : A -> parser_t -> outcome B) :
  refines m m' -> (forall a p, refines (k a p) (k' a p)) ->
  refines (bind m k) (bind m' k').
Proof.
  intros Hm Hk. destruct m as [a p|p|]; simpl.
  - rewrite Hm by done. simpl. apply Hk.
  - rewrite Hm by done. by intros _.
  - by intros [].
Qed.

Lemma function_parameters_loop_mono fuel params p :
  refines (function_parameters_loop fuel params p)
          (function_parameters_loop (S fuel) params p).
Proof.
  revert params p. induction fuel as [|fuel IH]; intros params p; [by intros []|].
  change (function_parameters_loop (S (S fuel)) params p)
    with (if decide (type (peek_tok p) = COMMA)
          then function_parameters_loop (S fuel)
                 (params ++ [create_identifier (parser_next_token (parser_next_token p))])
                 (parser_next_token (parser_next_token p))
          else Returns params p).
  simpl. destruct (decide _); [apply IH | apply refines_refl].
Qed.

Lemma parse_function_parameters_mono fuel p :
  refines (parse_function_parameters fuel p) (parse_function_parameters (S fuel) p).
Proof.
  unfold parse_function_parameters. destruct (decide _); [apply refines_refl|].
  apply refines_bind; [apply function_parameters_loop_mono|].
  intros a q. apply refines_refl.
Qed.

Section Open.
Context (pe pe' : operator_precedence_t -> parser_t -> outcome (option expression_t))
        (pb pb' : parser_t -> outcome block_statement_t)
        (fuel : nat).
Context (Hpe : forall prec p, refines (pe prec p) (pe' prec p))
        (Hpb : forall p, refines (pb p) (pb' p)).

Ltac mono :=
  repeat first
    [ apply refines_refl
    | apply refines_bind; [first [apply Hpe | apply Hpb | apply parse_function_parameters_mono]|intros ? ?]
    | match goal with
      | |- refines (let '(_, _) := ?x in _) _ => destruct x as [? []]; simpl
      | |- refines (if ?b then _ else _) _ => destruct b
      | |- refines (match ?x with Some _ => _ | None => _ end) _ => destruct x
      end ].

Lemma parse_prefix_expression_mono p :
  refines (parse_prefix_expression pe p) (parse_prefix_expression pe' p).
Proof. unfold parse_prefix_expression. mono. Qed.

Lemma parse_infix_expression_mono lhs p :
  refines (parse_infix_expression pe lhs p) (parse_infix_expression pe' lhs p).
Proof. unfold parse_infix_expression. mono. Qed.

Lemma parse_grouped_expression_mono p :
  refines (parse_grouped_expression pe p) (parse_grouped_expression pe' p).
Proof. unfold parse_grouped_expression. mono. Qed.

Lemma parse_if_expression_mono p :
  refines (parse_if_expression pe pb p) (parse_if_expression pe' pb' p).
Proof. unfold parse_if_expression. mono. Qed.

Lemma parse_function_literal_mono p :
  refines (parse_function_literal pb fuel p) (parse_function_literal pb' (S fuel) p).
Proof. unfold parse_function_literal. mono. Qed.

Lemma parse_letstatement_mono p :
  refines (parse_letstatement pe p) (parse_letstatement pe' p).
Proof. unfold parse_letstatement. mono. Qed.

Lemma parse_return_statement_mono p :
  refines (parse_return_statement pe p) (parse_return_statement pe' p).
Proof. unfold parse_return_statement. mono. Qed.

Lemma parse_expression_statement_mono p :
  refines (parse_expression_statement pe p) (parse_expression_statement pe' p).
Proof. unfold parse_expression_statement. mono. Qed.

End Open.

(** The recursive functions, one call deep. *)
Lemma parse_expression_S fuel prec p :
  parse_expression (S fuel) prec p =
  match table_entry prefix_fns (type (cur_tok p)) with
  | None => Returns None (handle_no_prefix_fn p)
  | Some prefix_fn =>
      bind match prefix_fn with
           | parse_identifier_expression_fn => parse_identifier_expression p
           | parse_integer_expression_fn => parse_integer_expression p
           | parse_prefix_expression_fn =>
               parse_prefix_expression (parse_expression fuel) p
           | parse_grouped_expression_fn =>
               parse_grouped_expression (parse_expression fuel) p
           | parse_function_literal_fn =>
               parse_function_literal (parse_block_statement fuel) fuel p
           | parse_if_expression_fn =>
               parse_if_expression (parse_expression fuel)
                 (parse_block_statement fuel) p
           | parse_boolean_expression_fn => parse_boolean_expression p
           end (infix_loop fuel prec)
  end.
Proof. reflexivity. Qed.

Lemma infix_loop_S fuel prec left_exp p :
  infix_loop (S fuel) prec left_exp p =
  if decide (type (peek_tok p) = SEMICOLON) then Returns left_exp p
  else if precedence_value prec >=? precedence_value (peek_precedence p)
  then Returns left_exp p
  else
    match table_entry infix_fns (type (peek_tok p)) with
    | None => Returns left_exp p
    | Some infix_fn =>
        bind match infix_fn with
             | parse_infix_expression_fn =>
                 parse_infix_expression (parse_expression fuel) left_exp
                   (parser_next_token p)
             | parse_call_expression_fn =>
                 parse_call_expression fuel left_exp (parser_next_token p)
             end (infix_loop fuel prec)
    end.
Proof. reflexivity. Qed.

Lemma parse_call_expression_S fuel function p :
  parse_call_expression (S fuel) function p =
  bind (parse_call_arguments fuel p) (fun arguments parser =>
    match arguments with
    | None => Returns None parser
    | Some arguments =>
        Returns (Some (CallExpression (peek_tok p) function arguments)) parser
    end).
Proof. reflexivity. Qed.

Lemma parse_call_arguments_S fuel p :
  parse_call_arguments (S fuel) p =
  if decide (type (peek_tok p) = RPAREN) then
    Returns (Some []) (parser_next_token p)
  else
    bind (parse_expression fuel LOWEST (parser_next_token p)) (fun arg parser =>
    bind (call_arguments_loop fuel [arg] parser) (fun arguments parser =>
      let '(parser, ok) := expect_peek parser RPAREN in
      if ok then Returns (Some arguments) parser
      else if free_expression_list arguments then Returns None parser
      else Crash parser)).
Proof. reflexivity. Qed.

Lemma call_arguments_loop_S fuel arguments p :
  call_arguments_loop (S fuel) arguments p =
  if decide (type (peek_tok p) = COMMA) then
    bind (parse_expression fuel LOWEST (parser_next_token (parser_next_token p)))
      (fun arg parser => call_arguments_loop fuel (arguments ++ [arg]) parser)
  else Returns arguments p.
Proof. reflexivity. Qed.

Lemma parse_block_statement_S fuel p :
  parse_block_statement (S fuel) p =
  bind (block_statement_loop fuel [] (parser_next_token p)) (fun statements parser =>
    Returns (BlockStatement (cur_tok p) statements) parser).
Proof. reflexivity. Qed.

Lemma block_statement_loop_S fuel statements p :
  block_statement_loop (S fuel) statements p =
  if negb (bool_decide (type (cur_tok p) = RBRACE))
     && negb (bool_decide (type (cur_tok p) = END_OF_FILE))
  then
    bind (parser_parse_statement fuel p) (fun stmt parser =>
      block_statement_loop fuel
        match stmt with
        | Some s => statements ++ [s]
        | None => statements
        end (parser_next_token parser))
  else Returns statements p.
Proof. reflexivity. Qed.

Lemma parser_parse_statement_S fuel p :
  parser_parse_statement (S fuel) p =
  match type (cur_tok p) with
  | LET => parse_letstatement (parse_expression fuel) p
  | RETURN => parse_return_statement (parse_expression fuel) p
  | _ => parse_expression_statement (parse_expression fuel) p
  end.
Proof. reflexivity. Qed.

Lemma program_loop_S fuel statements p :
  program_loop (S fuel) statements p =
  if negb (bool_decide (type (cur_tok p) = END_OF_FILE)) then
    bind (parser_parse_statement fuel p) (fun stmt parser =>
      program_loop fuel
        match stmt with
        | Some s => statements ++ [s]
        | None => statements
        end (parser_next_token parser))
  else Returns statements p.
Proof. reflexivity. Qed.

(** One more unit of fuel changes no result. *)
Lemma fuel_step (fuel : nat) :
  (forall prec p, refines (parse_expression fuel prec p) (parse_expression (S fuel) prec p))
  /\ (forall prec l p, refines (infix_loop fuel prec l p) (infix_loop (S fuel) prec l p))
  /\ (forall f p, refines (parse_call_expression fuel f p) (parse_call_expression (S fuel) f p))
  /\ (forall p, refines (parse_call_arguments fuel p) (parse_call_arguments (S fuel) p))
  /\ (forall a p, refines (call_arguments_loop fuel a p) (call_arguments_loop (S fuel) a p))
  /\ (forall p, refines (parse_block_statement fuel p) (parse_block_statement (S fuel) p))
  /\ (forall s p, refines (block_statement_loop fuel s p) (block_statement_loop (S fuel) s p))
  /\ (forall p, refines (parser_parse_statement fuel p) (parser_parse_statement (S fuel) p)).
Proof.
  induction fuel as [|fuel (IHe & IHi & IHc & IHa & IHal & IHb & IHbl & IHs)].
  { repeat split; intros; by intros []. }
  repeat split.
  - intros prec p. rewrite (parse_expression_S fuel), (parse_expression_S (S fuel)).
    destruct (table_entry prefix_fns _) as [fn|]; [|apply refines_refl].
    apply refines_bind; [|intros; apply IHi].
    destruct fn; first
      [ apply refines_refl
      | by apply parse_prefix_expression_mono
      | by apply parse_grouped_expression_mono
      | by apply parse_function_literal_mono
      | by apply parse_if_expression_mono ].
  - intros prec l p. rewrite (infix_loop_S fuel), (infix_loop_S (S fuel)).
    destruct (decide _); [apply refines_refl|].
    destruct (_ >=? _); [apply refines_refl|].
    destruct (table_entry infix_fns _) as [fn|]; [|apply refines_refl].
    apply refines_bind; [|intros; apply IHi].
    destruct fn; [by apply parse_infix_expression_mono | apply IHc].
  - intros f p. rewrite (parse_call_expression_S fuel), (parse_call_expression_S (S fuel)).
    apply refines_bind; [apply IHa|]. intros; apply refines_refl.
  - intros p. rewrite (parse_call_arguments_S fuel), (parse_call_arguments_S (S fuel)).
    destruct (decide _); [apply refines_refl|].
    apply refines_bind; [apply IHe|]. intros arg q.
    apply refines_bind; [apply IHal|]. intros; apply refines_refl.
  - intros a p. rewrite (call_arguments_loop_S fuel), (call_arguments_loop_S (S fuel)).
    destruct (decide _); [|apply refines_refl].
    apply refines_bind; [apply IHe|]. intros; apply IHal.
  - intros p. rewrite (parse_block_statement_S fuel), (parse_block_statement_S (S fuel)).
    apply refines_bind; [apply IHbl|]. intros; apply refines_refl.
  - intros s p. rewrite (block_statement_loop_S fuel), (block_statement_loop_S (S fuel)).
    destruct (_ && _); [|apply refines_refl].
    apply refines_bind; [apply IHs|]. intros; apply IHbl.
  - intros p. rewrite (parser_parse_statement_S fuel), (parser_parse_statement_S (S fuel)).
    destruct (type (cur_tok p)); first
      [ by apply parse_letstatement_mono
      | by apply parse_return_statement_mono
      | by apply parse_expression_statement_mono ].
Qed.

Lemma program_loop_step fuel statements p :
  refines (program_loop fuel statements p) (program_loop (S fuel) statements p).
Proof.
  revert statements p. induction fuel as [|fuel IH]; intros statements p; [by intros []|].
  rewrite (program_loop_S fuel), (program_loop_S (S fuel)).
  destruct (negb _); [|apply refines_refl].
  apply refines_bind; [apply fuel_step|]. intros; apply IH.
Qed.

(** A result obtained with some fuel is the result with any larger fuel. *)
Lemma more_fuel {A : Type} (f : nat -> outcome A) :
  (forall fuel, refines (f fuel) (f (S fuel))) ->
  forall fuel fuel' r, (fuel <= fuel')%nat -> f fuel = r -> r <> OutOfFuel -> f fuel' = r.
Proof.
  intros Hstep fuel fuel' r Hle <- Hr.
  induction Hle as [|fuel' Hle IH]; [done|].
  rewrite <- IH. apply Hstep. by rewrite IH.
Qed.

Lemma parse_expression_more_fuel fuel fuel' prec p r :
  (fuel <= fuel')%nat -> parse_expression fuel prec p = r -> r <> OutOfFuel ->
  parse_expression fuel' prec p = r.
Proof. apply (more_fuel (fun n => parse_expression n prec p)). intros n. apply fuel_step. Qed.

Lemma parse_program_more_fuel fuel fuel' p r :
  (fuel <= fuel')%nat -> parse_program fuel p = r -> r <> OutOfFuel ->
  parse_program fuel' p = r.
Proof.
  apply (more_fuel (fun n => parse_program n p)). intros n. unfold parse_program.
  apply refines_bind; [apply program_loop_step|]. intros; apply refines_refl.
Qed.

End Monotone.

(** ** The parser: invariants *)

Section Invariant.
Context (P : parser_t -> Prop) (HP : parser_invariant P).

Lemma sat_bind {A B : Type} (m : outcome A) (k : A -> parser_t -> outcome B) :
  sat P m -> (forall a, keeps P (k a)) -> sat P (bind m k).
Proof. destruct m; simpl; auto. intros Hp Hk. by apply Hk. Qed.

Lemma keeps_next p : P p -> P (parser_next_token p).
Proof. apply HP. Qed.

Lemma keeps_expect_peek p t : P p -> P (expect_peek p t).1.
Proof.
  intros Hp. unfold expect_peek. destruct (decide _); simpl.
  - by apply HP.
  - apply HP; [|done]. left. eauto.
Qed.

Lemma keeps_no_prefix p : P p -> P (handle_no_prefix_fn p).
Proof. intros Hp. apply HP; [|done]. right; left. eauto. Qed.

Lemma keeps_identifier : keeps P parse_identifier_expression.
Proof. intros p Hp. exact Hp. Qed.

Lemma keeps_boolean : keeps P parse_boolean_expression.
Proof. intros p Hp. exact Hp. Qed.

Lemma keeps_integer : keeps P parse_integer_expression.
Proof.
  intros p Hp. unfold parse_integer_expression.
  destruct (integer_conversion_failed _); simpl; [|done].
  apply HP; [|done]. right; right. eauto.
Qed.

Lemma keeps_function_parameters_loop fuel params :
  keeps P (function_parameters_loop fuel params).
Proof.
  revert params. induction fuel as [|fuel IH]; intros params p Hp; simpl; [done|].
  destruct (decide _); [|done]. apply IH. by do 2 apply HP.
Qed.

Lemma keeps_function_parameters fuel : keeps P (parse_function_parameters fuel).
Proof.
  intros p Hp. unfold parse_function_parameters.
  destruct (decide _); simpl; [by apply HP|].
  apply sat_bind; [apply keeps_function_parameters_loop; by apply HP|].
  intros params p' Hp'.
  destruct (expect_peek p' RPAREN) as [p'' ok] eqn:E.
  assert (P p'') by (change p'' with (p'', ok).1; rewrite <- E; by apply keeps_expect_peek).
  by destruct ok.
Qed.

Section Open.
Context (pe : operator_precedence_t -> parser_t -> outcome (option expression_t))
        (pb : parser_t -> outcome block_statement_t)
        (fuel : nat).
Context (Hpe : forall prec, keeps P (pe prec)) (Hpb : keeps P pb).

Ltac step_expect :=
  match goal with
  | |- context [expect_peek ?p ?t] =>
      let E := fresh "E" in let p' := fresh "p" in let ok := fresh "ok" in
      let H := fresh "H" in
      assert (H : P (expect_peek p t).1) by (by apply keeps_expect_peek);
      destruct (expect_peek p t) as [p' ok] eqn:E; simpl in H; destruct ok; simpl
  end.

Lemma keeps_prefix : keeps P (parse_prefix_expression pe).
Proof.
  intros p Hp. unfold parse_prefix_expression.
  apply sat_bind; [apply Hpe; by apply HP|]. by intros a p' Hp'.
Qed.

Lemma keeps_infix lhs : keeps P (parse_infix_expression pe lhs).
Proof.
  intros p Hp. unfold parse_infix_expression.
  apply sat_bind; [apply Hpe; by apply HP|]. by intros a p' Hp'.
Qed.

Lemma keeps_grouped : keeps P (parse_grouped_expression pe).
Proof.
  intros p Hp. unfold parse_grouped_expression.
  apply sat_bind; [apply Hpe; by apply HP|]. intros a p' Hp'.
  step_expect; [done|]. by destruct (free_expression_ptr a).
Qed.

Lemma keeps_if : keeps P (parse_if_expression pe pb).
Proof.
  intros p Hp. unfold parse_if_expression.
  step_expect; [|done].
  apply sat_bind; [apply Hpe; by apply HP|]. intros cond p' Hp'.
  step_expect; [|by destruct (free_if_expression _ _ _)].
  step_expect; [|by destruct (free_if_expression _ _ _)].
  apply sat_bind; [by apply Hpb|]. intros cons p'' Hp''.
  destruct (decide _); [|done].
  assert (P (parser_next_token p'')) by (by apply HP).
  step_expect; [|by destruct (free_if_expression _ _ _)].
  apply sat_bind; [by apply Hpb|]. by intros alt pz Hpz.
Qed.

Lemma keeps_function_literal : keeps P (parse_function_literal pb fuel).
Proof.
  intros p Hp. unfold parse_function_literal.
  step_expect; [|done].
  apply sat_bind; [by apply keeps_function_parameters|]. intros [params|] p' Hp'; [|done].
  step_expect; [|done].
  apply sat_bind; [by apply Hpb|]. by intros body p'' Hp''.
Qed.

Lemma keeps_semicolon p :
  P p -> P (if decide (type (peek_tok p) = SEMICOLON) then parser_next_token p else p).
Proof. intros Hp. destruct (decide _); [by apply HP | done]. Qed.

Lemma keeps_let : keeps P (parse_letstatement pe).
Proof.
  intros p Hp. unfold parse_letstatement.
  step_expect; [|done]. step_expect; [|done].
  apply sat_bind; [apply Hpe; by apply HP|]. intros v p' Hp'.
  by apply keeps_semicolon.
Qed.

Lemma keeps_return : keeps P (parse_return_statement pe).
Proof.
  intros p Hp. unfold parse_return_statement.
  apply sat_bind; [apply Hpe; by apply HP|]. intros v p' Hp'.
  by apply keeps_semicolon.
Qed.

Lemma keeps_expression_statement : keeps P (parse_expression_statement pe).
Proof.
  intros p Hp. unfold parse_expression_statement.
  apply sat_bind; [by apply Hpe|]. intros v p' Hp'.
  by apply keeps_semicolon.
Qed.

End Open.

(** Every recursive parse function keeps P the invariant, at every depth. *)
Lemma keeps_all (fuel : nat) :
  (forall prec, keeps P (parse_expression fuel prec))
  /\ (forall prec left_exp, keeps P (infix_loop fuel prec left_exp))
  /\ (forall function, keeps P (parse_call_expression fuel function))
  /\ keeps P (parse_call_arguments fuel)
  /\ (forall arguments, keeps P (call_arguments_loop fuel arguments))
  /\ keeps P (parse_block_statement fuel)
  /\ (forall statements, keeps P (block_statement_loop fuel statements))
  /\ keeps P (parser_parse_statement fuel).
Proof.
  induction fuel as [|fuel (IHe & IHi & IHc & IHa & IHal & IHb & IHbl & IHs)].
  { repeat split; intros; intros p Hp; exact I. }
  repeat split.
  - intros prec p Hp. simpl.
    destruct (table_entry prefix_fns _) as [fn|]; [|by apply keeps_no_prefix].
    apply sat_bind; [|intros a; apply IHi].
    destruct fn.
    + by apply keeps_identifier.
    + by apply keeps_integer.
    + by apply keeps_prefix.
    + by apply keeps_grouped.
    + by apply keeps_function_literal.
    + by apply keeps_if.
    + by apply keeps_boolean.
  - intros prec left_exp p Hp. simpl.
    destruct (decide _); [done|]. destruct (_ >=? _); [done|].
    destruct (table_entry infix_fns _) as [fn|]; [|done].
    apply sat_bind; [|intros a; apply IHi].
    destruct fn.
    + apply keeps_infix; [done|]. by apply HP.
    + apply IHc. by apply HP.
  - intros function p Hp. simpl.
    apply sat_bind; [by apply IHa|]. by intros [args|] p' Hp'.
  - intros p Hp. simpl. destruct (decide _); [by apply HP|].
    apply sat_bind; [apply IHe; by apply HP|]. intros arg p' Hp'.
    apply sat_bind; [by apply IHal|]. intros args p'' Hp''.
    pose proof (keeps_expect_peek p'' RPAREN Hp'') as H.
    destruct (expect_peek p'' RPAREN) as [p3 ok]. simpl in H.
    destruct ok; [done|]. by destruct (free_expression_list args).
  - intros arguments p Hp. simpl. destruct (decide _); [|done].
    apply sat_bind; [apply IHe; by do 2 apply HP|]. intros arg p' Hp'. by apply IHal.
  - intros p Hp. simpl.
    apply sat_bind; [apply IHbl; by apply HP|]. by intros stmts p' Hp'.
  - intros statements p Hp. simpl. destruct (_ && _); [|done].
    apply sat_bind; [by apply IHs|]. intros stmt p' Hp'. apply IHbl. by apply HP.
  - intros p Hp. simpl. destruct (type (cur_tok p));
      first [by apply keeps_let | by apply keeps_return
            | by apply keeps_expression_statement].
Qed.

Lemma keeps_program_loop fuel statements : keeps P (program_loop fuel statements).
Proof.
  revert statements. induction fuel as [|fuel IH]; intros statements p Hp; simpl; [done|].
  destruct (negb _); [|done].
  apply sat_bind; [by apply keeps_all|]. intros stmt p' Hp'. apply IH. by apply HP.
Qed.

Lemma keeps_program fuel : keeps P (parse_program fuel).
Proof.
  intros p Hp. unfold parse_program.
  apply sat_bind; [by apply keeps_program_loop|]. by intros stmts p' Hp'.
Qed.

End Invariant.

(** ** The parser: termination *)

Section Termination.

Lemma level_of_tail (t : token) (ts : list token) :
  level_of ts = Nat.pred (level_of (t :: ts)).
Proof. simpl. destruct (level_of ts); [by destruct (decide _)|done]. Qed.

Lemma level_of_eof (ts : list token) : level_of (ts ++ [eof_token]) = level_of ts.
Proof. induction ts as [|t ts IH]; simpl; [done|]. by rewrite IH. Qed.

Lemma level_next (p : parser_t) : level (parser_next_token p) = Nat.pred (level p).
Proof.
  unfold level, pending, parser_next_token.
  rewrite <- (level_of_tail (cur_tok p)).
  destruct (lexer p) as [|t l]; simpl lexer_next_token; cbn [lexer cur_tok peek_tok].
  - apply (level_of_eof [peek_tok p]).
  - done.
Qed.

Lemma level_error (p : parser_t) (msg : string) : level (add_parse_error p msg) = level p.
Proof. reflexivity. Qed.

Lemma level_cur (p : parser_t) : type (cur_tok p) <> END_OF_FILE -> (1 <= level p)%nat.
Proof.
  unfold level, pending. simpl. intros H.
  destruct (match level_of (lexer p) with O => _ | S n => _ end);
    [destruct (decide _); [done|lia] | lia].
Qed.

Lemma level_peek (p : parser_t) : type (peek_tok p) <> END_OF_FILE -> (2 <= level p)%nat.
Proof.
  unfold level, pending. simpl. intros H.
  destruct (level_of (lexer p)); [|lia].
  destruct (decide (type (peek_tok p) = END_OF_FILE)); [done|lia].
Qed.

Lemma level_invariant (n : nat) : parser_invariant (fun p => (level p <= n)%nat).
Proof.
  split.
  - intros p Hp. rewrite level_next. lia.
  - intros p msg _ Hp. by rewrite level_error.
Qed.


Lemma stops_Returns {A : Type} (a : A) (p : parser_t) : stops (Returns a p).
Proof. done. Qed.

Lemma stops_Crash {A : Type} (p : parser_t) : stops (@Crash A p).
Proof. done. Qed.

Lemma stops_bind {A B : Type} (m : nat) (o : outcome A)
    (k : A -> parser_t -> outcome B) :
  stops o -> sat (fun p => (level p <= m)%nat) o ->
  (forall a p, (level p <= m)%nat -> stops (k a p)) -> stops (bind o k).
Proof. destruct o as [a p|p|]; simpl; intros Ho Hp Hk; [by apply Hk|done|done]. Qed.

Ltac halt := first [apply stops_Returns | apply stops_Crash].

Lemma lower_cur (n : nat) (p : parser_t) :
  (level p <= n)%nat -> type (cur_tok p) <> END_OF_FILE ->
  exists m, n = S m /\ (level (parser_next_token p) <= m)%nat.
Proof.
  intros Hp Hcur. pose proof (level_cur p Hcur). rewrite level_next.
  exists (Nat.pred n). lia.
Qed.

Lemma lower_peek (n : nat) (p : parser_t) :
  (level p <= n)%nat -> type (peek_tok p) <> END_OF_FILE ->
  exists m, n = S m /\ (level (parser_next_token p) <= m)%nat.
Proof.
  intros Hp Hpeek. pose proof (level_peek p Hpeek). rewrite level_next.
  exists (Nat.pred n). lia.
Qed.

(** The level never grows. *)
Lemma bounded (m fuel : nat) :
  (forall prec, keeps (fun p => (level p <= m)%nat) (parse_expression fuel prec))
  /\ (forall prec left_exp,
         keeps (fun p => (level p <= m)%nat) (infix_loop fuel prec left_exp))
  /\ (forall function,
         keeps (fun p => (level p <= m)%nat) (parse_call_expression fuel function))
  /\ keeps (fun p => (level p <= m)%nat) (parse_call_arguments fuel)
  /\ (forall arguments,
         keeps (fun p => (level p <= m)%nat) (call_arguments_loop fuel arguments))
  /\ keeps (fun p => (level p <= m)%nat) (parse_block_statement fuel)
  /\ (forall statements,
         keeps (fun p => (level p <= m)%nat) (block_statement_loop fuel statements))
  /\ keeps (fun p => (level p <= m)%nat) (parser_parse_statement fuel).
Proof. apply keeps_all, level_invariant. Qed.

Lemma bounded_expression (m fuel : nat) (prec : operator_precedence_t) (p : parser_t) :
  (level p <= m)%nat -> sat (fun p => (level p <= m)%nat) (parse_expression fuel prec p).
Proof. apply (bounded m fuel). Qed.

Lemma bounded_block (m fuel : nat) (p : parser_t) :
  (level p <= m)%nat -> sat (fun p => (level p <= m)%nat) (parse_block_statement fuel p).
Proof. apply (bounded m fuel). Qed.

Lemma bounded_statement (m fuel : nat) (p : parser_t) :
  (level p <= m)%nat -> sat (fun p => (level p <= m)%nat) (parser_parse_statement fuel p).
Proof. apply (bounded m fuel). Qed.

Lemma function_parameters_loop_stops (fuel : nat) :
  forall params p, (level p < fuel)%nat -> stops (function_parameters_loop fuel params p).
Proof.
  induction fuel as [|fuel IH]; intros params p Hp; [lia|]. simpl.
  destruct (decide _) as [Hcomma|]; [|halt].
  apply IH. rewrite !level_next.
  assert (2 <= level p)%nat by (apply level_peek; by rewrite Hcomma). lia.
Qed.

Lemma parse_function_parameters_stops (fuel : nat) (p : parser_t) :
  (level p < fuel)%nat -> stops (parse_function_parameters fuel p).
Proof.
  intros Hp. unfold parse_function_parameters.
  destruct (decide _); [halt|].
  apply (stops_bind (level p)).
  - apply function_parameters_loop_stops. rewrite level_next. lia.
  - apply (keeps_function_parameters_loop _ (level_invariant (level p))).
    rewrite level_next. lia.
  - intros params p' _. destruct (expect_peek p' RPAREN) as [p'' []]; halt.
Qed.


Section AtLevel.
Variable n : nat.
Hypothesis below : forall m, n = S m -> stops_at m.

Lemma expect_peek_level (p p' : parser_t) (t : token_type) (ok : bool) :
  expect_peek p t = (p', ok) -> (level p' <= level p)%nat.
Proof.
  unfold expect_peek. destruct (decide _); intros [= <- <-].
  - rewrite level_next. lia.
  - done.
Qed.

Lemma expect_peek_lower (p p' : parser_t) (t : token_type) :
  expect_peek p t = (p', true) -> (level p' <= Nat.pred (level p))%nat.
Proof.
  unfold expect_peek. destruct (decide _); intros [= <-]. by rewrite level_next.
Qed.

Lemma infix_loop_halts (p : parser_t) (fuel : nat) (prec : operator_precedence_t)
    (left_exp : option expression_t) :
  (level p <= n)%nat -> (6 * n + 1 <= fuel)%nat ->
  stops (infix_loop fuel prec left_exp p).
Proof.
  intros Hp Hfuel. destruct fuel as [|fuel]; [lia|]. rewrite infix_loop_S.
  destruct (decide _); [halt|]. destruct (_ >=? _); [halt|].
  destruct (table_entry infix_fns (type (peek_tok p))) as [fn|] eqn:Hfn; [|halt].
  assert (Hpeek : type (peek_tok p) <> END_OF_FILE)
    by (intros E; rewrite E in Hfn; discriminate Hfn).
  destruct (lower_peek n p Hp Hpeek) as (m & Hn & Hm).
  pose proof (below m Hn) as Hbelow.
  apply (stops_bind m).
  - destruct fn.
    + unfold parse_infix_expression. apply (stops_bind m).
      * apply Hbelow; [rewrite level_next; lia | lia].
      * apply bounded_expression. rewrite level_next; lia.
      * intros; halt.
    + apply Hbelow; [done | lia].
  - destruct fn.
    + apply (keeps_infix _ (level_invariant m)); [apply (bounded m fuel) | done].
    + by apply (bounded m fuel).
  - intros right_exp p' Hp'. apply Hbelow; [done | lia].
Qed.

Lemma parse_expression_halts (p : parser_t) (fuel : nat) (prec : operator_precedence_t) :
  (level p <= n)%nat -> (6 * n + 2 <= fuel)%nat ->
  stops (parse_expression fuel prec p).
Proof.
  intros Hp Hfuel. destruct fuel as [|fuel]; [lia|]. rewrite parse_expression_S.
  destruct (table_entry prefix_fns (type (cur_tok p))) as [fn|] eqn:Hfn; [|halt].
  assert (Hcur : type (cur_tok p) <> END_OF_FILE)
    by (intros E; rewrite E in Hfn; discriminate Hfn).
  destruct (lower_cur n p Hp Hcur) as (m & Hn & Hm).
  pose proof (below m Hn) as Hbelow.
  apply (stops_bind n).
  - destruct fn.
    + halt.
    + unfold parse_integer_expression. destruct (integer_conversion_failed _); halt.
    + unfold parse_prefix_expression. apply (stops_bind m).
      * apply Hbelow; [done | lia].
      * by apply bounded_expression.
      * intros; halt.
    + unfold parse_grouped_expression. apply (stops_bind m).
      * apply Hbelow; [done | lia].
      * by apply bounded_expression.
      * intros e p' _. destruct (expect_peek p' RPAREN) as [p'' []]; [halt|].
        destruct (free_expression_ptr e); halt.
    + unfold parse_function_literal.
      destruct (expect_peek p LPAREN) as [p1 []] eqn:E1; cbn [negb]; [|halt].
      apply expect_peek_lower in E1.
      apply (stops_bind m).
      * apply parse_function_parameters_stops. lia.
      * apply (keeps_function_parameters _ (level_invariant m)). lia.
      * intros [params|] p2 Hp2; [|halt].
        destruct (expect_peek p2 LBRACE) as [p3 []] eqn:E3; cbn [negb]; [|halt].
        apply expect_peek_level in E3.
        apply (stops_bind m).
        -- apply Hbelow; lia.
        -- apply bounded_block. lia.
        -- intros; halt.
    + unfold parse_if_expression.
      destruct (expect_peek p LPAREN) as [p1 []] eqn:E1; cbn [negb]; [|halt].
      apply expect_peek_lower in E1.
      apply (stops_bind m).
      * apply Hbelow; [rewrite level_next; lia | lia].
      * apply bounded_expression. rewrite level_next; lia.
      * intros cond p2 Hp2.
        destruct (expect_peek p2 RPAREN) as [p3 []] eqn:E3; cbn [negb];
          [|destruct (free_if_expression _ _ _); halt].
        apply expect_peek_level in E3.
        destruct (expect_peek p3 LBRACE) as [p4 []] eqn:E4; cbn [negb];
          [|destruct (free_if_expression _ _ _); halt].
        apply expect_peek_level in E4.
        apply (stops_bind m).
        -- apply Hbelow; lia.
        -- apply bounded_block. lia.
        -- intros cons p5 Hp5. destruct (decide _); [|halt].
           destruct (expect_peek (parser_next_token p5) LBRACE) as [p6 []] eqn:E6;
             cbn [negb]; [|destruct (free_if_expression _ _ _); halt].
           apply expect_peek_level in E6. rewrite level_next in E6.
           apply (stops_bind m).
           ++ apply Hbelow; lia.
           ++ apply bounded_block. lia.
           ++ intros; halt.
    + halt.
  - pose proof (bounded n fuel) as (He & _ & _ & _ & _ & Hb & _).
    destruct fn.
    + done.
    + by apply (keeps_integer _ (level_invariant n)).
    + by apply (keeps_prefix _ (level_invariant n)).
    + by apply (keeps_grouped _ (level_invariant n)).
    + by apply (keeps_function_literal _ (level_invariant n)).
    + by apply (keeps_if _ (level_invariant n)).
    + done.
  - intros left_exp p' Hp'. apply infix_loop_halts; [done | lia].
Qed.

Lemma call_arguments_loop_halts (p : parser_t) (fuel : nat)
    (arguments : list (option expression_t)) :
  (level p <= n)%nat -> (6 * n + 1 <= fuel)%nat ->
  stops (call_arguments_loop fuel arguments p).
Proof.
  intros Hp Hfuel. destruct fuel as [|fuel]; [lia|]. rewrite call_arguments_loop_S.
  destruct (decide _) as [Hcomma|]; [|halt].
  assert (Hpeek : type (peek_tok p) <> END_OF_FILE) by (by rewrite Hcomma).
  destruct (lower_peek n p Hp Hpeek) as (m & Hn & Hm).
  pose proof (below m Hn) as Hbelow.
  apply (stops_bind m).
  - apply Hbelow; [rewrite level_next; lia | lia].
  - apply bounded_expression. rewrite level_next; lia.
  - intros arg p' Hp'. apply Hbelow; [done | lia].
Qed.

Lemma parse_call_arguments_halts (p : parser_t) (fuel : nat) :
  (level p <= n)%nat -> (6 * n + 3 <= fuel)%nat ->
  stops (parse_call_arguments fuel p).
Proof.
  intros Hp Hfuel. destruct fuel as [|fuel]; [lia|]. rewrite parse_call_arguments_S.
  destruct (decide _); [halt|].
  apply (stops_bind n).
  - apply parse_expression_halts; [rewrite level_next; lia | lia].
  - apply bounded_expression. rewrite level_next; lia.
  - intros arg p' Hp'. apply (stops_bind n).
    + apply call_arguments_loop_halts; [done | lia].
    + by apply (bounded n fuel).
    + intros args p'' _. destruct (expect_peek p'' RPAREN) as [p3 []]; [halt|].
      destruct (free_expression_list args); halt.
Qed.

Lemma parse_call_expression_halts (p : parser_t) (fuel : nat)
    (function : option expression_t) :
  (level p <= n)%nat -> (6 * n + 4 <= fuel)%nat ->
  stops (parse_call_expression fuel function p).
Proof.
  intros Hp Hfuel. destruct fuel as [|fuel]; [lia|]. rewrite parse_call_expression_S.
  apply (stops_bind n).
  - apply parse_call_arguments_halts; [done | lia].
  - by apply (bounded n fuel).
  - intros [args|] p' _; halt.
Qed.

Lemma semicolon_halts {A : Type} (f : parser_t -> A) (p : parser_t) :
  stops (let parser :=
           if decide (type (peek_tok p) = SEMICOLON) then parser_next_token p else p in
         Returns (f parser) parser).
Proof. halt. Qed.

Lemma parser_parse_statement_halts (p : parser_t) (fuel : nat) :
  (level p <= n)%nat -> (6 * n + 3 <= fuel)%nat ->
  stops (parser_parse_statement fuel p).
Proof.
  intros Hp Hfuel. destruct fuel as [|fuel]; [lia|]. rewrite parser_parse_statement_S.
  assert (Hstmt : stops (parse_expression_statement (parse_expression fuel) p)).
  { unfold parse_expression_statement. apply (stops_bind n).
    - apply parse_expression_halts; [done | lia].
    - by apply bounded_expression.
    - intros; halt. }
  destruct (type (cur_tok p)); try exact Hstmt.
  - unfold parse_letstatement.
    destruct (expect_peek p IDENT) as [p1 []] eqn:E1; cbn [negb]; [|halt].
    apply expect_peek_level in E1.
    destruct (expect_peek p1 ASSIGN) as [p2 []] eqn:E2; cbn [negb]; [|halt].
    apply expect_peek_level in E2.
    apply (stops_bind n).
    + apply parse_expression_halts; [rewrite level_next; lia | lia].
    + apply bounded_expression. rewrite level_next; lia.
    + intros; halt.
  - unfold parse_return_statement. apply (stops_bind n).
    + apply parse_expression_halts; [rewrite level_next; lia | lia].
    + apply bounded_expression. rewrite level_next; lia.
    + intros; halt.
Qed.

Lemma block_statement_loop_halts (p : parser_t) (fuel : nat)
    (statements : list statement_t) :
  (level p <= n)%nat -> (6 * n + 4 <= fuel)%nat ->
  stops (block_statement_loop fuel statements p).
Proof.
  intros Hp Hfuel. destruct fuel as [|fuel]; [lia|]. rewrite block_statement_loop_S.
  destruct (bool_decide (type (cur_tok p) = RBRACE)); cbn [negb andb]; [halt|].
  destruct (bool_decide (type (cur_tok p) = END_OF_FILE)) eqn:Hcur; cbn [negb]; [halt|].
  apply bool_decide_eq_false in Hcur.
  destruct (lower_cur n p Hp Hcur) as (m & Hn & Hm).
  pose proof (below m Hn) as Hbelow.
  apply (stops_bind n).
  - apply parser_parse_statement_halts; [done | lia].
  - by apply bounded_statement.
  - intros stmt p' Hp'. apply Hbelow; [rewrite level_next; lia | lia].
Qed.

Lemma parse_block_statement_halts (p : parser_t) (fuel : nat) :
  (level p <= n)%nat -> (6 * n + 5 <= fuel)%nat ->
  stops (parse_block_statement fuel p).
Proof.
  intros Hp Hfuel. destruct fuel as [|fuel]; [lia|]. rewrite parse_block_statement_S.
  apply (stops_bind n).
  - apply block_statement_loop_halts; [rewrite level_next; lia | lia].
  - apply (bounded n fuel). rewrite level_next; lia.
  - intros; halt.
Qed.

End AtLevel.

(** With fuel in proportion to the tokens left, every recursive parse
    function stops. *)
Lemma stops_at_all (n : nat) : stops_at n.
Proof.
  induction n as [n IH] using lt_wf_ind.
  assert (Hbelow : forall m, n = S m -> stops_at m) by (intros m ->; apply IH; lia).
  split.
  - by apply infix_loop_halts.
  - by apply parse_expression_halts.
  - by apply call_arguments_loop_halts.
  - by apply parse_call_arguments_halts.
  - by apply parse_call_expression_halts.
  - by apply parser_parse_statement_halts.
  - by apply block_statement_loop_halts.
  - by apply parse_block_statement_halts.
Qed.

Lemma program_loop_stops (fuel : nat) :
  forall statements p, (6 * level p + 4 <= fuel)%nat ->
                       stops (program_loop fuel statements p).
Proof.
  induction fuel as [|fuel IH]; intros statements p Hfuel; [lia|].
  rewrite program_loop_S.
  destruct (bool_decide (type (cur_tok p) = END_OF_FILE)) eqn:Hcur; cbn [negb]; [halt|].
  apply bool_decide_eq_false in Hcur. pose proof (level_cur p Hcur).
  apply (stops_bind (level p)).
  - apply (stops_at_all (level p)); [done | lia].
  - by apply bounded_statement.
  - intros stmt p' Hp'. apply IH. rewrite level_next. lia.
Qed.

Lemma level_of_length (ts : list token) : (level_of ts <= List.length ts)%nat.
Proof.
  induction ts as [|t ts IH]; simpl; [done|].
  destruct (level_of ts); [destruct (decide _); lia | lia].
Qed.

Lemma level_init (tokens : list token) : level (parser_init tokens) = level_of tokens.
Proof.
  destruct tokens as [|t0 [|t1 l]]; [done| |done].
  apply (level_of_eof [t0]).
Qed.

(** The parser stops on every token stream, with fuel in proportion to its
    length. *)
Lemma parse_program_stops (tokens : list token) (fuel : nat) :
  (6 * List.length tokens + 4 <= fuel)%nat ->
  stops (parse_program fuel (parser_init tokens)).
Proof.
  intros Hfuel. unfold parse_program.
  apply (stops_bind (level (parser_init tokens))).
  - apply program_loop_stops.
    pose proof (level_of_length tokens). rewrite level_init. lia.
  - by apply (keeps_program_loop _ (level_invariant _)).
  - intros; halt.
Qed.

End Termination.

(** ** The parser: messages, [return ;] and braces *)

Section ParserErrors.

Lemma errors_invariant :
  parser_invariant (fun p => Forall parse_error_form (errors p)).
Proof.
  split.
  - intros p Hp. unfold parser_next_token. by destruct (lexer_next_token _).
  - intros p msg Hmsg Hp. simpl. apply Forall_app. split; [done|]. by constructor.
Qed.

Lemma table_entry_prefix (t : token_type) :
  is_Some (table_entry prefix_fns t) <-> In t prefix_kinds.
Proof.
  destruct t; vm_compute; split;
    first [ by intros [? [=]] | by intros; eauto | intuition discriminate | by eauto ].
Qed.

End ParserErrors.

(** C6, as stated, fails: an integer literal out of the range of [long]
    records a message of a third form, and the message for a token without
    a prefix parse function is worded otherwise than described. *)
Lemma C6_other_messages :
  (exists prog p,
      parse_program 5 (parser_init [mk_token INT "99999999999999999999"])
        = Returns prog p
      /\ errors p = ["could not parse 99999999999999999999 as integer"]
      /\ ~ described_error_form "could not parse 99999999999999999999 as integer")
  /\ (exists prog p,
         parse_program 5 (parser_init [mk_token SEMICOLON ";"]) = Returns prog p
         /\ errors p = [no_prefix_message (mk_token SEMICOLON ";")]
         /\ ~ described_error_form (no_prefix_message (mk_token SEMICOLON ";"))).
Proof.
  split.
  - eexists _, _. split; [vm_compute; reflexivity|]. split; [reflexivity|].
    intros [(x & y & H)|(z & H)]; discriminate H.
  - eexists _, _. split; [vm_compute; reflexivity|]. split; [reflexivity|].
    intros [(x & y & H)|(z & H)]; discriminate H.
Qed.

(** C6, amended: every message that the parser records has one of three
    forms: "expected next token to be X, got Y instead" with the names of two
    token kinds, "no prefix parse function for the token" followed by a
    literal between double quotes, or "could not parse L as integer".  For
    every token stream the parser stops, by returning or by a null
    dereference, the same way with any fuel that is at least six times the
    number of tokens plus four, and every message of its error list then has
    one of the three forms. *)
Theorem C6_parse_error_forms (tokens : list token) :
  exists r : outcome program_t,
    (forall fuel, (6 * List.length tokens + 4 <= fuel)%nat ->
                  parse_program fuel (parser_init tokens) = r)
    /\ stops r
    /\ sat (fun p => Forall parse_error_form (errors p)) r.
Proof.
  exists (parse_program (6 * List.length tokens + 4) (parser_init tokens)).
  pose proof (parse_program_stops tokens _ (Nat.le_refl _)) as Hstops.
  split; [|split; [exact Hstops|]].
  - intros fuel Hfuel. by apply (parse_program_more_fuel (6 * List.length tokens + 4)).
  - apply (keeps_program _ errors_invariant).
    unfold parser_init.
    destruct (lexer_next_token tokens) as [t0 l0].
    destruct (lexer_next_token l0) as [t1 l1]. constructor.
Qed.

Lemma C6_parse_error_forms_witness :
  exists r : outcome program_t,
    (forall fuel, (6 * 1 + 4 <= fuel)%nat ->
                  parse_program fuel (parser_init [mk_token INT "99999999999999999999"])
                  = r)
    /\ stops r
    /\ sat (fun p => Forall parse_error_form (errors p)) r.
Proof. exact (C6_parse_error_forms [mk_token INT "99999999999999999999"]). Defined.

(** C3, as stated, fails: for the tokens of [return ;] the parser builds the
    Return statement without a value, and records a parse error. *)
Lemma C3_return_semicolon_records_error :
  exists p,
    parse_program 5 (parser_init [mk_token RETURN "return"; mk_token SEMICOLON ";"])
    = Returns (mk_program [ReturnStatement (mk_token RETURN "return") None]) p
    /\ errors p = [no_prefix_message (mk_token SEMICOLON ";")]
    /\ errors p <> [].
Proof.
  eexists. split; [vm_compute; reflexivity|]. split; [reflexivity | discriminate].
Qed.

(** C3, amended: when the token after RETURN is a semicolon, the parser
    produces a Return statement whose return value is null and records
    exactly one parse error, "no prefix parse function for the token" with
    the literal of the semicolon between double quotes. *)
Theorem C3_return_semicolon (p : parser_t) (fuel : nat) :
  type (cur_tok p) = RETURN -> type (peek_tok p) = SEMICOLON ->
  exists p',
    parser_parse_statement (S (S fuel)) p
    = Returns (Some (ReturnStatement (cur_tok p) None)) p'
    /\ errors p' = errors p ++ [no_prefix_message (peek_tok p)].
Proof.
  intros Hcur Hpeek.
  rewrite parser_parse_statement_S, Hcur. unfold parse_return_statement.
  rewrite parse_expression_S.
  assert (Hc : cur_tok (parser_next_token p) = peek_tok p).
  { unfold parser_next_token. by destruct (lexer_next_token _). }
  assert (He : errors (parser_next_token p) = errors p).
  { unfold parser_next_token. by destruct (lexer_next_token _). }
  rewrite Hc, Hpeek.
  change (table_entry prefix_fns SEMICOLON) with (@None prefix_parse_fn).
  simpl bind. eexists. split; [reflexivity|].
  assert (Hh : errors (handle_no_prefix_fn (parser_next_token p))
               = errors p ++ [no_prefix_message (peek_tok p)]).
  { unfold handle_no_prefix_fn, no_prefix_message. simpl. by rewrite He, Hc. }
  destruct (decide _); [|exact Hh].
  unfold parser_next_token at 1. destruct (lexer_next_token _). simpl. exact Hh.
Qed.

Lemma C3_return_semicolon_witness :
  let p := parser_init [mk_token RETURN "return"; mk_token SEMICOLON ";";
                        mk_token INT "1"] in
  type (cur_tok p) = RETURN /\ type (peek_tok p) = SEMICOLON
  /\ exists p',
       parser_parse_statement 2 p
       = Returns (Some (ReturnStatement (cur_tok p) None)) p'
       /\ errors p' = errors p ++ [no_prefix_message (peek_tok p)].
Proof.
  intros p. split; [reflexivity|]. split; [reflexivity|].
  exact (C3_return_semicolon p 0 eq_refl eq_refl).
Defined.

(** C4, as stated, fails: with a brace as the current token,
    [parse_expression] returns no node and reports that the token has no
    prefix parse function. *)
Lemma C4_brace_is_not_a_literal :
  parse_expression 1 LOWEST
    (parser_init [mk_token LBRACE "{"; mk_token IDENT "a"; mk_token RBRACE "}"])
  = Returns None
      {| lexer := [mk_token RBRACE "}"];
         cur_tok := mk_token LBRACE "{";
         peek_tok := mk_token IDENT "a";
         errors := [no_prefix_message (mk_token LBRACE "{")] |}.
Proof. reflexivity. Qed.

(** C4, amended: the prefix parse function table has an entry exactly for
    IDENT, INT, MINUS, BANG, LPAREN, FUNCTION, IF, TRUE and FALSE.  There is
    no bracket token, and for a token stream whose current token is a brace
    [parse_expression] returns null and records "no prefix parse function
    for the token" with the literal of the brace: the parser has no array or
    hash literal. *)
Theorem C4_prefix_table (p : parser_t) (prec : operator_precedence_t) (fuel : nat) :
  type (cur_tok p) = LBRACE ->
  (forall t, is_Some (table_entry prefix_fns t) <-> In t prefix_kinds)
  /\ (forall t, token_type_ident t <> "LBRACKET")
  /\ parse_expression (S fuel) prec p
     = Returns None (add_parse_error p (no_prefix_message (cur_tok p))).
Proof.
  intros Hcur. split; [apply table_entry_prefix|]. split.
  - intros t. destruct t; discriminate.
  - rewrite parse_expression_S, Hcur. reflexivity.
Qed.

Lemma C4_prefix_table_witness :
  let p := parser_init [mk_token LBRACE "{"; mk_token RBRACE "}"] in
  type (cur_tok p) = LBRACE
  /\ parse_expression 1 LOWEST p
     = Returns None (add_parse_error p (no_prefix_message (cur_tok p))).
Proof.
  intros p. split; [reflexivity|].
  exact (proj2 (proj2 (C4_prefix_table p LOWEST 0 eq_refl))).
Defined.

(** ** The parser: precedence climbing *)

Section Climbing.

Lemma parser_at_init (ts : list token) : parser_init ts = parser_at ts [].
Proof. by destruct ts as [|t0 [|t1 ts]]. Qed.

Lemma parser_at_next (t : token) (ts : list token) (errs : list string) :
  parser_next_token (parser_at (t :: ts) errs) = parser_at ts errs.
Proof. by destruct ts as [|t1 [|t2 ts]]. Qed.

Lemma parser_at_cur (t : token) (ts : list token) (errs : list string) :
  cur_tok (parser_at (t :: ts) errs) = t.
Proof. reflexivity. Qed.

Lemma parser_at_peek (t t' : token) (ts : list token) (errs : list string) :
  peek_tok (parser_at (t :: t' :: ts) errs) = t'.
Proof. reflexivity. Qed.

Lemma parser_at_error (ts : list token) (errs : list string) (msg : string) :
  add_parse_error (parser_at ts errs) msg = parser_at ts (errs ++ [msg]).
Proof. reflexivity. Qed.

Lemma parser_at_peeked (t : token) (rest : list token) (errs : list string) :
  peek_tok (parser_at (t :: rest) errs) = peeked rest.
Proof. by destruct rest. Qed.

Lemma yields_const {A : Type} (r : outcome A) (f : nat -> outcome A) (n : nat) :
  (forall fuel, (n <= fuel)%nat -> f fuel = r) -> yields f r.
Proof. intros H. by exists n. Qed.

(** The prefix parse function of an operand. *)
Lemma parse_operand (fuel : nat) (prec : operator_precedence_t)
    (t : token) (rest : list token) (errs : list string) :
  is_operand t = true ->
  parse_expression (S fuel) prec (parser_at (t :: rest) errs)
  = infix_loop fuel prec (Some (operand_expression t))
      (parser_at (t :: rest) (errs ++ operand_errors t)).
Proof.
  intros Ht. rewrite parse_expression_S, parser_at_cur.
  unfold operand_expression, operand_errors.
  destruct t as [ty lit].
  destruct ty; try (vm_compute in Ht; discriminate Ht); simpl.
  - by rewrite app_nil_r.
  - unfold parse_integer_expression. simpl.
    destruct (integer_conversion_failed _); simpl; [done|]. by rewrite app_nil_r.
  - by rewrite app_nil_r.
  - by rewrite app_nil_r.
Qed.

(** The loop stops in front of a token of a level that is not above the
    minimum. *)
Lemma infix_loop_stops (fuel : nat) (prec : operator_precedence_t)
    (left_exp : option expression_t) (p : parser_t) :
  precedence_value (peek_precedence p) <= precedence_value prec ->
  infix_loop (S fuel) prec left_exp p = Returns left_exp p.
Proof.
  intros Hle. rewrite infix_loop_S. destruct (decide _); [done|].
  destruct (Z.geb_spec (precedence_value prec) (precedence_value (peek_precedence p)));
    [done | lia].
Qed.

(** The loop takes an operator of a level above the minimum. *)
Lemma infix_loop_operator (fuel : nat) (prec : operator_precedence_t)
    (left_exp : option expression_t) (t op : token) (rest : list token)
    (errs : list string) :
  is_operator op = true ->
  precedence_value prec < precedence_value (precedence (type op)) ->
  infix_loop (S fuel) prec left_exp (parser_at (t :: op :: rest) errs)
  = bind (parse_expression fuel (precedence (type op)) (parser_at rest errs))
      (fun rhs p =>
         infix_loop fuel prec (Some (InfixExpression op (literal op) left_exp rhs)) p).
Proof.
  intros Hop Hlt. rewrite infix_loop_S, parser_at_peek.
  rewrite !parser_at_next.
  unfold peek_precedence. rewrite parser_at_peek.
  destruct (Z.geb_spec (precedence_value prec) (precedence_value (precedence (type op))));
    [lia|].
  unfold parse_infix_expression, cur_precedence.
  rewrite parser_at_next, parser_at_cur.
  destruct op as [ty lit].
  destruct ty; try (vm_compute in Hop; discriminate Hop); simpl;
    by destruct (parse_expression fuel _ _).
Qed.

Lemma operator_level (op : token) :
  is_operator op = true ->
  precedence_value LOWEST < precedence_value (precedence (type op)).
Proof.
  intros Hop. destruct op as [ty lit].
  destruct ty; try (vm_compute in Hop; discriminate Hop); simpl; lia.
Qed.

(** Precedence climbing: on the tokens of a tree that respects the
    precedences, [parse_expression] reaches its loop with the node of the
    tree as the left expression, provided the minimum is below the root
    and what follows is not above it. *)
Lemma climb (e : operation) :
  well_tokened e = true -> precedence_shaped e = true ->
  forall (prec : operator_precedence_t) (rest : list token) (errs : list string)
         (r : outcome (option expression_t)),
    (forall o, root_level e = Some o ->
               precedence_value prec < o
               /\ precedence_value (precedence (type (peeked rest))) <= o) ->
    yields (fun fuel =>
              infix_loop fuel prec (Some (operation_expression e))
                (parser_at (last_token e :: rest) (errs ++ operation_errors e))) r ->
    yields (fun fuel =>
              parse_expression fuel prec (parser_at (infix_tokens e ++ rest) errs)) r.
Proof.
  induction e as [t|op lhs IHl rhs IHr]; intros Hwt Hsh prec rest errs r Hlev [n Hn].
  - exists (S n). intros [|fuel] Hfuel; [lia|].
    cbn [infix_tokens app operation_expression last_token operation_errors] in *.
    rewrite parse_operand by done. apply Hn. lia.
  - simpl in Hwt, Hsh.
    apply andb_prop in Hwt as [[Hop Hwl]%andb_prop Hwr].
    apply andb_prop in Hsh as [[[Hsl Hsr]%andb_prop Hll]%andb_prop Hlr].
    destruct (Hlev _ eq_refl) as [Hprec Hrest].
    set (lv := precedence_value (precedence (type op))) in *.
    unfold level_at_least in Hll. unfold level_above in Hlr.
    simpl infix_tokens. rewrite <- app_assoc. simpl app.
    (* the right operand, read at the level of [op] *)
    destruct (IHr Hwr Hsr (precedence (type op)) rest (errs ++ operation_errors lhs)
                (Returns (Some (operation_expression rhs))
                   (parser_at (last_token rhs :: rest)
                      ((errs ++ operation_errors lhs) ++ operation_errors rhs))))
      as [nr Hnr].
    { intros o Ho. rewrite Ho in Hlr. apply Z.ltb_lt in Hlr. fold lv. lia. }
    { exists 1%nat. intros [|fuel] Hfuel; [lia|].
      apply infix_loop_stops. unfold peek_precedence.
      rewrite parser_at_peeked. fold lv. lia. }
    apply IHl; [done|done| |].
    { intros o Ho. rewrite Ho in Hll. apply Z.leb_le in Hll.
      split; [lia|]. simpl. fold lv. lia. }
    exists (S (Nat.max n nr)). intros [|fuel] Hfuel; [lia|].
    rewrite infix_loop_operator by done.
    rewrite Hnr by lia. cbn [bind].
    cbn [operation_expression last_token operation_errors] in Hn.
    rewrite app_assoc in Hn. apply Hn. lia.
Qed.

(** [attach] keeps the tokens in order and the precedences respected. *)
Lemma attach_tokens (e : operation) (op b : token) :
  infix_tokens (attach e op b) = infix_tokens e ++ [op; b].
Proof.
  induction e as [t|o lhs IHl rhs IHr]; simpl; [done|].
  destruct (_ <? _); simpl.
  - rewrite IHr. rewrite <- app_assoc. reflexivity.
  - done.
Qed.

Lemma attach_well_tokened (e : operation) (op b : token) :
  well_tokened e = true -> is_operator op = true -> is_operand b = true ->
  well_tokened (attach e op b) = true.
Proof.
  intros He Hop Hb. induction e as [t|o lhs IHl rhs IHr]; simpl in *.
  - by rewrite Hop, He, Hb.
  - apply andb_prop in He as [[Ho Hl]%andb_prop Hr].
    destruct (_ <? _); simpl.
    + by rewrite Ho, Hl, IHr.
    + by rewrite Hop, Ho, Hl, Hr, Hb.
Qed.

Lemma attach_level (e : operation) (op b : token) (bound : Z) :
  level_above bound e = true ->
  bound < precedence_value (precedence (type op)) ->
  level_above bound (attach e op b) = true.
Proof.
  intros He Hop. unfold level_above in *.
  destruct e as [t|o lhs rhs]; simpl in *.
  - by apply Z.ltb_lt.
  - destruct (precedence_value (precedence (type o)) <? precedence_value (precedence (type op)));
      simpl; [done|]. by apply Z.ltb_lt.
Qed.

Lemma attach_shaped (e : operation) (op b : token) :
  precedence_shaped e = true -> precedence_shaped (attach e op b) = true.
Proof.
  induction e as [t|o lhs IHl rhs IHr]; intros He; simpl in *; [done|].
  apply andb_prop in He as [[[Hl Hr]%andb_prop Hll]%andb_prop Hlr].
  destruct (Z.ltb_spec (precedence_value (precedence (type o)))
              (precedence_value (precedence (type op)))) as [Hlt|Hge]; simpl.
  - rewrite Hl, IHr, Hll by done. simpl. by apply attach_level.
  - rewrite Hl, Hr, Hll, Hlr. simpl. unfold level_at_least. simpl.
    rewrite andb_true_r. by apply Z.leb_le.
Qed.

Lemma shape_spec (a : token) (rest : list (token * token)) :
  is_operand a = true -> operators_and_operands rest = true ->
  infix_tokens (shape a rest) = flat_tokens a rest
  /\ well_tokened (shape a rest) = true
  /\ precedence_shaped (shape a rest) = true.
Proof.
  intros Ha Hrest. unfold shape, flat_tokens.
  change (a :: flat_map (fun '(op, b) => [op; b]) rest)
    with (infix_tokens (Operand a) ++ flat_map (fun '(op, b) => [op; b]) rest).
  assert (Hw : well_tokened (Operand a) = true) by exact Ha.
  assert (Hs : precedence_shaped (Operand a) = true) by reflexivity.
  revert Hw Hs. generalize (Operand a). clear Ha.
  induction rest as [|[op b] rest IH]; intros e Hw Hs; simpl.
  - by rewrite app_nil_r.
  - simpl in Hrest. apply andb_prop in Hrest as [[Hop Hb]%andb_prop Hrest].
    destruct (IH Hrest (attach e op b)) as (Ht & Hw' & Hs').
    + by apply attach_well_tokened.
    + by apply attach_shaped.
    + rewrite Ht, attach_tokens, <- app_assoc. done.
Qed.

(** The parser reads a flat expression as the tree of its precedences. *)
Lemma parse_flat (a : token) (ops : list (token * token)) (rest : list token)
    (errs : list string) :
  is_operand a = true -> operators_and_operands ops = true ->
  precedence (type (peeked rest)) = LOWEST ->
  yields (fun fuel =>
            parse_expression fuel LOWEST (parser_at (flat_tokens a ops ++ rest) errs))
    (Returns (Some (operation_expression (shape a ops)))
       (parser_at (last_token (shape a ops) :: rest)
          (errs ++ operation_errors (shape a ops)))).
Proof.
  intros Ha Hops Hrest.
  destruct (shape_spec a ops Ha Hops) as (Htok & Hwt & Hsh).
  rewrite <- Htok. apply climb; [done|done| |].
  - intros o Ho. rewrite Hrest. simpl.
    destruct (shape a ops) as [t|op lhs rhs]; [done|].
    simpl in Ho. injection Ho as <-. simpl in Hwt.
    apply andb_prop in Hwt as [[Hop _]%andb_prop _].
    pose proof (operator_level op Hop). simpl in *. lia.
  - exists 1%nat. intros [|fuel] Hfuel; [lia|].
    apply infix_loop_stops. unfold peek_precedence.
    rewrite parser_at_peeked, Hrest. lia.
Qed.

End Climbing.

(** C1: [parse_expression] is precedence climbing.  The levels are EQUALS for
    [==] and [!=], LESSGREATER for [<] and [>], SUM for [+] and [-], PRODUCT
    for [*] and [/] and CALL for the parenthesis, in this order.  After the
    prefix parse function has returned the left expression, the loop goes on
    exactly while the peek token is no semicolon and the minimum precedence
    is strictly below the precedence of the peek token, applying the infix
    parse function of that token.  Consequently every expression
    [a op1 b1 op2 b2 ...] over the binary operators is read as the tree in
    which a tighter operator takes its operands first and operators of one
    level group to the left; the tokens of [1 + 2 * 3] give the tree whose
    string form is [(1 + (2 * 3))]. *)
Theorem C1_precedence_climbing :
  (precedence EQ = EQUALS /\ precedence NOT_EQ = EQUALS
   /\ precedence LT = LESSGREATER /\ precedence GT = LESSGREATER
   /\ precedence PLUS = SUM /\ precedence MINUS = SUM
   /\ precedence ASTERISK = PRODUCT /\ precedence SLASH = PRODUCT
   /\ precedence LPAREN = CALL
   /\ precedence_value LOWEST < precedence_value EQUALS
       < precedence_value LESSGREATER
   /\ precedence_value LESSGREATER < precedence_value SUM
       < precedence_value PRODUCT
   /\ precedence_value PRODUCT < precedence_value PREFIX
       < precedence_value CALL)
  /\ (forall fuel prec left_exp p,
        type (peek_tok p) = SEMICOLON
        \/ precedence_value (peek_precedence p) <= precedence_value prec ->
        infix_loop (S fuel) prec left_exp p = Returns left_exp p)
  /\ (forall fuel prec left_exp p,
        type (peek_tok p) <> SEMICOLON ->
        precedence_value prec < precedence_value (peek_precedence p) ->
        exists infix_fn,
          table_entry infix_fns (type (peek_tok p)) = Some infix_fn
          /\ infix_loop (S fuel) prec left_exp p
             = bind match infix_fn with
                    | parse_infix_expression_fn =>
                        parse_infix_expression (parse_expression fuel) left_exp
                          (parser_next_token p)
                    | parse_call_expression_fn =>
                        parse_call_expression fuel left_exp (parser_next_token p)
                    end (infix_loop fuel prec))
  /\ (forall a ops rest errs,
        is_operand a = true -> operators_and_operands ops = true ->
        precedence (type (peeked rest)) = LOWEST ->
        infix_tokens (shape a ops) = flat_tokens a ops
        /\ precedence_shaped (shape a ops) = true
        /\ yields (fun fuel =>
                     parse_expression fuel LOWEST
                       (parser_at (flat_tokens a ops ++ rest) errs))
             (Returns (Some (operation_expression (shape a ops)))
                (parser_at (last_token (shape a ops) :: rest)
                   (errs ++ operation_errors (shape a ops)))))
  /\ (forall a b c o1 o2,
        shape a [(o1, b); (o2, c)]
        = if precedence_value (precedence (type o1))
             <? precedence_value (precedence (type o2))
          then Operation o1 (Operand a) (Operation o2 (Operand b) (Operand c))
          else Operation o2 (Operation o1 (Operand a) (Operand b)) (Operand c))
  /\ (exists prog p,
        parse_program 8
          (parser_init [mk_token INT "1"; mk_token PLUS "+"; mk_token INT "2";
                        mk_token ASTERISK "*"; mk_token INT "3"])
        = Returns prog p
        /\ errors p = []
        /\ program_string prog = Text (Some "(1 + (2 * 3))")).
Proof.
  split; [repeat split; reflexivity|].
  split.
  { intros fuel prec left_exp p [Hsemi|Hlow].
    - rewrite infix_loop_S. by destruct (decide _).
    - by apply infix_loop_stops. }
  split.
  { intros fuel prec left_exp p Hsemi Hlt. rewrite infix_loop_S.
    destruct (decide _); [done|].
    destruct (Z.geb_spec (precedence_value prec) (precedence_value (peek_precedence p)));
      [lia|].
    unfold peek_precedence in Hlt.
    assert (1 <= precedence_value prec) by (destruct prec; simpl; lia).
    destruct (type (peek_tok p)); simpl in Hlt; try lia; eexists; split; reflexivity. }
  split.
  { intros a ops rest errs Ha Hops Hrest.
    destruct (shape_spec a ops Ha Hops) as (Htok & _ & Hsh).
    split; [done|]. split; [done|]. by apply parse_flat. }
  split.
  { intros a b c o1 o2. unfold shape. simpl. by destruct (_ <? _). }
  eexists _, _. split; [vm_compute; reflexivity|]. split; [reflexivity|].
  vm_compute. reflexivity.
Qed.

Lemma C1_precedence_climbing_witness :
  let one := mk_token INT "1" in
  let two := mk_token INT "2" in
  let three := mk_token INT "3" in
  let plus := mk_token PLUS "+" in
  let times := mk_token ASTERISK "*" in
  is_operand one = true
  /\ operators_and_operands [(plus, two); (times, three)] = true
  /\ precedence (type (peeked [])) = LOWEST
  /\ shape one [(plus, two); (times, three)]
     = Operation plus (Operand one) (Operation times (Operand two) (Operand three))
  /\ yields (fun fuel =>
               parse_expression fuel LOWEST
                 (parser_at [one; plus; two; times; three] []))
       (Returns
          (Some (operation_expression
                   (Operation plus (Operand one)
                      (Operation times (Operand two) (Operand three)))))
          (parser_at [three] [])).
Proof.
  intros one two three plus times.
  split; [reflexivity|]. split; [reflexivity|]. split; [reflexivity|].
  split; [reflexivity|].
  exact (proj2 (proj2
    (proj1 (proj2 (proj2 (proj2 C1_precedence_climbing)))
       one [(plus, two); (times, three)] [] [] eq_refl eq_refl eq_refl))).
Defined.

(** ** Printing a program and reading it back *)

Section RoundTripFacts.

(** Induction on a structure, with the hypothesis for every argument of a
    call. *)
Lemma simple_ind (P : simple -> Prop) :
  (forall name, P (SIdent name)) ->
  (forall n, P (SInt n)) ->
  (forall b, P (SBool b)) ->
  (forall op e, P e -> P (SPrefix op e)) ->
  (forall op lhs rhs, P lhs -> P rhs -> P (SInfix op lhs rhs)) ->
  (forall f args, P f -> Forall P args -> P (SCall f args)) ->
  forall s, P s.
Proof.
  intros Hid Hint Hbool Hpre Hin Hcall.
  fix IH 1. intros [name|n|b|op e|op lhs rhs|f args].
  - apply Hid.
  - apply Hint.
  - apply Hbool.
  - apply Hpre, IH.
  - apply Hin; apply IH.
  - apply Hcall; [apply IH|].
    induction args as [|a args IHargs]; constructor; [apply IH | exact IHargs].
Qed.

Lemma prefix_of_string_token (op : prefix_operator) :
  prefix_of_string (literal (prefix_token op)) = Some op.
Proof. by destruct op. Qed.

Lemma infix_of_string_token (op : infix_operator) :
  infix_of_string (literal (infix_token op)) = Some op.
Proof. by destruct op. Qed.

Lemma prefix_of_string_Some (s : string) (op : prefix_operator) :
  prefix_of_string s = Some op -> s = literal (prefix_token op).
Proof.
  unfold prefix_of_string. intros H. apply find_some in H as [_ H].
  by apply String.eqb_eq in H.
Qed.

Lemma infix_of_string_Some (s : string) (op : infix_operator) :
  infix_of_string s = Some op -> s = literal (infix_token op).
Proof.
  unfold infix_of_string. intros H. apply find_some in H as [_ H].
  by apply String.eqb_eq in H.
Qed.

(** The node that the parser builds has the structure it was built for. *)
Lemma structure_of_reparsed (s : simple) : structure_of (reparsed s) = Some s.
Proof.
  induction s as [name|n|b|op e IH|op lhs rhs IHl IHr|f args IHf IHargs]
    using simple_ind; simpl; try reflexivity.
  - by rewrite prefix_of_string_token, IH.
  - by rewrite infix_of_string_token, IHl, IHr.
  - rewrite IHf.
    assert (Hargs : all_some
              (map (fun a => match a with
                             | Some x => structure_of x
                             | None => None
                             end) (map (fun a => Some (reparsed a)) args))
            = Some args).
    { induction IHargs as [|a args Ha _ IH]; simpl; [done|]. by rewrite Ha, IH. }
    by rewrite Hargs.
Qed.

Lemma all_some_cons_inv {A : Type} (l : list (option A)) (xs : list A) :
  all_some l = Some xs -> l = map Some xs.
Proof.
  revert xs. induction l as [|[a|] l IH]; intros xs; simpl.
  - by intros [= <-].
  - destruct (all_some l); [|done]. intros [= <-]. simpl. f_equal. by apply IH.
  - done.
Qed.

Lemma all_some_Forall2 (arguments : list (option expression_t)) (args : list simple) :
  all_some (map (fun a => match a with
                          | Some x => structure_of x
                          | None => None
                          end) arguments) = Some args ->
  exists eargs, arguments = map Some eargs
                /\ Forall2 (fun a s => structure_of a = Some s) eargs args.
Proof.
  revert args. induction arguments as [|[a|] l IH]; intros args; simpl.
  - intros [= <-]. exists []. split; [done|constructor].
  - destruct (structure_of a) as [sa|] eqn:Ha; [|done].
    destruct (all_some _) as [xs|] eqn:Hl; [|done]. intros [= <-].
    destruct (IH xs eq_refl) as (eargs & -> & Hall).
    exists (a :: eargs). split; [done|]. by constructor.
  - done.
Qed.

(** What a node with a given structure looks like. *)
Lemma structure_of_inv (e : expression_t) (s : simple) :
  structure_of e = Some s ->
  match s with
  | SIdent name => exists id, e = IdentifierExpression id /\ ident_value id = name
  | SInt n => exists tok, e = IntegerExpression tok n
  | SBool b => exists tok, e = BooleanExpression tok b
  | SPrefix op s' =>
      exists tok e', e = PrefixExpression tok (literal (prefix_token op)) (Some e')
                     /\ structure_of e' = Some s'
  | SInfix op l r =>
      exists tok el er,
        e = InfixExpression tok (literal (infix_token op)) (Some el) (Some er)
        /\ structure_of el = Some l /\ structure_of er = Some r
  | SCall f args =>
      exists tok ef eargs,
        e = CallExpression tok (Some ef) (map Some eargs)
        /\ structure_of ef = Some f
        /\ Forall2 (fun a s => structure_of a = Some s) eargs args
  end.
Proof.
  destruct e as [id|tok n|tok op operand|tok op lhs rhs|tok b|tok c cs al|tok ps body
                |tok fn arguments]; simpl.
  - intros [= <-]. eauto.
  - intros [= <-]. eauto.
  - destruct operand as [x|]; [|done].
    destruct (prefix_of_string op) as [o|] eqn:Ho; [|done].
    destruct (structure_of x) as [sx|] eqn:Hx; [|done]. intros [= <-].
    apply prefix_of_string_Some in Ho as ->. eauto.
  - destruct lhs as [x|]; [|done]. destruct rhs as [y|]; [|done].
    destruct (infix_of_string op) as [o|] eqn:Ho; [|done].
    destruct (structure_of x) as [sx|] eqn:Hx; [|done].
    destruct (structure_of y) as [sy|] eqn:Hy; [|done]. intros [= <-].
    apply infix_of_string_Some in Ho as ->. eauto 10.
  - intros [= <-]. eauto.
  - done.
  - done.
  - destruct fn as [x|]; [|done].
    destruct (structure_of x) as [sx|] eqn:Hx; [|done].
    destruct (all_some _) as [args|] eqn:Hargs; [|done]. intros [= <-].
    destruct (all_some_Forall2 _ _ Hargs) as (eargs & -> & Hall). eauto 10.
Qed.

(** The loop of [generate_parameters_string] joins the strings. *)
Lemma parameters_loop_join (eargs : list expression_t) (texts : list string)
    (acc : string) :
  Forall2 (fun a t => expression_string a = Text (Some t)) eargs texts ->
  parameters_loop expression_string (map Some eargs) (Some acc)
  = Text (Some (fold_left (fun str t => str +:+ ", " +:+ t) texts acc)).
Proof.
  intros H. revert acc. induction H as [|a t eargs texts Ha _ IH]; intros acc; simpl.
  - done.
  - rewrite Ha. simpl. apply IH.
Qed.

Lemma append_assoc (a b c : string) : (a +:+ b) +:+ c = a +:+ (b +:+ c).
Proof. induction a as [|ch a IH]; simpl; [done|]. by rewrite IH. Qed.

Lemma fold_join (sep : string) (texts : list string) (t acc : string) :
  fold_left (fun str x => str +:+ sep +:+ x) texts (acc +:+ t)
  = acc +:+ join sep (t :: texts).
Proof.
  revert t acc. induction texts as [|x texts IH]; intros t acc; [done|].
  cbn [fold_left].
  replace ((acc +:+ t) +:+ sep +:+ x) with (((acc +:+ t) +:+ sep) +:+ x)
    by (by rewrite !append_assoc).
  rewrite IH.
  change (join sep (t :: x :: texts)) with (t +:+ sep +:+ join sep (x :: texts)).
  by rewrite !append_assoc.
Qed.

Lemma generate_parameters_string_join (eargs : list expression_t) (texts : list string) :
  Forall2 (fun a t => expression_string a = Text (Some t)) eargs texts ->
  generate_parameters_string expression_string (map Some eargs)
  = Text (Some (join ", " texts)).
Proof.
  intros H. destruct H as [|a t eargs texts Ha Hrest]; [done|].
  unfold generate_parameters_string. cbn [map parameters_loop string_of_ptr and_then].
  rewrite Ha. cbn [and_then percent_s].
  rewrite (parameters_loop_join _ _ _ Hrest).
  pose proof (fold_join ", " texts t EmptyString) as Hj.
  change (EmptyString +:+ t) with t in Hj. rewrite Hj. reflexivity.
Qed.

(** The string form of a node of the fragment is the text of its
    structure. *)
Lemma expression_string_render (s : simple) :
  well_formed s = true ->
  forall e, structure_of e = Some s -> expression_string e = Text (Some (render s)).
Proof.
  induction s as [name|n|b|op s IH|op lhs rhs IHl IHr|f args IHf IHargs]
    using simple_ind; intros Hwf e He; apply structure_of_inv in He.
  - destruct He as (id & -> & <-). reflexivity.
  - destruct He as (tok & ->). simpl. unfold integer_string.
    simpl in Hwf. apply andb_prop in Hwf as [H0 H1].
    apply Z.leb_le in H0, H1.
    rewrite long_to_string_decimal; [done|]. unfold LONG_MIN. lia.
  - destruct He as (tok & ->). by destruct b.
  - destruct He as (tok & e' & -> & He'). simpl. by rewrite (IH Hwf e' He').
  - destruct He as (tok & el & er & -> & Hel & Her).
    simpl in Hwf. apply andb_prop in Hwf as [Hwl Hwr].
    simpl. by rewrite (IHl Hwl el Hel), (IHr Hwr er Her).
  - destruct He as (tok & ef & eargs & -> & Hef & Heargs).
    simpl in Hwf. apply andb_prop in Hwf as [Hwf Hwargs].
    cbn [expression_string].
    rewrite (generate_parameters_string_join eargs (map render args)).
    + cbn [and_then string_of_ptr]. rewrite (IHf Hwf ef Hef). reflexivity.
    + clear -IHargs Hwargs Heargs.
      induction Heargs as [|a s eargs args Ha _ IH]; [constructor|].
      simpl in Hwargs. apply andb_prop in Hwargs as [Hs Hargs].
      apply Forall_cons in IHargs as [IHs IHargs].
      simpl. constructor; [by apply IHs | by apply IH].
Qed.

End RoundTripFacts.

Section LexerFacts.

Lemma tokenize_S (fuel : nat) (input : string) :
  tokenize (S fuel) input =
  let '(tok, rest) := next_token input in
  if decide (type tok = END_OF_FILE) then [] else tok :: tokenize fuel rest.
Proof. reflexivity. Qed.

Lemma lexes_nil (input : string) : lexes input [] input.
Proof. by intros fuel. Qed.

Lemma lexes_one (input rest : string) (tok : token) :
  next_token input = (tok, rest) -> type tok <> END_OF_FILE -> lexes input [tok] rest.
Proof.
  intros Hnext Htok fuel. simpl. rewrite Hnext. by destruct (decide _).
Qed.

Lemma lexes_app (a b c : string) (t1 t2 : list token) :
  lexes a t1 b -> lexes b t2 c -> lexes a (t1 ++ t2) c.
Proof.
  intros H1 H2 fuel. rewrite length_app, <- Nat.add_assoc, H1, H2.
  by rewrite app_assoc.
Qed.

Lemma lexes_cons (a b c : string) (tok : token) (ts : list token) :
  next_token a = (tok, b) -> type tok <> END_OF_FILE -> lexes b ts c ->
  lexes a (tok :: ts) c.
Proof. intros H1 H2 H3. apply (lexes_app a b c [tok] ts); [by apply lexes_one | done]. Qed.

(** White space in front of a token is skipped. *)
Lemma next_token_space (input : string) :
  next_token (String " " input) = next_token input.
Proof. reflexivity. Qed.

Lemma lexes_space (input rest : string) (ts : list token) :
  lexes input ts rest -> lexes (String " " input) ts rest.
Proof.
  intros H fuel. destruct ts as [|t ts].
  - specialize (H fuel). simpl in *. destruct fuel as [|fuel]; [done|].
    by rewrite tokenize_S, next_token_space, <- tokenize_S.
  - specialize (H fuel). simpl in *. by rewrite next_token_space.
Qed.

Lemma read_while_app (f : ascii -> bool) (word rest : string) :
  (forall c, In c (list_ascii_of_string word) -> f c = true) ->
  match rest with String c _ => f c = false | EmptyString => True end ->
  read_while f (word +:+ rest) = (word, rest).
Proof.
  intros Hword Hrest. induction word as [|c word IH]; simpl.
  - destruct rest as [|c rest]; [done|]. simpl. by rewrite Hrest.
  - rewrite (Hword c) by (simpl; auto). rewrite IH; [done|].
    intros c' Hc'. apply Hword. simpl; auto.
Qed.

Lemma all_ident_chars_In (s : string) :
  all_ident_chars s = true ->
  forall c, In c (list_ascii_of_string s) -> is_ident_char c = true.
Proof.
  induction s as [|c s IH]; simpl; [tauto|].
  intros [Hc Hs]%andb_prop c' [<-|Hin]; auto.
Qed.

Lemma boundary_spec (rest : string) (f : ascii -> bool) :
  (forall c, f c = true -> is_ident_char c = true) ->
  boundary rest = true ->
  match rest with String c _ => f c = false | EmptyString => True end.
Proof.
  intros Hf. destruct rest as [|c rest]; [done|]. simpl.
  intros Hb%negb_true_iff. destruct (f c) eqn:E; [|done].
  apply Hf in E. congruence.
Qed.

(** A letter starts a word and nothing else. *)
Lemma letter_starts_word (c : ascii) :
  is_letter c = true ->
  is_whitespace c = false /\ Ascii.eqb c "=" = false /\ Ascii.eqb c "!" = false
  /\ one_char_kind one_char_kinds c = None /\ is_ident_char c = true.
Proof.
  destruct c as [[] [] [] [] [] [] [] []]; vm_compute; intuition discriminate.
Qed.

Lemma digit_starts_number (c : ascii) :
  isdigit c = true ->
  is_whitespace c = false /\ Ascii.eqb c "=" = false /\ Ascii.eqb c "!" = false
  /\ one_char_kind one_char_kinds c = None /\ is_letter c = false
  /\ is_ident_char c = true.
Proof.
  destruct c as [[] [] [] [] [] [] [] []]; vm_compute; intuition discriminate.
Qed.

Lemma next_token_identifier (name rest : string) :
  is_identifier name = true -> boundary rest = true ->
  next_token (name +:+ rest) = (mk_token IDENT name, rest).
Proof.
  intros Hname Hrest. destruct name as [|c name]; [done|].
  simpl in Hname. apply andb_prop in Hname as [[Hc Hname]%andb_prop Hkw].
  apply bool_decide_eq_true in Hkw.
  destruct (letter_starts_word c Hc) as (Hws & Heq & Hbang & Hone & Hid).
  unfold next_token.
  change (String c name +:+ rest) with (String c (name +:+ rest)).
  cbn [skip_whitespace]. rewrite Hws, Heq, Hbang, Hone, Hc.
  pose proof (read_while_app is_ident_char (String c name) rest) as Hread.
  change (String c name +:+ rest) with (String c (name +:+ rest)) in Hread.
  rewrite Hread.
  - by rewrite Hkw.
  - intros c' [<-|Hin]; [done|]. by eapply all_ident_chars_In.
  - by apply boundary_spec.
Qed.

Lemma next_token_keyword (word rest : string) (t : token_type) :
  In (word, t) keywords -> boundary rest = true ->
  next_token (word +:+ rest) = (mk_token t word, rest).
Proof.
  intros Hin Hrest.
  assert (Hb : match rest with
               | String c _ => is_ident_char c = false
               | EmptyString => True
               end) by (by apply boundary_spec).
  simpl in Hin.
  repeat (destruct Hin as [[= <- <-]|Hin];
          [unfold next_token; simpl;
           destruct rest as [|c rest]; [reflexivity|];
           simpl; rewrite Hb; reflexivity|]).
  destruct Hin.
Qed.

Lemma next_token_number (digits rest : string) :
  canonical_digits digits = true -> boundary rest = true ->
  next_token (digits +:+ rest) = (mk_token INT digits, rest).
Proof.
  intros Hd Hrest. destruct digits as [|c digits]; [done|].
  unfold canonical_digits in Hd. apply andb_prop in Hd as [Hall _].
  pose proof Hall as Hall'. simpl in Hall'. apply andb_prop in Hall' as [Hc Hds].
  destruct (digit_starts_number c Hc) as (Hws & Heq & Hbang & Hone & Hletter & Hid).
  unfold next_token.
  change (String c digits +:+ rest) with (String c (digits +:+ rest)).
  cbn [skip_whitespace]. rewrite Hws, Heq, Hbang, Hone, Hletter, Hc.
  pose proof (read_while_app isdigit (String c digits) rest) as Hread.
  change (String c digits +:+ rest) with (String c (digits +:+ rest)) in Hread.
  rewrite Hread; [done| |].
  - intros c' Hc'. by apply (all_digits_In (String c digits)).
  - apply boundary_spec; [|done]. intros x Hx. unfold is_ident_char.
    rewrite Hx. apply orb_true_r.
Qed.


Lemma decimal_canonical (n : Z) : 0 <= n -> canonical_digits (decimal n) = true.
Proof.
  intros Hn. unfold decimal. destruct (Z.ltb_spec n 0); [lia|].
  by apply digits_loop_canonical.
Qed.

(** The text of a structure starts with a letter, a digit or a
    parenthesis. *)
Lemma render_head (s : simple) :
  well_formed s = true ->
  exists c r, render s = String c r
              /\ (is_letter c = true \/ isdigit c = true \/ c = "("%char).
Proof.
  induction s as [name|n|b|op e IH|op lhs rhs IHl IHr|f args IHf IHargs]
    using simple_ind; intros Hwf; simpl in *.
  - destruct name as [|c name]; [done|]. exists c, name. split; [done|]. left.
    by apply andb_prop in Hwf as [[Hc _]%andb_prop _].
  - apply andb_prop in Hwf as [H0%Z.leb_le _].
    pose proof (decimal_canonical n H0) as Hc.
    destruct (decimal n) as [|c r]; [done|]. exists c, r. split; [done|]. right; left.
    unfold canonical_digits in Hc. simpl in Hc.
    by apply andb_prop in Hc as [[Hc _]%andb_prop _].
  - destruct b; eexists _, _; (split; [reflexivity|]); left; reflexivity.
  - eexists _, _. split; [reflexivity|]. by right; right.
  - eexists _, _. split; [reflexivity|]. by right; right.
  - apply andb_prop in Hwf as [Hf _].
    destruct (IHf Hf) as (c & r & -> & Hc). eexists _, _. split; [reflexivity|]. exact Hc.
Qed.

Lemma render_not_equals (s : simple) (rest : string) :
  well_formed s = true -> followed_by_equals (render s +:+ rest) = false.
Proof.
  intros Hwf. destruct (render_head s Hwf) as (c & r & -> & Hc). simpl.
  destruct Hc as [Hc|[Hc| ->]]; [| |done].
  - by destruct (letter_starts_word c Hc) as (_ & -> & _).
  - by destruct (digit_starts_number c Hc) as (_ & -> & _).
Qed.

Lemma next_token_prefix (op : prefix_operator) (s : simple) (rest : string) :
  well_formed s = true ->
  next_token (literal (prefix_token op) +:+ render s +:+ rest)
  = (prefix_token op, render s +:+ rest).
Proof.
  intros Hwf. destruct op; [reflexivity|].
  unfold next_token. simpl. by rewrite render_not_equals.
Qed.

Lemma next_token_infix (op : infix_operator) (rest : string) :
  next_token (literal (infix_token op) +:+ String " " rest)
  = (infix_token op, String " " rest).
Proof. by destruct op. Qed.

Lemma prefix_token_not_eof (op : prefix_operator) :
  type (prefix_token op) <> END_OF_FILE.
Proof. by destruct op. Qed.

Lemma infix_token_not_eof (op : infix_operator) :
  type (infix_token op) <> END_OF_FILE.
Proof. by destruct op. Qed.

(** The lexer reads the text of a structure as its tokens. *)
Lemma lexes_render (s : simple) :
  well_formed s = true ->
  forall rest, boundary rest = true ->
  lexes (render s +:+ rest) (tokens_of s) rest.
Proof.
  induction s as [name|n|b|op e IH|op lhs rhs IHl IHr|f args IHf IHargs]
    using simple_ind; intros Hwf rest Hrest; simpl in Hwf.
  - apply lexes_one; [by apply next_token_identifier | done].
  - apply andb_prop in Hwf as [H0%Z.leb_le _].
    apply lexes_one; [|done]. apply next_token_number; [|done].
    by apply decimal_canonical.
  - destruct b; (apply lexes_one; [|done]);
      (apply next_token_keyword; [simpl; tauto | done]).
  - cbn [render tokens_of]. rewrite !append_assoc.
    apply (lexes_cons _ (literal (prefix_token op) +:+ render e +:+ ")" +:+ rest));
      [reflexivity | done |].
    apply (lexes_cons _ (render e +:+ ")" +:+ rest));
      [by apply next_token_prefix | apply prefix_token_not_eof |].
    apply (lexes_app _ (")" +:+ rest)); [by apply IH|].
    by apply lexes_one.
  - apply andb_prop in Hwf as [Hwl Hwr].
    cbn [render tokens_of]. rewrite !append_assoc.
    apply (lexes_cons _ (render lhs +:+ " " +:+ literal (infix_token op) +:+ " "
                           +:+ render rhs +:+ ")" +:+ rest));
      [reflexivity | done |].
    apply (lexes_app _ (" " +:+ literal (infix_token op) +:+ " "
                          +:+ render rhs +:+ ")" +:+ rest)); [by apply IHl|].
    apply lexes_space.
    apply (lexes_cons _ (String " " (render rhs +:+ ")" +:+ rest)));
      [apply next_token_infix | apply infix_token_not_eof |].
    apply lexes_space.
    apply (lexes_app _ (")" +:+ rest)); [by apply IHr|].
    by apply lexes_one.
  - apply andb_prop in Hwf as [Hwf Hwargs].
    cbn [render tokens_of]. rewrite !append_assoc.
    apply (lexes_app _ ("(" +:+ join ", " (map render args) +:+ ")" +:+ rest));
      [by apply IHf|].
    apply (lexes_cons _ (join ", " (map render args) +:+ ")" +:+ rest));
      [reflexivity | done |].
    apply (lexes_app _ (")" +:+ rest)); [|by apply lexes_one].
    clear IHf Hwf f.
    induction args as [|a args IHl]; [apply lexes_nil|].
    apply Forall_cons in IHargs as [IHa IHargs].
    simpl in Hwargs. apply andb_prop in Hwargs as [Hwa Hwargs].
    destruct args as [|b args].
    + simpl. by apply IHa.
    + change (join ", " (map render (a :: b :: args)))
        with (render a +:+ ", " +:+ join ", " (map render (b :: args))).
      change (join_tokens (mk_token COMMA ",") (map tokens_of (a :: b :: args)))
        with (tokens_of a ++ mk_token COMMA ","
                :: join_tokens (mk_token COMMA ",") (map tokens_of (b :: args))).
      rewrite !append_assoc.
      apply (lexes_app _ (", " +:+ join ", " (map render (b :: args)) +:+ ")" +:+ rest));
        [by apply IHa|].
      apply (lexes_cons _ (String " " (join ", " (map render (b :: args)) +:+ ")" +:+ rest)));
        [reflexivity | done |].
      apply lexes_space. by apply IHl.
Qed.

(** A token takes at least one character. *)
Lemma read_while_length (f : ascii -> bool) (s word rest : string) :
  read_while f s = (word, rest) ->
  (String.length s = String.length word + String.length rest)%nat.
Proof.
  revert word rest. induction s as [|c s IH]; intros word rest; simpl.
  - by intros [= <- <-].
  - destruct (f c).
    + destruct (read_while f s) as [w r]. intros [= <- <-]. simpl.
      f_equal. by apply IH.
    + by intros [= <- <-].
Qed.

Lemma skip_whitespace_length (s : string) :
  (String.length (skip_whitespace s) <= String.length s)%nat.
Proof.
  induction s as [|c s IH]; simpl; [done|]. destruct (is_whitespace c); simpl; lia.
Qed.

Lemma string_tail_length (s : string) :
  (String.length (string_tail s) <= String.length s)%nat.
Proof. destruct s; simpl; lia. Qed.

Lemma next_token_shorter (input rest : string) (tok : token) :
  next_token input = (tok, rest) -> type tok <> END_OF_FILE ->
  (String.length rest < String.length input)%nat.
Proof.
  unfold next_token. pose proof (skip_whitespace_length input) as Hskip.
  destruct (skip_whitespace input) as [|c s]; [by intros [= <- <-]|].
  simpl in Hskip. pose proof (string_tail_length s).
  destruct (Ascii.eqb c "=").
  { destruct (followed_by_equals s); intros [= <- <-] _; lia. }
  destruct (Ascii.eqb c "!").
  { destruct (followed_by_equals s); intros [= <- <-] _; lia. }
  destruct (one_char_kind one_char_kinds c); [intros [= <- <-] _; lia|].
  destruct (is_letter c) eqn:Hletter.
  { destruct (read_while is_ident_char (String c s)) as [w r] eqn:Hread.
    intros [= <- <-] _. pose proof (read_while_length _ _ _ _ Hread) as Hlen.
    simpl in Hread. unfold is_ident_char in Hread at 1. rewrite Hletter in Hread.
    simpl in Hread. destruct (read_while is_ident_char s).
    injection Hread as <- <-. simpl in Hlen. lia. }
  destruct (isdigit c) eqn:Hdigit; [|intros [= <- <-] _; lia].
  destruct (read_while isdigit (String c s)) as [w r] eqn:Hread.
  intros [= <- <-] _. pose proof (read_while_length _ _ _ _ Hread) as Hlen.
  simpl in Hread. rewrite Hdigit in Hread. destruct (read_while isdigit s).
  injection Hread as <- <-. simpl in Hlen. lia.
Qed.

Lemma tokenize_length (fuel : nat) (input : string) :
  (List.length (tokenize fuel input) <= String.length input)%nat.
Proof.
  revert input. induction fuel as [|fuel IH]; intros input; simpl; [lia|].
  destruct (next_token input) as [tok rest] eqn:Hnext.
  destruct (decide _); simpl; [lia|].
  pose proof (next_token_shorter _ _ _ Hnext ltac:(done)).
  specialize (IH rest). lia.
Qed.

(** [lex] gives the tokens that the lexer reads up to the end of the
    input. *)
Lemma lex_lexes (input : string) (toks : list token) :
  lexes input toks EmptyString -> lex input = toks.
Proof.
  intros H. pose proof (H 1%nat) as H1. simpl tokenize at 2 in H1.
  rewrite app_nil_r in H1.
  pose proof (tokenize_length (List.length toks + 1) input) as Hlen.
  rewrite H1 in Hlen.
  unfold lex.
  replace (S (String.length input))
    with (List.length toks + S (String.length input - List.length toks))%nat by lia.
  rewrite H. simpl. by rewrite app_nil_r.
Qed.

End LexerFacts.

(** ** The parser on the tokens of a rendered structure *)

Section ReadingBack.

Lemma yields_returns {A : Type} (f : nat -> outcome A) (r : outcome A) (n : nat) :
  (forall fuel, (n <= fuel)%nat -> f fuel = r) -> yields f r.
Proof. intros H. by exists n. Qed.

Lemma closing_cons (t : token) (s : simple) (l : list token) :
  List.last (t :: tokens_of s ++ l) eof_token = List.last (tokens_of s ++ l) eof_token.
Proof.
  assert (tokens_of s ++ l <> []).
  { destruct s; simpl; try done. destruct (tokens_of s); done. }
  simpl. by destruct (tokens_of s ++ l).
Qed.

Lemma tokens_of_nonempty (s : simple) : tokens_of s <> [].
Proof. destruct s; simpl; try done. by destruct (tokens_of s). Qed.

Lemma parse_integer_decimal (n : Z) (rest : list token) (errs : list string) :
  0 <= n <= LONG_MAX ->
  parse_integer_expression (parser_at (mk_token INT (decimal n) :: rest) errs)
  = Returns (Some (IntegerExpression (mk_token INT (decimal n)) n))
      (parser_at (mk_token INT (decimal n) :: rest) errs).
Proof.
  intros Hn. unfold parse_integer_expression. simpl.
  rewrite strtol_decimal by (unfold LONG_MIN; lia). reflexivity.
Qed.

(** The loop stops in front of a closing parenthesis, a comma, a semicolon
    and any token of the lowest level. *)
Lemma infix_loop_stops_lowest (fuel : nat) (prec : operator_precedence_t)
    (left_exp : option expression_t) (t : token) (rest : list token)
    (errs : list string) :
  precedence (type (peeked rest)) = LOWEST ->
  infix_loop (S fuel) prec left_exp (parser_at (t :: rest) errs)
  = Returns left_exp (parser_at (t :: rest) errs).
Proof.
  intros H. apply infix_loop_stops. unfold peek_precedence.
  rewrite parser_at_peeked, H. destruct prec; simpl; lia.
Qed.

(** A parenthesised expression: the parentheses leave no node. *)
Lemma grouped_step (fuel : nat) (prec : operator_precedence_t)
    (ts rest : list token) (c : token) (errs errs' : list string)
    (x : option expression_t) :
  parse_expression fuel LOWEST (parser_at (ts ++ RP :: rest) errs)
  = Returns x (parser_at (c :: RP :: rest) errs') ->
  parse_expression (S fuel) prec (parser_at (LP :: ts ++ RP :: rest) errs)
  = infix_loop fuel prec x (parser_at (RP :: rest) errs').
Proof.
  intros H. rewrite parse_expression_S. cbn [parser_at cur_tok List.hd LP type].
  change (table_entry prefix_fns LPAREN) with (Some parse_grouped_expression_fn).
  cbn iota. unfold parse_grouped_expression.
  change (mk_parser _ _ _ _) with (parser_at (LP :: ts ++ RP :: rest) errs).
  rewrite parser_at_next, H. cbn [bind].
  unfold expect_peek. rewrite parser_at_peek. cbn [RP type].
  destruct (decide (RPAREN = RPAREN)); [|done].
  rewrite parser_at_next. reflexivity.
Qed.

(** A prefix operator and its operand. *)
Lemma prefix_step (fuel : nat) (prec : operator_precedence_t)
    (op : prefix_operator) (ts : list token) (errs : list string)
    (x : option expression_t) (p : parser_t) :
  parse_expression fuel PREFIX (parser_at ts errs) = Returns x p ->
  parse_expression (S fuel) prec (parser_at (prefix_token op :: ts) errs)
  = infix_loop fuel prec
      (Some (PrefixExpression (prefix_token op) (literal (prefix_token op)) x)) p.
Proof.
  intros H. rewrite parse_expression_S. rewrite parser_at_cur.
  assert (Ht : table_entry prefix_fns (type (prefix_token op))
               = Some parse_prefix_expression_fn) by (by destruct op).
  rewrite Ht. unfold parse_prefix_expression.
  rewrite parser_at_next, parser_at_cur, H. reflexivity.
Qed.

(** The loop takes a parenthesis as the argument list of a call. *)
Lemma call_step (fuel : nat) (prec : operator_precedence_t)
    (left_exp : option expression_t) (t : token) (ts : list token)
    (errs : list string) :
  precedence_value prec < precedence_value CALL ->
  infix_loop (S fuel) prec left_exp (parser_at (t :: LP :: ts) errs)
  = bind (parse_call_expression fuel left_exp (parser_at (LP :: ts) errs))
      (infix_loop fuel prec).
Proof.
  intros Hprec. rewrite infix_loop_S, parser_at_peek. cbn [LP type].
  destruct (decide (LPAREN = SEMICOLON)); [done|].
  unfold peek_precedence. rewrite parser_at_peek. cbn [LP type precedence].
  destruct (Z.geb_spec (precedence_value prec) (precedence_value CALL)); [lia|].
  change (table_entry infix_fns LPAREN) with (Some parse_call_expression_fn).
  cbn iota. by rewrite parser_at_next.
Qed.

Lemma infix_token_operator (op : infix_operator) : is_operator (infix_token op) = true.
Proof. by destruct op. Qed.

Lemma infix_token_level (op : infix_operator) :
  precedence_value (precedence (type (infix_token op))) < precedence_value CALL.
Proof. destruct op; simpl; lia. Qed.

Lemma join_tokens_cons (a : simple) (args : list simple) :
  join_tokens CM (map tokens_of (a :: args))
  = tokens_of a ++ flat_map (fun x => CM :: tokens_of x) args.
Proof.
  revert a. induction args as [|b args IH]; intros a.
  - simpl. by rewrite app_nil_r.
  - change (join_tokens CM (map tokens_of (a :: b :: args)))
      with (tokens_of a ++ CM :: join_tokens CM (map tokens_of (b :: args))).
    rewrite IH. reflexivity.
Qed.

(** The first token of a structure starts an expression. *)
Lemma tokens_of_head (s : simple) :
  exists t ts, tokens_of s = t :: ts
               /\ type t <> RPAREN /\ type t <> COMMA /\ type t <> SEMICOLON
               /\ type t <> LET /\ type t <> RETURN /\ type t <> END_OF_FILE
               /\ type t <> RBRACE.
Proof.
  induction s as [name|n|b|op e IH|op lhs rhs IHl IHr|f args IHf IHargs]
    using simple_ind; simpl; try (by eexists _, _; split; [reflexivity|]).
  - destruct b; by eexists _, _; split; [reflexivity|].
  - destruct IHf as (t & ts & -> & Ht). simpl. by eexists _, _; split; [reflexivity|].
Qed.

Lemma hd_tokens_app (s : simple) (l : list token) (d : token) :
  List.hd d (tokens_of s ++ l) = List.hd eof_token (tokens_of s).
Proof. by destruct (tokens_of_head s) as (t & ts & -> & _). Qed.

Lemma closing_atom_or_paren (s : simple) :
  closing s = match s with
              | SIdent _ | SInt _ | SBool _ => List.hd eof_token (tokens_of s)
              | _ => RP
              end.
Proof.
  unfold closing. destruct s as [name|n|b|op e|op lhs rhs|f args]; try reflexivity.
  - change (tokens_of (SPrefix op e))
      with ((LP :: prefix_token op :: tokens_of e) ++ [RP]).
    apply last_last.
  - change (tokens_of (SInfix op lhs rhs))
      with (LP :: tokens_of lhs ++ (infix_token op :: tokens_of rhs) ++ [RP]).
    rewrite app_comm_cons, app_assoc. apply last_last.
  - change (tokens_of (SCall f args))
      with (tokens_of f ++ (LP :: join_tokens CM (map tokens_of args)) ++ [RP]).
    rewrite app_assoc. apply last_last.
Qed.

(** ... and returns the node when a token of the lowest level follows. *)
Lemma reads_back_returns (s : simple) (prec : operator_precedence_t)
    (rest : list token) (errs : list string) :
  reads_back s ->
  precedence_value prec < precedence_value CALL ->
  precedence (type (peeked rest)) = LOWEST ->
  yields (fun fuel => parse_expression fuel prec (parser_at (tokens_of s ++ rest) errs))
    (Returns (Some (reparsed s)) (parser_at (closing s :: rest) errs)).
Proof.
  intros Hs Hprec Hrest. apply Hs; [done|].
  exists 1%nat. intros [|fuel] Hfuel; [lia|]. by apply infix_loop_stops_lowest.
Qed.

(** The loop over the arguments after the first. *)
Lemma call_arguments_loop_reads (args : list simple) (rest : list token) :
  Forall reads_back args ->
  forall (acc : list (option expression_t)) (c : token) (errs : list string),
  exists c',
    yields (fun fuel =>
              call_arguments_loop fuel acc
                (parser_at (c :: flat_map (fun x => CM :: tokens_of x) args
                              ++ RP :: rest) errs))
      (Returns (acc ++ map (fun a => Some (reparsed a)) args)
         (parser_at (c' :: RP :: rest) errs)).
Proof.
  induction 1 as [|a args Ha _ IH]; intros acc c errs.
  - exists c. exists 1%nat. intros [|fuel] Hfuel; [lia|].
    rewrite call_arguments_loop_S. simpl. by rewrite app_nil_r.
  - destruct (IH (acc ++ [Some (reparsed a)]) (closing a) errs) as (c' & n & Hn).
    exists c'.
    destruct (reads_back_returns a LOWEST
                (flat_map (fun x => CM :: tokens_of x) args ++ RP :: rest) errs Ha)
      as [na Hna]; [simpl; lia | |].
    { by destruct args. }
    exists (S (Nat.max n na)). intros [|fuel] Hfuel; [lia|].
    rewrite call_arguments_loop_S.
    cbn [flat_map]. rewrite <- !app_assoc. cbn [app].
    rewrite parser_at_peek. cbn [CM type].
    destruct (decide (COMMA = COMMA)); [|done].
    rewrite !parser_at_next, Hna by lia. cbn [bind].
    rewrite Hn by lia. by rewrite <- app_assoc.
Qed.

Lemma reads_back_all (s : simple) : well_formed s = true -> reads_back s.
Proof.
  induction s as [name|n|b|op e IH|op lhs rhs IHl IHr|f args IHf IHargs]
    using simple_ind; intros Hwf prec rest errs r Hprec [n0 Hn0];
    rewrite closing_atom_or_paren in Hn0; simpl in Hwf.
  - exists (S n0). intros [|fuel] Hfuel; [lia|].
    rewrite parse_expression_S. apply Hn0. lia.
  - apply andb_prop in Hwf as [H0%Z.leb_le H1%Z.leb_le].
    exists (S n0). intros [|fuel] Hfuel; [lia|].
    rewrite parse_expression_S. cbn [tokens_of app parser_at_cur].
    rewrite parser_at_cur. cbn [type].
    change (table_entry prefix_fns INT) with (Some parse_integer_expression_fn).
    cbn iota. rewrite parse_integer_decimal by lia. apply Hn0. lia.
  - exists (S n0). intros [|fuel] Hfuel; [lia|].
    rewrite parse_expression_S. destruct b; apply Hn0; lia.
  - destruct (reads_back_returns e PREFIX (RP :: rest) errs (IH Hwf))
      as [ne Hne]; [simpl; lia | done |].
    exists (S (S (S (Nat.max n0 ne)))). intros [|[|fuel]] Hfuel; try lia.
    replace (tokens_of (SPrefix op e) ++ rest)
      with (LP :: (prefix_token op :: tokens_of e) ++ RP :: rest)
      by (cbn [tokens_of]; rewrite <- !app_comm_cons, <- !app_assoc; done).
    rewrite (grouped_step _ prec (prefix_token op :: tokens_of e) rest (closing e)
               errs errs
               (Some (PrefixExpression (prefix_token op) (literal (prefix_token op))
                        (Some (reparsed e))))).
    + apply Hn0. lia.
    + rewrite <- app_comm_cons.
      rewrite (prefix_step fuel LOWEST op _ errs (Some (reparsed e))
                 (parser_at (closing e :: RP :: rest) errs)) by (apply Hne; lia).
      destruct fuel as [|fuel]; [lia|]. by apply infix_loop_stops_lowest.
  - apply andb_prop in Hwf as [Hwl Hwr].
    destruct (reads_back_returns rhs (precedence (type (infix_token op)))
                (RP :: rest) errs (IHr Hwr)) as [nr Hnr];
      [apply infix_token_level | done |].
    destruct (IHl Hwl LOWEST (infix_token op :: tokens_of rhs ++ RP :: rest) errs
                (Returns (Some (reparsed (SInfix op lhs rhs)))
                   (parser_at (closing rhs :: RP :: rest) errs)))
      as [nl Hnl]; [simpl; lia | |].
    { exists (S (S nr)). intros [|[|fuel]] Hfuel; try lia.
      rewrite infix_loop_operator;
        [|apply infix_token_operator|apply operator_level, infix_token_operator].
      rewrite Hnr by lia. cbn [bind]. by apply infix_loop_stops_lowest. }
    exists (S (Nat.max n0 nl)). intros [|fuel] Hfuel; [lia|].
    replace (tokens_of (SInfix op lhs rhs) ++ rest)
      with (LP :: (tokens_of lhs ++ infix_token op :: tokens_of rhs) ++ RP :: rest)
      by (cbn [tokens_of]; rewrite <- !app_comm_cons, <- !app_assoc;
          cbn [app]; by rewrite <- !app_assoc).
    rewrite (grouped_step _ prec (tokens_of lhs ++ infix_token op :: tokens_of rhs)
               rest (closing rhs) errs errs (Some (reparsed (SInfix op lhs rhs)))).
    + apply Hn0. lia.
    + rewrite <- app_assoc. cbn [app]. apply Hnl. lia.
  - apply andb_prop in Hwf as [Hwf Hwargs].
    assert (Hall : Forall reads_back args).
    { clear -IHargs Hwargs. induction IHargs as [|a args Ha _ IH]; [constructor|].
      simpl in Hwargs. apply andb_prop in Hwargs as [Hwa Hwargs].
      constructor; [by apply Ha | by apply IH]. }
    cbn [tokens_of]. rewrite <- app_assoc. cbn [app]. rewrite <- app_assoc. cbn [app].
    apply (IHf Hwf); [done|].
    (* the continuation: the call *)
    destruct args as [|a args].
    + exists (S (S (S n0))). intros [|[|[|fuel]]] Hfuel; try lia.
      rewrite call_step by done. rewrite parse_call_expression_S.
      rewrite parse_call_arguments_S. cbn [map join_tokens app].
      rewrite parser_at_peek. cbn [RP type].
      destruct (decide (RPAREN = RPAREN)); [|done].
      cbn [bind]. rewrite parser_at_next. apply Hn0. lia.
    + apply Forall_cons in Hall as [Ha Hall].
      destruct (reads_back_returns a LOWEST
                  (flat_map (fun x => CM :: tokens_of x) args ++ RP :: rest) errs Ha)
        as [na Hna]; [simpl; lia | by destruct args |].
      destruct (call_arguments_loop_reads args rest Hall [Some (reparsed a)]
                  (closing a) errs) as (c' & nl & Hnl).
      exists (S (S (S (Nat.max n0 (Nat.max na nl))))).
      intros [|[|[|fuel]]] Hfuel; try lia.
      rewrite call_step by done. rewrite parse_call_expression_S.
      rewrite parse_call_arguments_S.
      fold CM. rewrite join_tokens_cons, <- app_assoc.
      change (peek_tok (parser_at (LP :: ?l) errs)) with (List.hd eof_token l).
      rewrite hd_tokens_app.
      destruct (decide (type (List.hd eof_token (tokens_of a)) = RPAREN)) as [Hrp|_].
      { exfalso. destruct (tokens_of_head a) as (t & ts & Hts & Ht & _).
        rewrite Hts in Hrp. done. }
      rewrite parser_at_next.
      rewrite Hna by lia. cbn [bind]. rewrite Hnl by lia. cbn [bind].
      unfold expect_peek. rewrite parser_at_peek. cbn [RP type].
      destruct (decide (RPAREN = RPAREN)); [|done].
      rewrite parser_at_next. cbn [bind].
      cbn [reparsed] in Hn0. fold CM RP in Hn0.
      rewrite join_tokens_cons, <- app_assoc, hd_tokens_app in Hn0.
      cbn [map app] in Hn0 |- *. apply Hn0. lia.
Qed.

Lemma statement_reads (s : simple_statement) (rest : list token) (errs : list string) :
  well_formed_statement s = true -> ends_statement s rest ->
  yields (fun fuel =>
            parser_parse_statement fuel (parser_at (statement_tokens s ++ rest) errs))
    (Returns (Some (reparsed_statement s))
       (parser_at (closing_statement s :: rest) errs)).
Proof.
  destruct s as [name value|e]; simpl; intros Hwf Hends.
  - apply andb_prop in Hwf as [Hname Hwf].
    destruct (reads_back_returns value LOWEST (mk_token SEMICOLON ";" :: rest) errs
                (reads_back_all value Hwf)) as [n Hn]; [simpl; lia | done |].
    exists (S n). intros [|fuel] Hfuel; [lia|].
    rewrite parser_parse_statement_S. rewrite parser_at_cur. cbn [type].
    unfold parse_letstatement, expect_peek.
    rewrite parser_at_peek. cbn [type].
    destruct (decide (IDENT = IDENT)); [|done]. cbn [negb].
    rewrite parser_at_next, parser_at_peek. cbn [type].
    destruct (decide (ASSIGN = ASSIGN)); [|done]. cbn [negb].
    rewrite !parser_at_next. rewrite <- app_assoc. cbn [app].
    rewrite Hn by lia. cbn [bind].
    rewrite parser_at_peek. cbn [type].
    destruct (decide (SEMICOLON = SEMICOLON)); [|done].
    rewrite parser_at_next. reflexivity.
  - destruct Hends as [Hlow Hsemi].
    destruct (reads_back_returns e LOWEST rest errs (reads_back_all e Hwf))
      as [n Hn]; [simpl; lia | done |].
    exists (S n). intros [|fuel] Hfuel; [lia|].
    rewrite parser_parse_statement_S.
    change (cur_tok (parser_at (tokens_of e ++ rest) errs))
      with (List.hd eof_token (tokens_of e ++ rest)).
    rewrite hd_tokens_app.
    destruct (tokens_of_head e) as (t & ts & Hts & _ & _ & _ & Hlet & Hret & _).
    assert (Hstmt : forall p : parser_t,
               match type (List.hd eof_token (tokens_of e)) with
               | LET => parse_letstatement (parse_expression fuel) p
               | RETURN => parse_return_statement (parse_expression fuel) p
               | _ => parse_expression_statement (parse_expression fuel) p
               end = parse_expression_statement (parse_expression fuel) p).
    { intros p. rewrite Hts. simpl. by destruct (type t). }
    rewrite Hstmt. unfold parse_expression_statement.
    rewrite Hn by lia. cbn [bind].
    rewrite parser_at_peeked.
    destruct (decide (type (peeked rest) = SEMICOLON)); [done|].
    change (cur_tok (parser_at (tokens_of e ++ rest) errs))
      with (List.hd eof_token (tokens_of e ++ rest)).
    by rewrite hd_tokens_app.
Qed.

(** The first token of an expression that starts with an operand. *)
Lemma starts_with_operand_level (e : simple) (rest : list token) :
  starts_with_operand e = true ->
  precedence (type (peeked (tokens_of e ++ rest))) = LOWEST
  /\ type (peeked (tokens_of e ++ rest)) <> SEMICOLON.
Proof.
  revert rest.
  induction e as [name|n|b|op e IH|op lhs rhs IHl IHr|f args IHf IHargs]
    using simple_ind; intros rest; simpl; try done.
  - by destruct b.
  - intros Hf. rewrite <- app_assoc. by apply IHf.
Qed.

Lemma separable_ends (s : simple_statement) (l : list simple_statement) :
  separable (s :: l) = true ->
  ends_statement s (concat (map statement_tokens l)) /\ separable l = true.
Proof.
  destruct s as [name value|e]; simpl.
  - by destruct l.
  - destruct l as [|[name value|e2] l]; simpl.
    + done.
    + done.
    + intros [He2 Hl]%andb_prop. split; [|done].
      by apply starts_with_operand_level.
Qed.

Lemma statement_tokens_head (s : simple_statement) (rest : list token) :
  type (List.hd eof_token (statement_tokens s ++ rest)) <> END_OF_FILE.
Proof.
  destruct s as [name value|e]; simpl; [done|].
  rewrite hd_tokens_app.
  by destruct (tokens_of_head e) as (t & ts & -> & _ & _ & _ & _ & _ & Ht & _).
Qed.

Lemma program_reads (l : list simple_statement) :
  forallb well_formed_statement l = true -> separable l = true ->
  forall (acc : list statement_t) (errs : list string),
    yields (fun fuel =>
              program_loop fuel acc
                (parser_at (concat (map statement_tokens l)) errs))
      (Returns (acc ++ map reparsed_statement l) (parser_at [] errs)).
Proof.
  induction l as [|s l IH]; intros Hwf Hsep acc errs.
  - exists 1%nat. intros [|fuel] Hfuel; [lia|]. simpl. by rewrite app_nil_r.
  - simpl in Hwf. apply andb_prop in Hwf as [Hs Hwf].
    destruct (separable_ends s l Hsep) as [Hends Hsep'].
    destruct (statement_reads s (concat (map statement_tokens l)) errs Hs Hends)
      as [ns Hns].
    destruct (IH Hwf Hsep' (acc ++ [reparsed_statement s]) errs) as [nl Hnl].
    exists (S (Nat.max ns nl)). intros [|fuel] Hfuel; [lia|].
    rewrite program_loop_S. cbn [map concat].
    change (cur_tok (parser_at ?ts errs)) with (List.hd eof_token ts).
    pose proof (statement_tokens_head s (concat (map statement_tokens l))) as Hhd.
    rewrite bool_decide_eq_false_2 by done. cbn [negb].
    rewrite Hns by lia. cbn [bind]. rewrite parser_at_next.
    rewrite Hnl by lia. by rewrite <- app_assoc.
Qed.

End ReadingBack.

(** ** The text of a program, lexed and parsed again *)

Section ProgramText.

Lemma statement_structure_reparsed (s : simple_statement) :
  statement_structure (reparsed_statement s) = Some s.
Proof.
  destruct s as [name value|e]; simpl; by rewrite structure_of_reparsed.
Qed.

Lemma program_structure_reparsed (l : list simple_statement) :
  program_structure (mk_program (map reparsed_statement l)) = Some l.
Proof.
  unfold program_structure. simpl.
  induction l as [|s l IH]; [done|]. simpl.
  by rewrite statement_structure_reparsed, IH.
Qed.

Lemma statement_string_render (s : simple_statement) (stmt : statement_t) :
  well_formed_statement s = true -> statement_structure stmt = Some s ->
  statement_string stmt = Text (Some (render_statement s)).
Proof.
  intros Hwf Hs. destruct stmt as [tok name [value|]|tok value|tok [e|]]; try done.
  - simpl in Hs. destruct (String.eqb_spec (literal tok) "let") as [Hlet|]; [|done].
    destruct (structure_of value) as [v|] eqn:Hv; [|done].
    injection Hs as <-. simpl in Hwf. apply andb_prop in Hwf as [_ Hwf].
    cbn [statement_string]. unfold identifier_string.
    rewrite (expression_string_render v Hwf value Hv). simpl. by rewrite Hlet.
  - simpl in Hs. destruct (structure_of e) as [v|] eqn:Hv; [|done].
    injection Hs as <-. simpl in Hwf.
    cbn [statement_string]. by rewrite (expression_string_render v Hwf e Hv).
Qed.

Lemma program_string_loop_fold (l : list simple_statement) :
  forallb well_formed_statement l = true ->
  forall (stmts : list statement_t) (acc : string),
    all_some (map statement_structure stmts) = Some l ->
    program_string_loop stmts (Some acc)
    = Text (Some (fold_left (fun str x => str +:+ " " +:+ x)
                    (map render_statement l) acc)).
Proof.
  induction l as [|s l IH]; intros Hwf stmts acc Hl.
  - destruct stmts as [|stmt stmts]; [done|]. simpl in Hl.
    destruct (statement_structure stmt); [|done].
    by destruct (all_some (map statement_structure stmts)).
  - destruct stmts as [|stmt stmts]; [done|]. simpl in Hl.
    destruct (statement_structure stmt) as [s'|] eqn:Hstmt; [|done].
    destruct (all_some (map statement_structure stmts)) as [l'|] eqn:Hstmts; [|done].
    injection Hl as -> ->. simpl in Hwf. apply andb_prop in Hwf as [Hs Hwf].
    cbn [program_string_loop].
    rewrite (statement_string_render s stmt Hs Hstmt). cbn [and_then percent_s].
    by rewrite (IH Hwf stmts _ Hstmts).
Qed.

Lemma program_string_render (program : program_t) (l : list simple_statement) :
  program_structure program = Some l -> l <> [] ->
  forallb well_formed_statement l = true ->
  program_string program = Text (Some (render_program l)).
Proof.
  unfold program_structure, program_string, render_program.
  destruct program as [stmts]. simpl.
  intros Hl Hne Hwf. destruct l as [|s l]; [done|].
  destruct stmts as [|stmt stmts]; [done|]. simpl in Hl.
  destruct (statement_structure stmt) as [s'|] eqn:Hstmt; [|done].
  destruct (all_some (map statement_structure stmts)) as [l'|] eqn:Hstmts; [|done].
  injection Hl as -> ->. simpl in Hwf. apply andb_prop in Hwf as [Hs Hwf].
  cbn [program_string_loop].
  rewrite (statement_string_render s stmt Hs Hstmt). cbn [and_then percent_s].
  rewrite (program_string_loop_fold l Hwf stmts _ Hstmts).
  pose proof (fold_join " " (map render_statement l) (render_statement s) EmptyString)
    as Hj.
  change (EmptyString +:+ render_statement s) with (render_statement s) in Hj.
  by rewrite Hj.
Qed.

Lemma append_empty (a : string) : a +:+ EmptyString = a.
Proof. induction a as [|c a IH]; simpl; [done|]. by rewrite IH. Qed.

Lemma lexes_statement (s : simple_statement) :
  well_formed_statement s = true ->
  forall rest, boundary rest = true ->
  lexes (render_statement s +:+ rest) (statement_tokens s) rest.
Proof.
  destruct s as [name value|e]; intros Hwf rest Hrest;
    cbn [render_statement statement_tokens]; simpl in Hwf.
  - apply andb_prop in Hwf as [Hname Hwf].
    assert (Htext : ("let " +:+ name +:+ " = " +:+ render value +:+ ";") +:+ rest
                    = "let" +:+ String " " (name +:+ String " " (String "="
                        (String " " (render value +:+ String ";" rest)))))
      by (repeat first [rewrite append_assoc | progress simpl]; reflexivity).
    rewrite Htext.
    eapply lexes_cons; [by apply (next_token_keyword "let" _ LET); [simpl; tauto|] | done |].
    apply lexes_space.
    eapply lexes_cons; [by apply next_token_identifier | done |].
    apply lexes_space.
    eapply lexes_cons; [reflexivity | done |].
    apply lexes_space.
    eapply lexes_app.
    + apply (lexes_render value Hwf (String ";" rest)). reflexivity.
    + apply lexes_one; [reflexivity | done].
  - by apply lexes_render.
Qed.

Lemma lexes_program (l : list simple_statement) :
  forallb well_formed_statement l = true ->
  lexes (render_program l) (program_tokens l) EmptyString.
Proof.
  unfold render_program, program_tokens.
  induction l as [|s l IH]; intros Hwf; [apply lexes_nil|].
  simpl in Hwf. apply andb_prop in Hwf as [Hs Hwf].
  destruct l as [|s2 l].
  - simpl. rewrite app_nil_r.
    pose proof (lexes_statement s Hs EmptyString eq_refl) as H.
    by rewrite append_empty in H.
  - change (join " " (map render_statement (s :: s2 :: l)))
      with (render_statement s +:+ String " " (join " " (map render_statement (s2 :: l)))).
    cbn [map concat]. eapply lexes_app.
    + by apply lexes_statement.
    + apply lexes_space. by apply IH.
Qed.

Lemma parse_program_reads (l : list simple_statement) :
  forallb well_formed_statement l = true -> separable l = true ->
  yields (fun fuel => parse_program fuel (parser_init (lex (render_program l))))
    (Returns (mk_program (map reparsed_statement l)) (parser_at [] [])).
Proof.
  intros Hwf Hsep.
  rewrite (lex_lexes _ _ (lexes_program l Hwf)), parser_at_init.
  destruct (program_reads l Hwf Hsep [] []) as [n Hn].
  exists n. intros fuel Hfuel. unfold parse_program, program_tokens.
  by rewrite (Hn fuel Hfuel).
Qed.

End ProgramText.

(** ** Printing a program and reading it again *)

Section RoundTripClaim.

(** A block is printed without its braces, and [if] without a space and
    without the parentheses of its condition: the text of an [if] expression
    is not read as an [if] expression again. *)
Example if_expression_is_not_read_back :
  exists program p program' p',
    parse_text 12 "if (x) { y }" = Returns program p
    /\ errors p = []
    /\ program_string program = Text (Some "ifx y")
    /\ parse_text 12 "ifx y" = Returns program' p'
    /\ errors p' = []
    /\ List.length (program_statements program) = 1%nat
    /\ List.length (program_statements program') = 2%nat.
Proof.
  do 4 eexists. split; [vm_compute; reflexivity|]. split; [reflexivity|].
  split; [vm_compute; reflexivity|]. split; [vm_compute; reflexivity|].
  split; [reflexivity|]. split; reflexivity.
Qed.

(** The statements are printed with a space between them: an expression
    statement whose text starts with a parenthesis is read as the argument
    list of a call of the statement before it. *)
Example adjacent_statements_are_merged :
  exists program p program' p',
    parse_text 12 "a; -b" = Returns program p
    /\ errors p = []
    /\ program_structure program
       = Some [SExpression (SIdent "a"); SExpression (SPrefix Negate (SIdent "b"))]
    /\ program_string program = Text (Some "a (-b)")
    /\ parse_text 12 "a (-b)" = Returns program' p'
    /\ errors p' = []
    /\ program_structure program'
       = Some [SExpression (SCall (SIdent "a") [SPrefix Negate (SIdent "b")])].
Proof.
  do 4 eexists. split; [vm_compute; reflexivity|]. split; [reflexivity|].
  split; [vm_compute; reflexivity|]. split; [vm_compute; reflexivity|].
  split; [vm_compute; reflexivity|]. split; [reflexivity|].
  vm_compute; reflexivity.
Qed.

(** C7, as stated, fails: the program [fn(x) { x }] lexes and parses with no
    error into one statement, a function literal; its string form is
    [fn(x) x], the body without its braces; and lexing and parsing that text
    records a parse error and gives two statements, none of them a function
    literal. *)
Lemma C7_function_literal_is_not_read_back :
  exists program p program' p',
    parse_text 12 "fn(x) { x }" = Returns program p
    /\ errors p = []
    /\ (exists tok parameters body,
           program_statements program
           = [ExpressionStatement tok (Some (FunctionLiteral tok parameters body))])
    /\ program_string program = Text (Some "fn(x) x")
    /\ (forall fuel, (12 <= fuel)%nat -> parse_text fuel "fn(x) x" = Returns program' p')
    /\ errors p' = ["expected next token to be LBRACE, got IDENT instead"]
    /\ program_statements program'
       = [ExpressionStatement (mk_token FUNCTION "fn") None;
          ExpressionStatement (mk_token IDENT "x")
            (Some (IdentifierExpression
                     {| ident_token := mk_token IDENT "x"; ident_value := "x" |}))].
Proof.
  do 4 eexists. split; [vm_compute; reflexivity|]. split; [reflexivity|].
  split; [do 3 eexists; reflexivity|].
  split; [vm_compute; reflexivity|].
  split.
  { intros fuel Hfuel. unfold parse_text.
    apply (parse_program_more_fuel 12 fuel); [done | vm_compute; reflexivity | discriminate]. }
  split; reflexivity.
Qed.

(** C7, amended: for every program that consists of at least one statement,
    each a [let] statement or an expression statement over identifiers,
    integers from 0 to LONG_MAX, booleans, the prefix operators [-] and [!],
    the eight infix operators and calls, where no expression statement that
    follows another expression statement starts with a prefix or an infix
    expression, [program_string] returns a text, and lexing and parsing that
    text returns, with any sufficient fuel, a program with no parse error
    and with the same structure (the same nodes up to the tokens they
    keep). *)
Theorem C7_round_trip (program : program_t) (l : list simple_statement) :
  program_structure program = Some l -> l <> [] ->
  forallb well_formed_statement l = true -> separable l = true ->
  exists text program' p',
    program_string program = Text (Some text)
    /\ yields (fun fuel => parse_text fuel text) (Returns program' p')
    /\ errors p' = []
    /\ program_structure program' = Some l.
Proof.
  intros Hl Hne Hwf Hsep.
  exists (render_program l), (mk_program (map reparsed_statement l)), (parser_at [] []).
  split; [by apply program_string_render|].
  split; [by apply parse_program_reads|].
  split; [reflexivity|]. apply program_structure_reparsed.
Qed.

Lemma C7_round_trip_witness :
  exists program p l,
    parse_text 12 "let x = 1 + 2 * 3; f(x, -y)" = Returns program p
    /\ errors p = []
    /\ program_structure program = Some l
    /\ l = [SLet "x" (SInfix Add (SInt 1) (SInfix Multiply (SInt 2) (SInt 3)));
            SExpression (SCall (SIdent "f") [SIdent "x"; SPrefix Negate (SIdent "y")])]
    /\ l <> []
    /\ forallb well_formed_statement l = true
    /\ separable l = true
    /\ exists text program' p',
         program_string program = Text (Some text)
         /\ yields (fun fuel => parse_text fuel text) (Returns program' p')
         /\ errors p' = []
         /\ program_structure program' = Some l.
Proof.
  do 3 eexists. split; [vm_compute; reflexivity|]. split; [reflexivity|].
  split; [vm_compute; reflexivity|]. split; [reflexivity|].
  split; [discriminate|]. split; [vm_compute; reflexivity|].
  split; [reflexivity|].
  apply (C7_round_trip _ _); [vm_compute; reflexivity | discriminate
                             | vm_compute; reflexivity | reflexivity].
Defined.

End RoundTripClaim.

(** * Further properties of the code *)

(** ** The parser: null pointers and messages *)

Section Ensures.

Lemma ensures_bind {A B : Type} (n : nat) (G : A -> Prop) (G' : B -> Prop)
    (m : outcome A) (k : A -> parser_t -> outcome B) :
  ensures n G m ->
  (forall a p, (n <= error_count p)%nat -> (error_count p = n -> G a) -> ensures n G' (k a p)) ->
  ensures n G' (bind m k).
Proof. destruct m as [a p|p|]; simpl; [|done|done]. intros [H1 H2] Hk. by apply Hk. Qed.

(** A call that takes no node, inside a run that started with [n]
    messages. *)
Lemma ensures_seq {A B : Type} (n : nat) (G : A -> Prop) (G' : B -> Prop)
    (p : parser_t) (m : outcome A) (k : A -> parser_t -> outcome B) :
  (n <= error_count p)%nat -> ensures (error_count p) G m ->
  (forall a p', (error_count p <= error_count p')%nat -> (error_count p' = error_count p -> G a) ->
                ensures n G' (k a p')) ->
  ensures n G' (bind m k).
Proof.
  destruct m as [a p'|p'|]; simpl; [| |done].
  - intros Hn [H1 H2] Hk. by apply Hk.
  - intros Hn H _. lia.
Qed.

Lemma count_next (p : parser_t) : error_count (parser_next_token p) = error_count p.
Proof. unfold parser_next_token. by destruct (lexer_next_token _). Qed.

Lemma count_error (p : parser_t) (msg : string) :
  error_count (add_parse_error p msg) = S (error_count p).
Proof. unfold error_count. simpl. rewrite length_app. simpl. lia. Qed.

Lemma count_expect_peek (p p' : parser_t) (t : token_type) (ok : bool) :
  expect_peek p t = (p', ok) ->
  error_count p' = if ok then error_count p else S (error_count p).
Proof.
  unfold expect_peek. destruct (decide _); intros [= <- <-].
  - apply count_next.
  - apply count_error.
Qed.


Context (Qe : expression_t -> Prop) (Qs : statement_t -> Prop)
        (Qb : block_statement_t -> Prop) (HQ : node_property Qe Qs Qb).

Ltac expecting :=
  match goal with
  | |- context [expect_peek ?p ?t] =>
      let E := fresh "E" in let p' := fresh "p" in let ok := fresh "ok" in
      destruct (expect_peek p t) as [p' ok] eqn:E;
      apply count_expect_peek in E; destruct ok; cbn [negb]
  end.

Ltac returned :=
  simpl; rewrite ?count_next in *; first [lia | split; [lia | intros ?]].

Lemma ensures_identifier (p : parser_t) :
  ensures (error_count p) (present Qe) (parse_identifier_expression p).
Proof. simpl. split; [lia|]. intros _. apply HQ. Qed.

Lemma ensures_boolean (p : parser_t) :
  ensures (error_count p) (present Qe) (parse_boolean_expression p).
Proof. simpl. split; [lia|]. intros _. apply HQ. Qed.

Lemma ensures_integer (p : parser_t) :
  ensures (error_count p) (present Qe) (parse_integer_expression p).
Proof.
  unfold parse_integer_expression. destruct (integer_conversion_failed _); simpl.
  - rewrite count_error. split; [lia|]. intros _. apply HQ.
  - split; [lia|]. intros _. apply HQ.
Qed.

Lemma ensures_function_parameters_loop (fuel : nat) :
  forall params p,
    ensures (error_count p) (fun _ => True) (function_parameters_loop fuel params p).
Proof.
  induction fuel as [|fuel IH]; intros params p; simpl; [done|].
  destruct (decide _); [|by split].
  specialize (IH (params ++ [create_identifier (parser_next_token (parser_next_token p))])
                (parser_next_token (parser_next_token p))).
  by rewrite !count_next in IH.
Qed.

Lemma ensures_function_parameters (fuel : nat) (p : parser_t) :
  ensures (error_count p) is_Some (parse_function_parameters fuel p).
Proof.
  unfold parse_function_parameters. destruct (decide _).
  - returned. done.
  - apply (ensures_seq _ (fun _ => True) _ (parser_next_token p));
      [by rewrite count_next | apply ensures_function_parameters_loop |].
    intros params p' Hp' _. expecting; returned. done.
Qed.

Section Open.
Context (pe : operator_precedence_t -> parser_t -> outcome (option expression_t))
        (pb : parser_t -> outcome block_statement_t)
        (fuel : nat).
Context (Hpe : forall prec p, ensures (error_count p) (present Qe) (pe prec p))
        (Hpb : forall p, ensures (error_count p) Qb (pb p)).

Lemma ensures_prefix (p : parser_t) :
  ensures (error_count p) (present Qe) (parse_prefix_expression pe p).
Proof.
  unfold parse_prefix_expression.
  apply (ensures_seq _ (present Qe) _ (parser_next_token p));
    [by rewrite count_next | apply Hpe |].
  intros operand p' Hp' Hoperand. returned. apply HQ. apply Hoperand. lia.
Qed.

Lemma ensures_infix (n : nat) (lhs : option expression_t) (p : parser_t) :
  (n <= error_count p)%nat -> (error_count p = n -> present Qe lhs) ->
  ensures n (present Qe) (parse_infix_expression pe lhs p).
Proof.
  intros Hn Hlhs. unfold parse_infix_expression.
  apply (ensures_seq _ (present Qe) _ (parser_next_token p));
    [by rewrite count_next | apply Hpe |].
  intros rhs p' Hp' Hrhs. returned. apply HQ; [apply Hlhs | apply Hrhs]; lia.
Qed.

Lemma ensures_grouped (p : parser_t) :
  ensures (error_count p) (present Qe) (parse_grouped_expression pe p).
Proof.
  unfold parse_grouped_expression.
  apply (ensures_seq _ (present Qe) _ (parser_next_token p));
    [by rewrite count_next | apply Hpe |].
  intros e p' Hp' He. expecting.
  - returned. apply He. lia.
  - destruct (free_expression_ptr e); returned.
Qed.

Lemma ensures_if (p : parser_t) :
  ensures (error_count p) (present Qe) (parse_if_expression pe pb p).
Proof.
  unfold parse_if_expression. expecting; [|returned].
  apply (ensures_seq _ (present Qe) _ (parser_next_token p0));
    [rewrite count_next; lia | apply Hpe |].
  intros cond p1 Hp1 Hcond. rewrite count_next in Hp1, Hcond.
  expecting; [|destruct (free_if_expression _ _ _); returned].
  expecting; [|destruct (free_if_expression _ _ _); returned].
  apply (ensures_seq _ Qb _ p3); [lia | apply Hpb |].
  intros cons p4 Hp4 Hcons. destruct (decide _).
  - destruct (expect_peek (parser_next_token p4) LBRACE) as [p5 ok] eqn:E5.
    apply count_expect_peek in E5. rewrite count_next in E5.
    destruct ok; cbn [negb]; [|destruct (free_if_expression _ _ _); returned].
    apply (ensures_seq _ Qb _ p5); [lia | apply Hpb |].
    intros alt p6 Hp6 Halt. returned.
    apply HQ; [apply Hcond | apply Hcons | apply Halt]; lia.
  - returned. apply HQ; [apply Hcond | apply Hcons | done]; lia.
Qed.

Lemma ensures_function_literal (p : parser_t) :
  ensures (error_count p) (present Qe) (parse_function_literal pb fuel p).
Proof.
  unfold parse_function_literal. expecting; [|returned].
  apply (ensures_seq _ is_Some _ p0); [lia | apply ensures_function_parameters |].
  intros [params|] p1 Hp1 Hparams.
  - expecting; [|returned].
    apply (ensures_seq _ Qb _ p2); [lia | apply Hpb |].
    intros body p3 Hp3 Hbody. returned. apply HQ. apply Hbody. lia.
  - returned. assert (is_Some (@None (list identifier_t))) as [? [=]].
    apply Hparams. lia.
Qed.

Lemma ensures_semicolon {A : Type} (n : nat) (G : A -> Prop) (a : A) (p : parser_t) :
  (n <= error_count p)%nat -> (error_count p = n -> G a) ->
  ensures n G
    (let parser :=
       if decide (type (peek_tok p) = SEMICOLON) then parser_next_token p else p in
     Returns a parser).
Proof. intros Hn Ha. destruct (decide _); simpl; rewrite ?count_next; by split. Qed.

Lemma ensures_let (p : parser_t) :
  ensures (error_count p) (present Qs) (parse_letstatement pe p).
Proof.
  unfold parse_letstatement. expecting; [|returned].
  expecting; [|returned].
  apply (ensures_seq _ (present Qe) _ (parser_next_token p1));
    [rewrite count_next; lia | apply Hpe |].
  intros v p2 Hp2 Hv. rewrite count_next in Hp2, Hv.
  apply ensures_semicolon; [lia|]. intros Heq. apply HQ. apply Hv. lia.
Qed.

Lemma ensures_return (p : parser_t) :
  ensures (error_count p) (present Qs) (parse_return_statement pe p).
Proof.
  unfold parse_return_statement.
  apply (ensures_seq _ (present Qe) _ (parser_next_token p));
    [rewrite count_next; lia | apply Hpe |].
  intros v p2 Hp2 Hv. rewrite count_next in Hp2, Hv.
  apply ensures_semicolon; [lia|]. intros Heq. apply HQ. apply Hv. lia.
Qed.

Lemma ensures_expression_statement (p : parser_t) :
  ensures (error_count p) (present Qs) (parse_expression_statement pe p).
Proof.
  unfold parse_expression_statement.
  apply (ensures_seq _ (present Qe) _ p); [lia | apply Hpe |].
  intros v p2 Hp2 Hv.
  apply ensures_semicolon; [lia|]. intros Heq. apply HQ. apply Hv. lia.
Qed.

End Open.


(** Every recursive parse function, at every depth: the functions that take
    a node are given one that satisfies the property unless a message was
    recorded since the run started. *)
Lemma ensures_all (fuel : nat) :
  (forall prec p, ensures (error_count p) (present Qe) (parse_expression fuel prec p))
  /\ (forall prec n left_exp p,
         (n <= error_count p)%nat -> (error_count p = n -> present Qe left_exp) ->
         ensures n (present Qe) (infix_loop fuel prec left_exp p))
  /\ (forall n function p,
         (n <= error_count p)%nat -> (error_count p = n -> present Qe function) ->
         ensures n (present Qe) (parse_call_expression fuel function p))
  /\ (forall p, ensures (error_count p) (present (Forall (present Qe)))
                  (parse_call_arguments fuel p))
  /\ (forall n arguments p,
         (n <= error_count p)%nat ->
         (error_count p = n -> Forall (present Qe) arguments) ->
         ensures n (Forall (present Qe)) (call_arguments_loop fuel arguments p))
  /\ (forall p, ensures (error_count p) Qb (parse_block_statement fuel p))
  /\ (forall n statements p,
         (n <= error_count p)%nat -> (error_count p = n -> Forall Qs statements) ->
         ensures n (Forall Qs) (block_statement_loop fuel statements p))
  /\ (forall p, ensures (error_count p) (present Qs) (parser_parse_statement fuel p)).
Proof.
  induction fuel as [|fuel (IHe & IHi & IHc & IHa & IHal & IHb & IHbl & IHs)].
  { repeat split; intros; exact I. }
  repeat split.
  - intros prec p. rewrite parse_expression_S.
    destruct (table_entry prefix_fns _) as [fn|].
    + apply (ensures_seq _ (present Qe) _ p); [lia| |].
      * destruct fn.
        -- apply ensures_identifier.
        -- apply ensures_integer.
        -- by apply ensures_prefix.
        -- by apply ensures_grouped.
        -- by apply ensures_function_literal.
        -- by apply ensures_if.
        -- apply ensures_boolean.
      * intros left_exp p' Hp' Hleft. by apply IHi.
    + simpl. unfold handle_no_prefix_fn. rewrite count_error. split; lia.
  - intros prec n left_exp p Hn Hleft. rewrite infix_loop_S.
    destruct (decide _); [by split|]. destruct (_ >=? _); [by split|].
    destruct (table_entry infix_fns _) as [fn|]; [|by split].
    apply (ensures_bind _ (present Qe)).
    + destruct fn.
      * apply ensures_infix; rewrite ?count_next; done.
      * apply IHc; rewrite ?count_next; done.
    + intros right_exp p' Hp' Hright. by apply IHi.
  - intros n function p Hn Hfunction. rewrite parse_call_expression_S.
    apply (ensures_seq _ (present (Forall (present Qe))) _ p); [done | apply IHa |].
    intros [arguments|] p' Hp' Hargs; returned.
    + apply HQ; [apply Hfunction | apply Hargs]; lia.
    + apply Hargs. lia.
  - intros p. rewrite parse_call_arguments_S. destruct (decide _).
    + returned. constructor.
    + apply (ensures_seq _ (present Qe) _ (parser_next_token p));
        [by rewrite count_next | apply IHe |].
      intros arg p1 Hp1 Harg. rewrite count_next in Hp1, Harg.
      apply (ensures_bind _ (Forall (present Qe))).
      * apply IHal; [done|]. intros Heq. constructor; [by apply Harg | constructor].
      * intros arguments p2 Hp2 Hargs.
        destruct (expect_peek p2 RPAREN) as [p3 ok] eqn:E3.
        apply count_expect_peek in E3. destruct ok.
        -- returned. apply Hargs. lia.
        -- destruct (free_expression_list arguments); returned.
  - intros n arguments p Hn Hargs. rewrite call_arguments_loop_S.
    destruct (decide _); [|by split].
    apply (ensures_seq _ (present Qe) _ (parser_next_token (parser_next_token p)));
      [by rewrite !count_next | apply IHe |].
    intros arg p1 Hp1 Harg. rewrite !count_next in Hp1, Harg.
    apply IHal; [lia|]. intros Heq. apply Forall_app. split.
    + apply Hargs. lia.
    + constructor; [apply Harg; lia | constructor].
  - intros p. rewrite parse_block_statement_S.
    apply (ensures_bind _ (Forall Qs)).
    + apply IHbl; [by rewrite count_next | constructor].
    + intros statements p' Hp' Hstatements. returned. apply HQ. by apply Hstatements.
  - intros n statements p Hn Hstatements. rewrite block_statement_loop_S.
    destruct (_ && _); [|by split].
    apply (ensures_seq _ (present Qs) _ p); [done | apply IHs |].
    intros stmt p' Hp' Hstmt. apply IHbl; [rewrite count_next; lia|].
    rewrite count_next. intros Heq.
    assert (present Qs stmt) as Hgood by (apply Hstmt; lia).
    destruct stmt as [s|]; [|done].
    apply Forall_app. split; [apply Hstatements; lia | by constructor].
  - intros p. rewrite parser_parse_statement_S.
    destruct (type (cur_tok p));
      first [by apply ensures_let | by apply ensures_return
            | by apply ensures_expression_statement].
Qed.

Lemma ensures_program_loop (fuel : nat) :
  forall n statements p,
    (n <= error_count p)%nat -> (error_count p = n -> Forall Qs statements) ->
    ensures n (Forall Qs) (program_loop fuel statements p).
Proof.
  induction fuel as [|fuel IH]; intros n statements p Hn Hstatements; [exact I|].
  rewrite program_loop_S. destruct (negb _); [|by split].
  apply (ensures_seq _ (present Qs) _ p); [done | apply ensures_all |].
  intros stmt p' Hp' Hstmt. apply IH; [rewrite count_next; lia|].
  rewrite count_next. intros Heq.
  assert (present Qs stmt) as Hgood by (apply Hstmt; lia).
  destruct stmt as [s|]; [|done].
  apply Forall_app. split; [apply Hstatements; lia | by constructor].
Qed.

Lemma ensures_program (fuel : nat) (tokens : list token) :
  ensures 0 (fun program => Forall Qs (program_statements program))
    (parse_program fuel (parser_init tokens)).
Proof.
  unfold parse_program. apply (ensures_bind _ (Forall Qs)).
  - apply ensures_program_loop; [lia | constructor].
  - intros statements p Hp Hstatements. by split.
Qed.

End Ensures.

Section Complete.

Lemma parses (tokens : list token) :
  parses_to tokens (parse_program (6 * List.length tokens + 4) (parser_init tokens)).
Proof.
  pose proof (parse_program_stops tokens _ (Nat.le_refl _)) as Hstops.
  split; [done|]. intros fuel Hfuel.
  by apply (parse_program_more_fuel (6 * List.length tokens + 4)).
Qed.

Lemma complete_property :
  node_property (fun e => complete_expression e = true)
    (fun s => complete_statement s = true)
    (fun b => complete_block_statement b = true).
Proof.
  split; try done.
  - by intros tok operator [operand|].
  - intros tok operator [lhs|] [rhs|]; simpl; try done. by intros -> ->.
  - intros tok [condition|] consequence [alternative|]; simpl; try done.
    + by intros -> -> ->.
    + by intros -> -> _.
  - intros tok [function|] arguments; simpl; [|done]. intros -> Hargs. simpl.
    induction Hargs as [|[a|] l Ha Hl IH]; [done| |done]. simpl in Ha.
    by rewrite Ha, IH.
  - by intros tok name [value|].
  - by intros tok [value|].
  - by intros tok [value|].
  - intros tok statements Hs. simpl.
    induction Hs as [|s l Hs Hl IH]; [done|]. by rewrite Hs, IH.
Qed.

Lemma free_property :
  node_property (fun e => free_expression e = true)
    (fun s => free_statement s = true)
    (fun b => free_block_statement b = true).
Proof.
  split; try done.
  - by intros tok operator [operand|].
  - intros tok operator [lhs|] [rhs|]; simpl; try done. by intros -> ->.
  - intros tok [condition|] consequence [alternative|]; simpl; try done.
    + by intros -> -> ->.
    + by intros -> -> _.
  - intros tok [function|] arguments; simpl; [|done]. intros -> Hargs. simpl.
    induction Hargs as [|[a|] l Ha Hl IH]; [done| |done]. simpl in Ha.
    by rewrite Ha, IH.
  - by intros tok name [value|].
  - by intros tok [value|].
  - by intros tok [value|].
  - intros tok statements Hs. simpl.
    induction Hs as [|s l Hs Hl IH]; [done|]. by rewrite Hs, IH.
Qed.

Lemma Forall_forallb_true {A : Type} (f : A -> bool) (l : list A) :
  Forall (fun a => f a = true) l -> forallb f l = true.
Proof. induction 1 as [|a l Ha Hl IH]; simpl; [done|]. by rewrite Ha, IH. Qed.

End Complete.

(** X1. On every token stream the parser stops.  When it returns without
    having recorded a message, no node of the program has a null child:
    every statement has its expression and every operator its operands.
    When it stops instead by reading through a null pointer, it has
    recorded a message before. *)
Theorem X1_no_error_no_null (tokens : list token) :
  exists r, parses_to tokens r
            /\ match r with
               | Returns program p => errors p = [] -> complete_program program = true
               | Crash p => errors p <> []
               | OutOfFuel => False
               end.
Proof.
  eexists. split; [apply parses|].
  pose proof (parse_program_stops tokens _ (Nat.le_refl _)) as Hstops.
  pose proof (ensures_program _ _ _ complete_property
                (6 * List.length tokens + 4) tokens) as H.
  destruct (parse_program _ _) as [program p|p|]; simpl in H.
  - intros Hp. apply Forall_forallb_true, H. unfold error_count. by rewrite Hp.
  - intros Hp. unfold error_count in H. rewrite Hp in H. simpl in H. lia.
  - done.
Qed.

Lemma X1_no_error_no_null_witness :
  exists program p,
    parse_program 16 (parser_init [mk_token MINUS "-"; mk_token IDENT "a"])
    = Returns program p
    /\ errors p = []
    /\ complete_program program = true.
Proof.
  destruct (X1_no_error_no_null [mk_token MINUS "-"; mk_token IDENT "a"])
    as (r & [_ Hr] & Hpost).
  specialize (Hr 16%nat ltac:(simpl; lia)).
  eassert (parse_program 16 (parser_init [mk_token MINUS "-"; mk_token IDENT "a"])
           = Returns _ _) as E by (vm_compute; reflexivity).
  rewrite E in Hr. subst r. do 2 eexists. split; [exact E|].
  split; [reflexivity|]. by apply Hpost.
Defined.

(** X2. When the parser returns without having recorded a message,
    [program_free] releases the program without reading through a null
    pointer. *)
Theorem X2_no_error_program_free (tokens : list token) :
  exists r, parses_to tokens r
            /\ forall program p,
                 r = Returns program p -> errors p = [] -> program_free program = true.
Proof.
  eexists. split; [apply parses|].
  pose proof (ensures_program _ _ _ free_property
                (6 * List.length tokens + 4) tokens) as H.
  intros program p Hr Hp. rewrite Hr in H. simpl in H.
  apply Forall_forallb_true, H. unfold error_count. by rewrite Hp.
Qed.

Lemma X2_no_error_program_free_witness :
  exists program p,
    parse_program 16 (parser_init [mk_token MINUS "-"; mk_token IDENT "a"])
    = Returns program p
    /\ errors p = []
    /\ program_free program = true.
Proof.
  destruct (X2_no_error_program_free [mk_token MINUS "-"; mk_token IDENT "a"])
    as (r & [_ Hr] & Hpost).
  specialize (Hr 16%nat ltac:(simpl; lia)).
  eassert (parse_program 16 (parser_init [mk_token MINUS "-"; mk_token IDENT "a"])
           = Returns _ _) as E by (vm_compute; reflexivity).
  rewrite E in Hr. do 2 eexists. split; [exact E|].
  split; [reflexivity|]. by eapply Hpost.
Defined.

(** ** The parser: the end of the input *)

Section ReadsAll.

Lemma end_marked_invariant : parser_invariant end_marked.
Proof.
  split.
  - intros p (Hlexer & Hpeek & Hcur). unfold end_marked, parser_next_token.
    destruct (lexer p) as [|t l] eqn:Hl; simpl.
    + split; [constructor|]. split; [done|]. done.
    + inversion Hlexer as [|? ? Ht Hrest]; subst.
      split; [done|]. split; [done|]. intros Hp. by specialize (Hpeek Hp).
  - intros p msg _ Hp. exact Hp.
Qed.

Lemma end_marked_init (tokens : list token) :
  Forall (fun t => type t <> END_OF_FILE) tokens -> end_marked (parser_init tokens).
Proof.
  intros H. unfold end_marked.
  destruct tokens as [|t0 [|t1 l]]; simpl.
  - done.
  - inversion H; subst. split; [constructor|]. split; done.
  - inversion H as [|? ? H0 H']; subst. inversion H' as [|? ? H1 H'']; subst.
    split; [done|]. split; done.
Qed.

(** The loop of [parse_program] returns at END_OF_FILE only. *)
Lemma program_loop_end (fuel : nat) :
  forall statements p statements' p',
    program_loop fuel statements p = Returns statements' p' ->
    type (cur_tok p') = END_OF_FILE.
Proof.
  induction fuel as [|fuel IH]; intros statements p statements' p'; [done|].
  rewrite program_loop_S.
  destruct (bool_decide (type (cur_tok p) = END_OF_FILE)) eqn:Hcur; cbn [negb].
  - intros [= <- <-]. by apply bool_decide_eq_true in Hcur.
  - destruct (parser_parse_statement fuel p) as [stmt p1|p1|]; simpl; [|done|done].
    apply IH.
Qed.

End ReadsAll.

(** X3. [parse_program] returns only at the end of the input: when it
    returns, the current token is END_OF_FILE, whatever messages it has
    recorded on the way; and when no token of the stream itself is an
    END_OF_FILE token, the peek token is END_OF_FILE too and the lexer has
    no token left. *)
Theorem X3_parse_program_reads_all (tokens : list token) :
  exists r, parses_to tokens r
            /\ forall program p,
                 r = Returns program p ->
                 type (cur_tok p) = END_OF_FILE
                 /\ (Forall (fun t => type t <> END_OF_FILE) tokens ->
                     type (peek_tok p) = END_OF_FILE /\ lexer p = []).
Proof.
  eexists. split; [apply parses|]. intros program p Hr.
  assert (Hcur : type (cur_tok p) = END_OF_FILE).
  { unfold parse_program in Hr.
    destruct (program_loop _ _ _) as [statements p1|p1|] eqn:Hloop; [|done|done].
    simpl in Hr. injection Hr as <- <-. by eapply program_loop_end. }
  split; [exact Hcur|]. intros Htokens.
  pose proof (keeps_program _ end_marked_invariant (6 * List.length tokens + 4)
                (parser_init tokens) (end_marked_init tokens Htokens)) as H.
  rewrite Hr in H. destruct H as (Hlexer & Hpeek & Hc).
  split; [by apply Hc | by apply Hpeek, Hc].
Qed.

Lemma X3_parse_program_reads_all_witness :
  exists program p,
    parse_program 22
      (parser_init [mk_token LET "let"; mk_token INT "5"; mk_token IDENT "x"])
    = Returns program p
    /\ errors p <> []
    /\ type (cur_tok p) = END_OF_FILE
    /\ type (peek_tok p) = END_OF_FILE /\ lexer p = [].
Proof.
  destruct (X3_parse_program_reads_all
              [mk_token LET "let"; mk_token INT "5"; mk_token IDENT "x"])
    as (r & [_ Hr] & Hpost).
  specialize (Hr 22%nat ltac:(simpl; lia)).
  eassert (parse_program 22
             (parser_init [mk_token LET "let"; mk_token INT "5"; mk_token IDENT "x"])
           = Returns _ _) as E by (vm_compute; reflexivity).
  rewrite E in Hr. do 2 eexists. split; [exact E|].
  split; [discriminate|].
  destruct (Hpost _ _ (eq_sym Hr)) as [Hcur Hrest].
  split; [exact Hcur|]. apply Hrest.
  repeat constructor; discriminate.
Defined.

(** ** The parser: literals, parentheses and parameters *)

Section EdgeCases.

Lemma digits_value_nonneg (s : string) :
  all_digits s = true -> forall acc, 0 <= acc -> 0 <= digits_value acc s.
Proof.
  induction s as [|c s IH]; simpl; intros Hs acc Hacc; [done|].
  apply andb_prop in Hs as [Hc Hs]. apply IH; [done|].
  unfold isdigit in Hc. lia.
Qed.

Lemma strtol_digits (lit : string) :
  all_digits lit = true -> lit <> EmptyString ->
  strtol lit
  = if digits_value 0 lit >? LONG_MAX then mk_strtol LONG_MAX true EmptyString true
    else mk_strtol (digits_value 0 lit) true EmptyString false.
Proof.
  intros Hall Hne. pose proof (digits_value_nonneg lit Hall 0 ltac:(done)) as Hpos.
  destruct lit as [|c lit]; [done|].
  pose proof Hall as Hc. simpl in Hc. apply andb_prop in Hc as [Hc _].
  destruct (digit_not_sign_or_space c Hc) as (Hspace & Hminus & Hplus).
  unfold strtol. cbn [skip_space]. rewrite Hspace. cbv zeta.
  assert (Hbody : match String c lit with
                  | String "-" s' => (true, s')
                  | String "+" s' => (false, s')
                  | _ => (false, String c lit)
                  end = (false, String c lit)).
  { clear -Hminus Hplus.
    destruct c as [[] [] [] [] [] [] [] []]; try reflexivity; congruence. }
  rewrite Hbody. rewrite read_digits_all by exact Hall.
  cbn [String.length Nat.add].
  destruct (Z.gtb_spec (digits_value 0 (String c lit)) LONG_MAX); [done|].
  destruct (Z.ltb_spec (digits_value 0 (String c lit)) LONG_MIN);
    [unfold LONG_MIN in *; lia | done].
Qed.

End EdgeCases.

(** X4. [parse_integer_expression] on a token whose literal is a non-empty
    string of decimal digits, as the lexer produces them: the node holds
    the value of the digits in base ten, leading zeros included, and no
    message is recorded; when that value exceeds LONG_MAX the node holds
    LONG_MAX and the message "could not parse L as integer" is recorded.
    The node is never [NULL]. *)
Theorem X4_integer_literal (p : parser_t) :
  all_digits (literal (cur_tok p)) = true -> literal (cur_tok p) <> EmptyString ->
  parse_integer_expression p
  = if digits_value 0 (literal (cur_tok p)) <=? LONG_MAX
    then Returns (Some (IntegerExpression (cur_tok p)
                          (digits_value 0 (literal (cur_tok p))))) p
    else Returns (Some (IntegerExpression (cur_tok p) LONG_MAX))
           (add_parse_error p
              ("could not parse " +:+ literal (cur_tok p) +:+ " as integer")).
Proof.
  intros Hall Hne. unfold parse_integer_expression.
  rewrite (strtol_digits _ Hall Hne).
  destruct (Z.gtb_spec (digits_value 0 (literal (cur_tok p))) LONG_MAX);
    destruct (Z.leb_spec (digits_value 0 (literal (cur_tok p))) LONG_MAX);
    try lia; reflexivity.
Qed.

Lemma X4_integer_literal_witness :
  parse_integer_expression (parser_init [mk_token INT "007"])
  = Returns (Some (IntegerExpression (mk_token INT "007") 7))
      (parser_init [mk_token INT "007"])
  /\ parse_integer_expression (parser_init [mk_token INT "9223372036854775808"])
     = Returns (Some (IntegerExpression (mk_token INT "9223372036854775808") LONG_MAX))
         (add_parse_error (parser_init [mk_token INT "9223372036854775808"])
            "could not parse 9223372036854775808 as integer").
Proof.
  split.
  - exact (X4_integer_literal (parser_init [mk_token INT "007"]) eq_refl
             ltac:(discriminate)).
  - exact (X4_integer_literal (parser_init [mk_token INT "9223372036854775808"])
             eq_refl ltac:(discriminate)).
Defined.

(** X5. An opening parenthesis followed by a token that starts no
    expression, unless a closing parenthesis comes right after that token:
    [parse_grouped_expression] gets [NULL] for the inner expression, misses
    the closing parenthesis and calls [free_expression(NULL)], which reads
    through the null pointer.  Two messages are recorded before.  The same
    happens to the statement and to the program that start there. *)
Theorem X5_parenthesis_null_dereference (p : parser_t)
    (prec : operator_precedence_t) (fuel : nat) (statements : list statement_t) :
  type (cur_tok p) = LPAREN ->
  table_entry prefix_fns (type (peek_tok p)) = None ->
  type (peek_tok (parser_next_token p)) <> RPAREN ->
  let p' := peek_error (handle_no_prefix_fn (parser_next_token p)) RPAREN in
  errors p'
  = errors p ++ [no_prefix_message (peek_tok p);
                 expected_message RPAREN (type (peek_tok (parser_next_token p)))]
  /\ parse_expression (2 + fuel) prec p = Crash p'
  /\ parser_parse_statement (3 + fuel) p = Crash p'
  /\ program_loop (4 + fuel) statements p = Crash p'.
Proof.
  intros Hcur Hpeek Hnext p'.
  assert (Hc : cur_tok (parser_next_token p) = peek_tok p).
  { unfold parser_next_token. by destruct (lexer_next_token _). }
  assert (He : forall fuel prec, parse_expression (S (S fuel)) prec p = Crash p').
  { intros f pr. rewrite parse_expression_S, Hcur.
    change (table_entry prefix_fns LPAREN) with (Some parse_grouped_expression_fn).
    cbv iota. unfold parse_grouped_expression.
    rewrite parse_expression_S, Hc, Hpeek. cbn [bind].
    unfold expect_peek.
    destruct (decide (type (peek_tok (handle_no_prefix_fn (parser_next_token p)))
                      = RPAREN)) as [E|E]; [by destruct Hnext|].
    reflexivity. }
  assert (Hs : forall fuel, parser_parse_statement (S (S (S fuel))) p = Crash p').
  { intros f. rewrite parser_parse_statement_S, Hcur.
    unfold parse_expression_statement. by rewrite (He f LOWEST). }
  split; [|split; [apply He | split; [apply Hs|]]].
  - subst p'. unfold peek_error, handle_no_prefix_fn, no_prefix_message,
      expected_message. simpl. rewrite Hc.
    assert (errors (parser_next_token p) = errors p) as ->
        by (unfold parser_next_token; by destruct (lexer_next_token _)).
    by rewrite <- app_assoc.
  - cbn [Nat.add]. rewrite program_loop_S, Hcur. cbn [bind negb bool_decide].
    rewrite bool_decide_eq_false_2 by done. cbn [negb].
    by rewrite (Hs fuel).
Qed.

Lemma X5_parenthesis_null_dereference_witness :
  exists p',
    parse_program 4 (parser_init [mk_token LPAREN "("; mk_token RPAREN ")"]) = Crash p'
    /\ errors p'
       = [no_prefix_message (mk_token RPAREN ")");
          expected_message RPAREN END_OF_FILE].
Proof.
  destruct (X5_parenthesis_null_dereference
              (parser_init [mk_token LPAREN "("; mk_token RPAREN ")"]) LOWEST 0 []
              eq_refl eq_refl ltac:(discriminate)) as (Herr & _ & _ & Hloop).
  eexists. split.
  - unfold parse_program. change 4%nat with (4 + 0)%nat. rewrite Hloop. reflexivity.
  - exact Herr.
Defined.

(** X6. [parse_function_parameters] takes whatever token stands where a
    parameter is expected: no token kind is checked.  For every token [t]
    but a closing parenthesis, [fn ( t ) { }] parses to a function literal
    with the one parameter named by the literal of [t], and no message is
    recorded. *)
Theorem X6_parameter_kind_unchecked (fn t : token) (rest : list token)
    (errs : list string) (prec : operator_precedence_t) (fuel : nat) :
  type fn = FUNCTION -> type t <> RPAREN ->
  precedence (type (peeked rest)) = LOWEST ->
  parse_expression (4 + fuel) prec
    (parser_at (fn :: mk_token LPAREN "(" :: t :: mk_token RPAREN ")"
                  :: mk_token LBRACE "{" :: mk_token RBRACE "}" :: rest) errs)
  = Returns
      (Some (FunctionLiteral fn [{| ident_token := t; ident_value := literal t |}]
               (BlockStatement (mk_token LBRACE "{") [])))
      (parser_at (mk_token RBRACE "}" :: rest) errs).
Proof.
  intros Hfn Ht Hrest. cbn [Nat.add].
  rewrite parse_expression_S, parser_at_cur, Hfn.
  change (table_entry prefix_fns FUNCTION) with (Some parse_function_literal_fn).
  cbv iota. unfold parse_function_literal, expect_peek.
  rewrite parser_at_peek. cbn [type].
  destruct (decide (LPAREN = LPAREN)); [|done]. cbn [negb].
  rewrite parser_at_next. unfold parse_function_parameters.
  rewrite parser_at_peek.
  destruct (decide (type t = RPAREN)); [done|].
  rewrite parser_at_next. cbn [function_parameters_loop].
  rewrite parser_at_peek. cbn [type].
  destruct (decide (RPAREN = COMMA)); [done|]. cbn [bind].
  unfold expect_peek. rewrite parser_at_peek. cbn [type].
  destruct (decide (RPAREN = RPAREN)); [|done].
  rewrite parser_at_next. cbn [bind]. rewrite parser_at_peek. cbn [type].
  destruct (decide (LBRACE = LBRACE)); [|done]. cbn [negb].
  rewrite parser_at_next, parse_block_statement_S, parser_at_next.
  rewrite block_statement_loop_S, !parser_at_cur. cbn [type bind].
  rewrite bool_decide_eq_true_2 by done. cbn [negb andb bind].
  rewrite infix_loop_stops; [done|].
  unfold peek_precedence. rewrite parser_at_peeked, Hrest. simpl.
  destruct prec; simpl; lia.
Qed.

Lemma X6_parameter_kind_unchecked_witness :
  parse_expression 4 LOWEST
    (parser_at [mk_token FUNCTION "fn"; mk_token LPAREN "("; mk_token INT "1";
                mk_token RPAREN ")"; mk_token LBRACE "{"; mk_token RBRACE "}"] [])
  = Returns
      (Some (FunctionLiteral (mk_token FUNCTION "fn")
               [{| ident_token := mk_token INT "1"; ident_value := "1" |}]
               (BlockStatement (mk_token LBRACE "{") [])))
      (parser_at [mk_token RBRACE "}"] []).
Proof.
  exact (X6_parameter_kind_unchecked (mk_token FUNCTION "fn") (mk_token INT "1")
           [] [] LOWEST 0 eq_refl ltac:(discriminate) eq_refl).
Defined.

(** ** The string form of a return statement *)

Section ReturnString.

(** Induction on the trees, through the options and the lists. *)
Lemma tree_ind (Pe : expression_t -> Prop) (Ps : statement_t -> Prop)
    (Pb : block_statement_t -> Prop) :
  (forall id, Pe (IdentifierExpression id)) ->
  (forall tok v, Pe (IntegerExpression tok v)) ->
  (forall tok v, Pe (BooleanExpression tok v)) ->
  (forall tok op o, from_option Pe True o -> Pe (PrefixExpression tok op o)) ->
  (forall tok op l r, from_option Pe True l -> from_option Pe True r ->
                      Pe (InfixExpression tok op l r)) ->
  (forall tok c cons alt, from_option Pe True c -> Pb cons -> from_option Pb True alt ->
                          Pe (IfExpression tok c cons alt)) ->
  (forall tok params body, Pb body -> Pe (FunctionLiteral tok params body)) ->
  (forall tok f args, from_option Pe True f -> Forall (from_option Pe True) args ->
                      Pe (CallExpression tok f args)) ->
  (forall tok name v, from_option Pe True v -> Ps (LetStatement tok name v)) ->
  (forall tok v, from_option Pe True v -> Ps (ReturnStatement tok v)) ->
  (forall tok v, from_option Pe True v -> Ps (ExpressionStatement tok v)) ->
  (forall tok stmts, Forall Ps stmts -> Pb (BlockStatement tok stmts)) ->
  (forall e, Pe e) /\ (forall s, Ps s) /\ (forall b, Pb b).
Proof.
  intros Hid Hint Hbool Hpre Hin Hif Hfn Hcall Hlet Hret Hexp Hblock.
  assert (He : forall e, Pe e).
  { fix IH 1.
    assert (Ho : forall o, from_option Pe True o).
    { intros [x|]; [apply IH | exact I]. }
    assert (Hs : forall s, Ps s).
    { intros [tok name v|tok v|tok v]; [apply Hlet | apply Hret | apply Hexp];
        apply Ho. }
    assert (Hb : forall b, Pb b).
    { intros [tok stmts]. apply Hblock.
      induction stmts as [|s stmts IHs]; constructor; [apply Hs | exact IHs]. }
    intros [id|tok v|tok op o|tok op l r|tok v|tok c cons alt|tok params body
           |tok f args].
    - apply Hid.
    - apply Hint.
    - apply Hpre, Ho.
    - apply Hin; apply Ho.
    - apply Hbool.
    - apply Hif; [apply Ho | apply Hb |]. destruct alt; [apply Hb | exact I].
    - apply Hfn, Hb.
    - apply Hcall; [apply Ho|].
      induction args as [|a args IHargs]; constructor; [apply Ho | exact IHargs]. }
  split; [exact He|].
  assert (Hs : forall s, Ps s).
  { intros [tok name [v|]|tok [v|]|tok [v|]];
      first [apply Hlet | apply Hret | apply Hexp]; simpl; auto. }
  split; [exact Hs|].
  intros [tok stmts]. apply Hblock.
  induction stmts as [|s stmts IHs]; constructor; [apply Hs | exact IHs].
Qed.


Lemma no_text_first (r : rendered) (k : option string -> rendered) :
  no_text r -> no_text (and_then r k).
Proof. intros Hr. destruct r as [s| |]; [by destruct (Hr s) | done | done]. Qed.

Lemma no_text_then (r : rendered) (k : option string -> rendered) :
  (forall x, no_text (k x)) -> no_text (and_then r k).
Proof. intros Hk. destruct r as [s| |]; [apply Hk | done | done]. Qed.

Lemma no_text_percent_s (o : option string) (k : string -> rendered) :
  (forall x, no_text (k x)) -> no_text (percent_s o k).
Proof. intros Hk. destruct o as [x|]; [apply Hk | done]. Qed.

Lemma no_text_parameters (l : list (option expression_t)) :
  Forall (from_option
            (fun e => expression_has_return e = true -> no_text (expression_string e))
            True) l ->
  existsb (fun a => match a with Some x => expression_has_return x | None => false end) l
  = true ->
  forall str, no_text (parameters_loop expression_string l str).
Proof.
  induction 1 as [|a l Ha Hl IH]; simpl; [done|]. intros Hany str.
  apply orb_prop in Hany as [Hhere|Hlater].
  - apply no_text_first. destruct a as [x|]; [by apply Ha | done].
  - apply no_text_then. intros ps. apply no_text_percent_s. intros x.
    destruct str; by apply IH.
Qed.

Lemma has_return_tree :
  (forall e, expression_has_return e = true -> no_text (expression_string e))
  /\ (forall s, statement_has_return s = true -> no_text (statement_string s))
  /\ (forall b, block_has_return b = true -> no_text (block_statement_string b)).
Proof.
  apply tree_ind; try done.
  - intros tok op [x|] Hx; simpl; [|done]. intros H. by apply no_text_first, Hx.
  - intros tok op l r Hl Hr. simpl. intros [H|H]%orb_prop.
    + apply no_text_first. destruct l as [x|]; [by apply Hl | done].
    + apply no_text_then. intros ls. apply no_text_first.
      destruct r as [x|]; [by apply Hr | done].
  - intros tok c cons alt Hc Hcons Halt. simpl.
    intros [[H|H]%orb_prop|H]%orb_prop.
    + apply no_text_first. destruct c as [x|]; [by apply Hc | done].
    + apply no_text_then. intros cs. by apply no_text_first, Hcons.
    + apply no_text_then. intros cs. apply no_text_then. intros qs.
      destruct alt as [b|]; [|done]. by apply no_text_first, Halt.
  - intros tok params body Hbody. simpl. intros H.
    apply no_text_then. intros ps. by apply no_text_first, Hbody.
  - intros tok f args Hf Hargs. simpl. intros [H|H]%orb_prop.
    + apply no_text_then. intros ars. apply no_text_first.
      destruct f as [x|]; [by apply Hf | done].
    + apply no_text_first.
      assert (Hany : existsb (fun a => match a with
                                       | Some x => expression_has_return x
                                       | None => false
                                       end) args = true).
      { clear -H. induction args as [|a args IH]; simpl in *; [done|].
        apply orb_prop in H as [H|H]; [by rewrite H|].
        rewrite IH by done. by rewrite orb_true_r. }
      unfold generate_parameters_string. destruct args as [|a args]; [done|].
      by apply no_text_parameters.
  - intros tok name v Hv. simpl. intros H. apply no_text_first.
    destruct v as [x|]; [by apply Hv | done].
  - intros tok v _ _. simpl. by apply no_text_then.
  - intros tok [x|] Hx; simpl; [|done]. intros H. by apply Hx.
  - intros tok stmts Hstmts. simpl. generalize (@None string).
    induction Hstmts as [|s l Hs Hl IH]; [done|]. intros str [H|H]%orb_prop.
    + by apply no_text_first, Hs.
    + apply no_text_then. intros ss. destruct str as [x|].
      * apply no_text_percent_s. intros y. by apply IH.
      * by apply IH.
Qed.

End ReturnString.

(** X7. [return_statement_string] formats its result with the string of the
    statement itself, that is, with a call of [return_statement_string] on
    the same statement.  So [program_string] returns no string for a
    program that has a [return] statement anywhere, in a function body or
    an [if] block included. *)
Theorem X7_return_statement_has_no_string (program : program_t) :
  program_has_return program = true -> no_text (program_string program).
Proof.
  destruct has_return_tree as (_ & Hs & _).
  unfold program_has_return, program_string. destruct program as [stmts]. simpl.
  generalize (@None string).
  induction stmts as [|s l IH]; [done|]. simpl. intros str [H|H]%orb_prop.
  - by apply no_text_first, Hs.
  - apply no_text_then. intros ss. apply no_text_percent_s. intros y.
    destruct str; by apply IH.
Qed.

Lemma X7_return_statement_has_no_string_witness :
  exists program p,
    parse_program 30
      (parser_init [mk_token FUNCTION "fn"; mk_token LPAREN "("; mk_token IDENT "x";
                    mk_token RPAREN ")"; mk_token LBRACE "{";
                    mk_token RETURN "return"; mk_token IDENT "x";
                    mk_token SEMICOLON ";"; mk_token RBRACE "}"])
    = Returns program p
    /\ errors p = []
    /\ program_has_return program = true
    /\ no_text (program_string program).
Proof.
  do 2 eexists. split; [vm_compute; reflexivity|]. split; [reflexivity|].
  split; [reflexivity|]. by apply X7_return_statement_has_no_string.
Defined.

(** ** The programs that have a string form *)

Section Printable.

Lemma has_text_parameters {A : Set} (node_string : A -> rendered)
    (l : list (option A)) :
  Forall (fun a => match a with
                   | Some x => has_text (node_string x)
                   | None => False
                   end) l ->
  forall str, l <> [] \/ is_Some str -> has_text (parameters_loop node_string l str).
Proof.
  induction 1 as [|a l Ha Hl IH]; simpl; intros str Hstr.
  - destruct Hstr as [?|[x ->]]; [done|]. by exists x.
  - destruct a as [x|]; [|done]. destruct Ha as [s Hs].
    unfold string_of_ptr. rewrite Hs. cbn [and_then percent_s].
    destruct str; apply IH; right; eauto.
Qed.

Lemma printable_tree :
  (forall e, printable_expression e = true -> has_text (expression_string e))
  /\ (forall s, printable_statement s = true -> has_text (statement_string s))
  /\ (forall b, printable_block_statement b = true ->
                has_text (block_statement_string b)).
Proof.
  apply tree_ind.
  - intros id _. by eexists.
  - intros tok v [H1%Z.ltb_lt H2%Z.leb_le]%andb_prop.
    change (expression_string (IntegerExpression tok v)) with (integer_string v).
    unfold integer_string. rewrite long_to_string_decimal by done. by eexists.
  - intros tok v _. by eexists.
  - intros tok op [x|] Hx; simpl; [|done]. intros H.
    destruct (Hx H) as [s ->]. by eexists.
  - intros tok op [l|] [r|] Hl Hr; simpl; try done; [|by rewrite andb_false_r].
    intros [H1 H2]%andb_prop.
    destruct (Hl H1) as [s1 ->], (Hr H2) as [s2 ->]. by eexists.
  - intros tok [c|] cons alt Hc Hcons Halt; simpl; [|done].
    intros [[H1 H2]%andb_prop H3]%andb_prop.
    destruct (Hc H1) as [s1 ->], (Hcons H2) as [s2 E2]. simpl.
    change (block_statement_string cons) with (block_statement_string cons) in E2.
    destruct alt as [b|].
    + destruct (Halt H3) as [s3 E3]. simpl in E2, E3. rewrite E2. simpl.
      rewrite E3. by eexists.
    + simpl in E2. rewrite E2. by eexists.
  - intros tok params body Hbody. simpl. intros H.
    destruct (Hbody H) as [s E]. simpl in E.
    assert (Hparams : has_text (generate_parameters_string identifier_string
                                  (map Some params))).
    { unfold generate_parameters_string. destruct params as [|x params]; [by eexists|].
      apply has_text_parameters; [|by left].
      generalize (x :: params). intros l.
      induction l as [|y l IH]; constructor; [by eexists | exact IH]. }
    destruct Hparams as [ps ->]. simpl. rewrite E. by eexists.
  - intros tok [f|] args Hf Hargs; simpl; [|done]. intros [H1 H2]%andb_prop.
    assert (Hall : Forall (fun a => match a with
                                    | Some x => has_text (expression_string x)
                                    | None => False
                                    end) args).
    { clear -Hargs H2. induction Hargs as [|b l Hb Hrest IH]; [constructor|].
      destruct b as [x|]; [|done]. apply andb_prop in H2 as [Hx Hl].
      constructor; [by apply Hb | by apply IH]. }
    assert (Hparams : has_text (generate_parameters_string expression_string args)).
    { unfold generate_parameters_string. destruct args as [|a args]; [by eexists|].
      apply has_text_parameters; [done | by left]. }
    destruct Hparams as [ps ->]. destruct (Hf H1) as [fs ->]. by eexists.
  - intros tok name [v|] Hv; simpl.
    + intros H. destruct (Hv H) as [s ->]. by eexists.
    + intros _. by eexists.
  - done.
  - intros tok [v|] Hv; simpl.
    + intros H. by apply Hv.
    + intros _. by eexists.
  - intros tok stmts Hstmts. simpl. intros [Hne Hall]%andb_prop.
    assert (Hloop : forall str, stmts <> [] \/ is_Some str ->
              has_text
                ((fix loop (l : list statement_t) (str : option string) : rendered :=
                    match l with
                    | [] => Text str
                    | s :: l' =>
                        and_then (statement_string s) (fun stmt_string =>
                        match str with
                        | None => loop l' stmt_string
                        | Some x =>
                            percent_s stmt_string
                              (fun ss => loop l' (Some (x +:+ " " +:+ ss)))
                        end)
                    end) stmts str)).
    { clear Hne. induction Hstmts as [|s l Hs Hl IH]; intros str Hstr.
      - destruct Hstr as [?|[x ->]]; [done|]. by exists x.
      - apply andb_prop in Hall as [H1 H2]. destruct (Hs H1) as [ss ->]. simpl.
        destruct str; apply IH; try done; right; eauto. }
    apply Hloop. left. by destruct stmts.
Qed.

End Printable.

(** X8. [program_string] returns a string for every program that has a
    statement, no [return] statement, no empty block, no [NULL] operand,
    condition, callee or argument, and no integer outside
    [LONG_MIN + 1 .. LONG_MAX]. *)
Theorem X8_printable_program_has_string (program : program_t) :
  printable_program program = true -> has_text (program_string program).
Proof.
  destruct printable_tree as (_ & Hs & _).
  unfold printable_program, program_string. destruct program as [stmts]. simpl.
  intros [Hne Hall]%andb_prop.
  assert (Hloop : forall str, stmts <> [] \/ is_Some str ->
                              has_text (program_string_loop stmts str)).
  { clear Hne. induction stmts as [|s l IH]; intros str Hstr.
    - destruct Hstr as [?|[x ->]]; [done|]. by exists x.
    - simpl in Hall. apply andb_prop in Hall as [H1 H2].
      destruct (Hs s H1) as [ss E]. simpl. rewrite E. simpl.
      destruct str; apply IH; try done; right; eauto. }
  apply Hloop. left. by destruct stmts.
Qed.

Lemma X8_printable_program_has_string_witness :
  exists program p,
    parse_program 40
      (parser_init [mk_token IF "if"; mk_token LPAREN "("; mk_token IDENT "x";
                    mk_token RPAREN ")"; mk_token LBRACE "{"; mk_token INT "1";
                    mk_token RBRACE "}"; mk_token ELSE "else"; mk_token LBRACE "{";
                    mk_token IDENT "f"; mk_token LPAREN "("; mk_token RPAREN ")";
                    mk_token RBRACE "}"])
    = Returns program p
    /\ errors p = []
    /\ printable_program program = true
    /\ program_string program = Text (Some "ifx 1 else f()").
Proof.
  do 2 eexists. split; [vm_compute; reflexivity|]. split; [reflexivity|].
  match goal with
  | |- printable_program ?prog = true /\ _ =>
      assert (H : printable_program prog = true) by (vm_compute; reflexivity)
  end.
  split; [exact H|].
  destruct (X8_printable_program_has_string _ H) as [s Hs].
  rewrite Hs. f_equal. vm_compute in Hs. by injection Hs as <-.
Defined.

(** ** The hash table: sequences of calls *)

Section PutsFacts.
Import HashTable.
Context {K V : Type}.
Implicit Types (t : cm_hash_table K V) (k : K) (v : option V).

Lemma made_of_init (size : Z) (hash : K -> Z) (cmp : K -> K -> bool) :
  0 < size -> made_of (V := V) size hash cmp (cm_hash_table_init size hash cmp) [].
Proof.
  intros Hsize. unfold made_of, table_ok. simpl.
  rewrite length_replicate.
  split; [done|]. split; [done|]. split; [done|]. split; [done|].
  split; [reflexivity|].
  intros i. unfold bucket. simpl.
  destruct (replicate (Z.to_nat size) None !! i) as [slot|] eqn:E; [|done].
  apply lookup_replicate in E as [-> _]. done.
Qed.

Lemma made_of_put (size : Z) (hash : K -> Z) (cmp : K -> K -> bool) t es k v :
  made_of size hash cmp t es ->
  exists t', cm_hash_table_put t k v = Some t'
             /\ made_of size hash cmp t' (es ++ [mk_entry k v]).
Proof.
  intros (Hok & Hh & Hc & Hs & Hn & Hb).
  assert (Hi : slot_index t k = Some (slot_of hash size k)).
  { unfold slot_index, slot_of. pose proof Hok as [Hpos _]. rewrite Hh, Hs.
    destruct (Z.eqb_spec size 0); [lia | done]. }
  destruct (put_spec t k v _ Hok Hi)
    as (t' & Hput & Hok' & Hh' & Hc' & Hs' & Hn' & Hb' & Hother).
  exists t'. split; [done|]. unfold made_of.
  split; [done|]. split; [congruence|]. split; [congruence|]. split; [congruence|].
  split.
  - rewrite Hn', Hn, length_app. simpl. unfold wrap_size_t.
    rewrite Zplus_mod_idemp_l. f_equal. lia.
  - intros i. rewrite List.filter_app. simpl.
    destruct (Nat.eqb_spec (slot_of hash size k) i) as [<-|Hne].
    + by rewrite Hb', Hb.
    + rewrite (Hother i) by done. by rewrite Hb, app_nil_r.
Qed.

Lemma made_of_puts (size : Z) (hash : K -> Z) (cmp : K -> K -> bool) (bindings : list (K * option V)) :
  forall t es, made_of size hash cmp t es ->
    exists t', cm_hash_table_puts t bindings = Some t'
               /\ made_of size hash cmp t' (es ++ entries_of bindings).
Proof.
  induction bindings as [|[k v] rest IH]; intros t es Ht; simpl.
  - exists t. by rewrite app_nil_r.
  - destruct (made_of_put size hash cmp t es k v Ht) as (t1 & -> & Ht1). simpl.
    destruct (IH t1 _ Ht1) as (t' & Hputs & Ht'). exists t'. split; [done|].
    by rewrite <- app_assoc in Ht'.
Qed.

Lemma find_entry_filter (cmp : K -> K -> bool) (es : list (cm_hash_entry K V)) (f : K -> bool) k :
  (forall e, In e es -> cmp (key e) k = true -> f (key e) = true) ->
  find_entry cmp (List.filter (fun e => f (key e)) es) k = find_entry cmp es k.
Proof.
  induction es as [|e es IH]; intros H; simpl; [done|].
  destruct (f (key e)) eqn:Hf; simpl.
  - destruct (cmp (key e) k); [done|]. apply IH. intros e' He'. apply H. by right.
  - destruct (cmp (key e) k) eqn:Hc.
    + rewrite (H e (or_introl eq_refl) Hc) in Hf. discriminate.
    + apply IH. intros e' He'. apply H. by right.
Qed.

Lemma used_insert (l : list (option (list (cm_hash_entry K V)))) (i : nat)
    (x : list (cm_hash_entry K V)) (old : option (list (cm_hash_entry K V))) :
  l !! i = Some old ->
  List.length (List.filter (fun slot => bool_decide (is_Some slot)) (<[i := Some x]> l))
  = (List.length (List.filter (fun slot => bool_decide (is_Some slot)) l)
     + match old with Some _ => 0 | None => 1 end)%nat.
Proof.
  revert i. induction l as [|a l IH]; intros i Hi; [done|].
  destruct i as [|i]; simpl in *.
  - injection Hi as ->. destruct old as [y|]; simpl; lia.
  - destruct (bool_decide (is_Some a)); simpl; rewrite (IH i Hi); lia.
Qed.

Lemma used_bound (l : list (option (list (cm_hash_entry K V)))) (i : nat) :
  l !! i = Some None ->
  (List.length (List.filter (fun slot => bool_decide (is_Some slot)) l)
   < List.length l)%nat.
Proof.
  revert i. induction l as [|a l IH]; intros i Hi; [done|].
  destruct i as [|i]; simpl in *.
  - injection Hi as ->. simpl.
    pose proof (List.filter_length_le (fun slot => bool_decide (is_Some slot)) l). lia.
  - specialize (IH i Hi). destruct (bool_decide (is_Some a)); simpl; lia.
Qed.

(** [nentries] counts the slots in use. *)
Lemma put_counted t k v t' :
  table_ok t -> table_size t < SIZE_MODULUS -> nentries t = used_slots t ->
  cm_hash_table_put t k v = Some t' ->
  nentries t' = used_slots t' /\ table_size t' = table_size t /\ table_ok t'.
Proof.
  intros Hok Hsize Hcount. unfold cm_hash_table_put.
  destruct (slot_index_in_range t k Hok) as (i & -> & Hlt). simpl.
  destruct (lookup_lt_is_Some_2 (table t) i Hlt) as [slot Hslot].
  rewrite Hslot. simpl. destruct Hok as [Hpos Hlen].
  destruct slot as [l|]; intros [= <-]; unfold used_slots, table_ok; simpl.
  - rewrite (used_insert _ _ _ _ Hslot), Nat.add_0_r, length_insert. done.
  - rewrite length_insert.
    assert (Hslot' : <[i := Some CmSeq.cm_list_init]> (table t) !! i
                     = Some (Some (@CmSeq.cm_list_init (cm_hash_entry K V)))).
    { by rewrite list_lookup_insert_eq. }
    rewrite (used_insert _ _ _ _ Hslot'), Nat.add_0_r.
    rewrite (used_insert _ _ _ _ Hslot).
    pose proof (used_bound _ _ Hslot) as Hb. unfold used_slots in Hcount.
    split; [|by rewrite length_insert]. rewrite Hcount. unfold wrap_size_t.
    rewrite Z.mod_small; lia.
Qed.

Lemma puts_counted (bindings : list (K * option V)) :
  forall t t',
    table_ok t -> table_size t < SIZE_MODULUS -> nentries t = used_slots t ->
    cm_hash_table_puts t bindings = Some t' ->
    nentries t' = used_slots t' /\ table_size t' = table_size t /\ table_ok t'.
Proof.
  induction bindings as [|[k v] rest IH]; intros t t' Hok Hsize Hcount; simpl.
  - by intros [= <-].
  - destruct (cm_hash_table_put t k v) as [t1|] eqn:Hput; [|done]. simpl.
    destruct (put_counted t k v t1 Hok Hsize Hcount Hput) as (H1 & H2 & H3).
    intros Hputs.
    destruct (IH t1 t' H3 ltac:(lia) H1 Hputs) as (H4 & H5 & H6).
    split; [done|]. split; [congruence | done].
Qed.

End PutsFacts.

Section PutsTheorems.
Import HashTable.

(** X9. A table that is made from an empty one by any sequence of calls of
    [cm_hash_table_put] answers like the list of the entries in the order of
    the calls, read from its start: [cm_hash_table_get] returns the value of
    the first entry whose key the comparator accepts, from whatever slot, and
    [NULL] when there is none; [nkeys] counts the calls.  The comparator must
    accept only keys of the same hash. *)
Theorem X9_hash_table_first_binding {K V : Type} (size : Z) (hash : K -> Z)
    (cmp : K -> K -> bool) (bindings : list (K * option V)) (k : K) :
  0 < size ->
  (forall a b, cmp a b = true -> hash a = hash b) ->
  exists t,
    cm_hash_table_puts (cm_hash_table_init size hash cmp) bindings = Some t
    /\ cm_hash_table_get t k = Some (find_entry cmp (entries_of bindings) k)
    /\ nkeys t = wrap_size_t (Z.of_nat (List.length bindings)).
Proof.
  intros Hsize Hcompat.
  destruct (made_of_puts size hash cmp bindings _ [] (made_of_init size hash cmp Hsize))
    as (t & Hputs & Hok & Hh & Hc & Hs & Hn & Hb).
  exists t. split; [done|]. simpl in *. split.
  - assert (Hi : slot_index t k = Some (slot_of hash size k)).
    { unfold slot_index, slot_of. rewrite Hh, Hs.
      destruct (Z.eqb_spec size 0); [lia | done]. }
    rewrite (get_bucket t k _ Hok Hi), Hb, Hc. f_equal.
    apply (find_entry_filter cmp (entries_of bindings)
             (fun key => Nat.eqb (slot_of hash size key) (slot_of hash size k))).
    intros e _ He. apply Nat.eqb_eq. unfold slot_of. by rewrite (Hcompat _ _ He).
  - rewrite Hn. unfold entries_of. by rewrite length_map.
Qed.

Lemma X9_hash_table_first_binding_witness :
  exists t,
    cm_hash_table_puts
      (cm_hash_table_init 16 string_hash_function string_keycmp)
      [("key1", Some "value1"); ("key2", Some "value2"); ("key1", Some "again")]
    = Some t
    /\ cm_hash_table_get t "key1" = Some (Some "value1")
    /\ nkeys t = 3.
Proof.
  exact (X9_hash_table_first_binding 16 string_hash_function string_keycmp
           [("key1", Some "value1"); ("key2", Some "value2"); ("key1", Some "again")]
           "key1" ltac:(lia)
           ltac:(intros a b H; apply String.eqb_eq in H; by subst)).
Defined.

(** X10. The table is never resized: after any sequence of calls of
    [cm_hash_table_put] on an empty table, [table_size] and the array have
    the initial size, whatever the number of keys; [nentries] is the number
    of slots in use, which is at most that size. *)
Theorem X10_hash_table_slots {K V : Type} (size : Z) (hash : K -> Z)
    (cmp : K -> K -> bool) (bindings : list (K * option V)) :
  0 < size < SIZE_MODULUS ->
  exists t,
    cm_hash_table_puts (cm_hash_table_init size hash cmp) bindings = Some t
    /\ table_size t = size
    /\ Z.of_nat (List.length (table t)) = size
    /\ nentries t = used_slots t
    /\ 0 <= nentries t <= size.
Proof.
  intros Hsize.
  destruct (made_of_puts size hash cmp bindings _ []
              (made_of_init size hash cmp ltac:(lia))) as (t & Hputs & _).
  set (t0 := cm_hash_table_init size hash cmp : cm_hash_table K V) in *.
  assert (Hok : table_ok t0).
  { split; simpl; [lia | by rewrite length_replicate]. }
  assert (Hcount : nentries t0 = used_slots t0).
  { unfold used_slots. simpl. clear.
    induction (Z.to_nat size) as [|n IH]; [done|]. exact IH. }
  destruct (puts_counted bindings _ t Hok ltac:(simpl; lia) Hcount Hputs)
    as (H1 & H2 & [H3 H4]).
  exists t. split; [done|]. simpl in H2. split; [done|].
  split; [rewrite H4, H2; lia|]. split; [done|].
  rewrite H1. unfold used_slots.
  pose proof (List.filter_length_le (fun slot => bool_decide (is_Some slot)) (table t)).
  lia.
Qed.

Lemma X10_hash_table_slots_witness :
  exists t,
    cm_hash_table_puts
      (cm_hash_table_init 2 string_hash_function string_keycmp)
      [("a", Some 1); ("b", Some 2); ("c", Some 3); ("d", Some 4)]
    = Some t
    /\ table_size t = 2
    /\ Z.of_nat (List.length (table t)) = 2
    /\ nentries t = used_slots t
    /\ 0 <= nentries t <= 2.
Proof.
  exact (X10_hash_table_slots 2 string_hash_function string_keycmp
           [("a", Some 1); ("b", Some 2); ("c", Some 3); ("d", Some 4)]
           ltac:(unfold SIZE_MODULUS; lia)).
Defined.

End PutsTheorems.

(** ** The hash function of the strings *)

Section HashFunction.
Import HashTable.

Lemma hash_step (h c : Z) :
  wrap_size_t (wrap_size_t (wrap_size_t (Z.shiftl (h mod SIZE_MODULUS) 5)
                            + h mod SIZE_MODULUS) + c)
  = (33 * h + c) mod SIZE_MODULUS.
Proof.
  assert (HM : SIZE_MODULUS <> 0) by (unfold SIZE_MODULUS; lia).
  unfold wrap_size_t. rewrite Z.shiftl_mul_pow2 by lia.
  rewrite (Z.add_mod_idemp_l _ c) by done.
  rewrite <- Z.add_assoc, Z.add_mod_idemp_l by done.
  replace (h mod SIZE_MODULUS * 2 ^ 5 + (h mod SIZE_MODULUS + c))
    with (33 * (h mod SIZE_MODULUS) + c) by lia.
  rewrite <- Z.add_mod_idemp_l by done.
  rewrite Z.mul_mod_idemp_r by done.
  by rewrite Z.add_mod_idemp_l.
Qed.

Lemma string_hash_loop_bernstein (str : string) :
  forall h, string_hash_loop (h mod SIZE_MODULUS) str
            = bernstein h str mod SIZE_MODULUS.
Proof.
  induction str as [|c str IH]; intros h; simpl.
  - done.
  - by rewrite hash_step, IH.
Qed.

End HashFunction.

Section HashFunctionTheorems.
Import HashTable.

(** X11. [string_hash_function] is the hash of Bernstein modulo 2^64: the
    wrap-around of the [unsigned long] at every step gives the same result
    as one reduction at the end, [(hash << 5) + hash] being [hash * 33]; a
    byte above 127 counts as a negative number.  Keys that [string_keycmp]
    accepts as equal have the same hash. *)
Theorem X11_string_hash_function (key : string) :
  string_hash_function key = bernstein 5381 key mod SIZE_MODULUS
  /\ 0 <= string_hash_function key < SIZE_MODULUS
  /\ forall key2, string_keycmp key key2 = true ->
                  string_hash_function key2 = string_hash_function key.
Proof.
  assert (H : string_hash_function key = bernstein 5381 key mod SIZE_MODULUS).
  { unfold string_hash_function.
    change 5381 with (5381 mod SIZE_MODULUS) at 1.
    apply string_hash_loop_bernstein. }
  split; [exact H|]. split.
  - rewrite H. apply Z.mod_pos_bound. by unfold SIZE_MODULUS.
  - intros key2 Heq. apply String.eqb_eq in Heq. by subst.
Qed.

Lemma X11_string_hash_function_witness :
  string_hash_function "key1" = bernstein 5381 "key1" mod SIZE_MODULUS
  /\ string_keycmp "key1" "key1" = true
  /\ string_hash_function "key1" = string_hash_function "key1".
Proof.
  destruct (X11_string_hash_function "key1") as (H & _ & Hcmp).
  split; [exact H|]. split; [reflexivity|]. by apply Hcmp.
Defined.

End HashFunctionTheorems.

(** ** The size of a decimal numeral *)

Section StringSize.

Lemma digits_loop_length (l : Z) :
  0 <= l ->
  forall acc, Z.of_nat (String.length (digits_loop l acc))
              = count_loop l 0 + 1 + Z.of_nat (String.length acc).
Proof.
  intros Hl. pattern l. apply quot_10_ind; [| |exact Hl]; clear l Hl.
  - intros l Hl acc. rewrite digits_loop_eq, count_loop_eq.
    destruct (Z.leb_spec 10 l); [lia|]. simpl. lia.
  - intros l Hl IH acc. rewrite digits_loop_eq, count_loop_eq.
    destruct (Z.leb_spec 10 l); [|lia].
    rewrite IH.
    rewrite (count_loop_shift (Z.quot l 10) ltac:(apply Z.quot_pos; lia) (0 + 1)).
    simpl String.length. lia.
Qed.

End StringSize.

(** X12. [calculate_string_size] counts the characters of the decimal
    numeral exactly, the sign included: for every [long] above [LONG_MIN]
    it returns the length of the string that [long_to_string] returns (which
    allocates that many bytes and two more, one of them for the closing
    NUL). *)
Theorem X12_calculate_string_size (n : Z) :
  LONG_MIN < n <= LONG_MAX ->
  exists s, long_to_string n = Some s
            /\ calculate_string_size n = Z.of_nat (String.length s).
Proof.
  intros Hn. exists (decimal n). split; [by apply long_to_string_decimal|].
  unfold calculate_string_size, decimal. unfold LONG_MIN, LONG_MAX in Hn.
  destruct (Z.ltb_spec n 0).
  - rewrite wrap_long_small by (unfold LONG_MIN, LONG_MAX; lia).
    replace (-1 * n) with (- n) by lia.
    rewrite (count_loop_shift (- n)) by lia.
    simpl String.length. rewrite Nat2Z.inj_succ.
    rewrite (digits_loop_length (- n)) by lia. simpl. lia.
  - rewrite (digits_loop_length n) by lia. simpl. lia.
Qed.

Lemma X12_calculate_string_size_witness :
  exists s, long_to_string (-120) = Some s
            /\ calculate_string_size (-120) = Z.of_nat (String.length s).
Proof.
  apply X12_calculate_string_size. unfold LONG_MIN, LONG_MAX. lia.
Defined.

(** ** Releasing a linked list *)

Section CmListFree.
Import CmList.







End CmListFree.

(** ** The arrays of statements *)

Section StatementArrayFacts.
Import StatementArray.

Lemma holds_add (program : statement_array) (stmts : list statement_t)
    (stmt : statement_t) :
  holds program stmts -> Z.of_nat (List.length stmts) < 2 ^ 30 ->
  exists program',
    add_statement_to_program program stmt true = Some (program', 0)
    /\ holds program' (stmts ++ [stmt])
    /\ (array_size program' = array_size program
        \/ array_size program' = 2 * array_size program).
Proof.
  intros (cells & Hcells & Hlen & Hn & Hle & Hpos & Htake) Hbound.
  unfold add_statement_to_program.
  destruct (Z.eqb_spec (nstatements program) (array_size program)) as [Hfull|Hroom].
  - unfold reallocarray. rewrite Hcells. cbn [default from_option]. unfold id.
    assert (Hnew : wrap_size_t (array_size program * 2) = 2 * array_size program).
    { unfold wrap_size_t, SIZE_MODULUS. rewrite Z.mod_small; lia. }
    rewrite Hnew. cbn [statements nstatements array_size].
    rewrite length_resize.
    destruct (Z.leb_spec 0 (nstatements program)); [|lia].
    destruct (Z.ltb_spec (nstatements program)
                (Z.of_nat (Z.to_nat (2 * array_size program)))); [|lia].
    cbn [andb]. eexists. split; [reflexivity|]. split; [|by right].
    eexists. cbn [statements nstatements array_size].
    split; [reflexivity|]. rewrite length_insert, length_resize, length_app.
    cbn [List.length].
    assert (Hw : wrap_size_t (nstatements program + 1) = nstatements program + 1).
    { unfold wrap_size_t, SIZE_MODULUS. rewrite Z.mod_small; lia. }
    rewrite Hw. split; [lia|]. split; [lia|]. split; [lia|]. split; [lia|].
    replace (List.length stmts + 1)%nat with (S (List.length stmts)) by lia.
    rewrite Hn, Nat2Z.id.
    rewrite (take_S_r _ _ (Some stmt)).
    + rewrite take_insert_ge by lia.
      rewrite take_resize_le by lia. rewrite resize_le by lia.
      rewrite map_app. simpl. by rewrite Htake.
    + apply list_lookup_insert_eq. rewrite length_resize. lia.
  - cbn [statements nstatements array_size]. rewrite Hcells.
    destruct (Z.leb_spec 0 (nstatements program)); [|lia].
    destruct (Z.ltb_spec (nstatements program) (Z.of_nat (List.length cells))); [|lia].
    cbn [andb]. eexists. split; [reflexivity|]. split; [|by left].
    eexists. cbn [statements nstatements array_size].
    split; [reflexivity|]. rewrite length_insert, length_app. cbn [List.length].
    assert (Hw : wrap_size_t (nstatements program + 1) = nstatements program + 1).
    { unfold wrap_size_t, SIZE_MODULUS. rewrite Z.mod_small; lia. }
    rewrite Hw. split; [lia|]. split; [lia|]. split; [lia|]. split; [lia|].
    replace (List.length stmts + 1)%nat with (S (List.length stmts)) by lia.
    rewrite Hn, Nat2Z.id.
    rewrite (take_S_r _ _ (Some stmt)).
    + rewrite take_insert_ge by lia. rewrite map_app. simpl. by rewrite Htake.
    + apply list_lookup_insert_eq. lia.
Qed.

Lemma holds_adds (stmts : list statement_t) :
  forall program done,
    holds program done ->
    Z.of_nat (List.length done + List.length stmts) <= 2 ^ 30 ->
    exists program',
      add_statements program stmts = Some program'
      /\ holds program' (done ++ stmts).
Proof.
  induction stmts as [|stmt rest IH]; intros program done Hholds Hbound; simpl.
  - exists program. by rewrite app_nil_r.
  - simpl in Hbound.
    destruct (holds_add program done stmt Hholds ltac:(lia)) as (p1 & -> & H1 & _).
    destruct (IH p1 (done ++ [stmt]) H1) as (p2 & Hadds & H2).
    { rewrite length_app. simpl. lia. }
    exists p2. split; [done|]. by rewrite <- app_assoc in H2.
Qed.


(** X14. The array of a program (64 cells at first) and of a block (8
    cells) grows by doubling and holds the statements in the order in which
    they were added: for up to 2^30 statements, when every [reallocarray]
    succeeds, every call of [add_statement_to_program] returns 0 and writes
    inside the array, and afterwards [nstatements] is the number of
    statements, at most [array_size], the number of cells, and the first
    [nstatements] cells are the statements. *)
Theorem X14_statement_array_grows (stmts : list statement_t) :
  Z.of_nat (List.length stmts) <= 2 ^ 30 ->
  (exists program, add_statements program_init stmts = Some program
                   /\ holds program stmts)
  /\ (exists block, add_statements block_init stmts = Some block
                    /\ holds block stmts).
Proof.
  intros Hbound. split.
  - apply (holds_adds stmts program_init []); [|simpl; lia].
    exists (replicate 64 None). by repeat split.
  - apply (holds_adds stmts block_init []); [|simpl; lia].
    exists (replicate 8 None). by repeat split.
Qed.

Lemma X14_statement_array_grows_witness :
  let stmts := replicate 9 (ExpressionStatement (mk_token IDENT "x") None) in
  (exists program, add_statements program_init stmts = Some program
                   /\ holds program stmts)
  /\ (exists block, add_statements block_init stmts = Some block
                    /\ holds block stmts /\ array_size block = 16).
Proof.
  intros stmts.
  destruct (X14_statement_array_grows stmts ltac:(simpl; lia)) as [Hp (b & Hb & Hh)].
  split; [exact Hp|]. exists b. split; [exact Hb|]. split; [exact Hh|].
  vm_compute in Hb. by injection Hb as <-.
Defined.

End StatementArrayFacts.

(** ** Where the parser can read through a null pointer *)

Section Parentheses.

Lemma no_parenthesis_invariant : parser_invariant no_parenthesis.
Proof.
  split.
  - intros p (Hcur & Hpeek & Hlexer). unfold no_parenthesis, parser_next_token.
    destruct (lexer p) as [|t l] eqn:Hl; simpl; [by repeat split|].
    inversion Hlexer; subst. by repeat split.
  - intros p msg _ Hp. exact Hp.
Qed.

Lemma no_parenthesis_init (tokens : list token) :
  Forall (fun t => type t <> LPAREN) tokens -> no_parenthesis (parser_init tokens).
Proof.
  intros H. unfold no_parenthesis.
  destruct tokens as [|t0 [|t1 l]]; simpl.
  - by repeat split.
  - inversion H; subst. by repeat split.
  - inversion H as [|? ? H0 H']; subst. inversion H' as [|? ? H1 H'']; subst.
    by repeat split.
Qed.

Lemma never_crashes_bind {A B : Type} (m : outcome A)
    (k : A -> parser_t -> outcome B) :
  sat no_parenthesis m -> never_crashes m ->
  (forall a p, no_parenthesis p -> never_crashes (k a p)) ->
  never_crashes (bind m k).
Proof.
  destruct m as [a p|p|]; simpl; intros Hp Hm Hk; [by apply Hk| |done].
  by destruct (Hm p).
Qed.

Lemma never_crashes_Returns {A : Type} (a : A) (p : parser_t) :
  never_crashes (Returns a p).
Proof. done. Qed.

Lemma expect_peek_fails (p : parser_t) :
  no_parenthesis p -> exists p', expect_peek p LPAREN = (p', false).
Proof.
  intros (_ & Hpeek & _). unfold expect_peek.
  destruct (decide _); [done|]. by eexists.
Qed.

Lemma never_crashes_statement_of
    (pe : operator_precedence_t -> parser_t -> outcome (option expression_t)) :
  (forall prec, keeps no_parenthesis (pe prec)) ->
  (forall prec p, no_parenthesis p -> never_crashes (pe prec p)) ->
  forall p, no_parenthesis p ->
    never_crashes (parse_letstatement pe p)
    /\ never_crashes (parse_return_statement pe p)
    /\ never_crashes (parse_expression_statement pe p).
Proof.
  intros Hkeeps Hpe p Hp.
  pose proof no_parenthesis_invariant as HI.
  split; [|split].
  - unfold parse_letstatement.
    pose proof (keeps_expect_peek _ HI p IDENT Hp) as H1.
    destruct (expect_peek p IDENT) as [p1 []]; cbn [negb]; [|done].
    pose proof (keeps_expect_peek _ HI p1 ASSIGN H1) as H2.
    destruct (expect_peek p1 ASSIGN) as [p2 []]; cbn [negb]; [|done].
    simpl in H2.
    apply never_crashes_bind;
      [apply Hkeeps; by apply HI | apply Hpe; by apply HI | done].
  - unfold parse_return_statement.
    apply never_crashes_bind;
      [apply Hkeeps; by apply HI | apply Hpe; by apply HI | done].
  - unfold parse_expression_statement.
    apply never_crashes_bind; [by apply Hkeeps | by apply Hpe | done].
Qed.

Lemma never_crashes_all (fuel : nat) :
  (forall prec p, no_parenthesis p -> never_crashes (parse_expression fuel prec p))
  /\ (forall prec left_exp p,
         no_parenthesis p -> never_crashes (infix_loop fuel prec left_exp p))
  /\ (forall p, no_parenthesis p -> never_crashes (parser_parse_statement fuel p)).
Proof.
  pose proof no_parenthesis_invariant as HI.
  induction fuel as [|fuel (IHe & IHi & IHs)]; [by repeat split|].
  pose proof (keeps_all _ HI fuel) as (Ke & Ki & _).
  repeat split.
  - intros prec p Hp. rewrite parse_expression_S.
    destruct (table_entry prefix_fns (type (cur_tok p))) as [fn|] eqn:Hfn; [|done].
    apply never_crashes_bind.
    + destruct fn.
      * by apply keeps_identifier.
      * by apply keeps_integer.
      * by apply keeps_prefix.
      * by apply keeps_grouped.
      * apply keeps_function_literal; [done | apply (keeps_all _ HI fuel) | done].
      * apply keeps_if; [done | done | apply (keeps_all _ HI fuel) | done].
      * by apply keeps_boolean.
    + destruct fn.
      * done.
      * unfold parse_integer_expression. by destruct (integer_conversion_failed _).
      * unfold parse_prefix_expression.
        apply never_crashes_bind; [apply Ke; by apply HI | apply IHe; by apply HI | done].
      * exfalso. destruct Hp as (Hcur & _). apply Hcur.
        destruct (type (cur_tok p)); try discriminate Hfn; done.
      * unfold parse_function_literal.
        destruct (expect_peek_fails p Hp) as [p' ->]. done.
      * unfold parse_if_expression.
        destruct (expect_peek_fails p Hp) as [p' ->]. done.
      * done.
    + intros left_exp p' Hp'. by apply IHi.
  - intros prec left_exp p Hp. rewrite infix_loop_S.
    destruct (decide _); [done|]. destruct (_ >=? _); [done|].
    destruct (table_entry infix_fns (type (peek_tok p))) as [fn|] eqn:Hfn; [|done].
    destruct fn.
    + apply never_crashes_bind.
      * apply keeps_infix; [done | done | by apply HI].
      * unfold parse_infix_expression.
        apply never_crashes_bind;
          [apply Ke; by do 2 apply HI | apply IHe; by do 2 apply HI | done].
      * intros right_exp p' Hp'. by apply IHi.
    + exfalso. destruct Hp as (_ & Hpeek & _). apply Hpeek.
      destruct (type (peek_tok p)); try discriminate Hfn; done.
  - intros p Hp. rewrite parser_parse_statement_S.
    destruct (never_crashes_statement_of (parse_expression fuel) Ke IHe p Hp)
      as (Hlet & Hret & Hexp).
    by destruct (type (cur_tok p)).
Qed.

Lemma never_crashes_program_loop (fuel : nat) :
  forall statements p,
    no_parenthesis p -> never_crashes (program_loop fuel statements p).
Proof.
  pose proof no_parenthesis_invariant as HI.
  induction fuel as [|fuel IH]; intros statements p Hp; [done|].
  rewrite program_loop_S. destruct (negb _); [|done].
  apply never_crashes_bind.
  - by apply (keeps_all _ HI fuel).
  - by apply never_crashes_all.
  - intros stmt p' Hp'. apply IH. by apply HI.
Qed.

End Parentheses.

(** X15. The parser reads through a null pointer only around parentheses:
    on every token stream without an opening parenthesis it returns a
    program (with messages, when the stream is no program). *)
Theorem X15_no_parenthesis_no_crash (tokens : list token) :
  Forall (fun t => type t <> LPAREN) tokens ->
  exists r, parses_to tokens r /\ exists program p, r = Returns program p.
Proof.
  intros Htokens. eexists. split; [apply parses|].
  pose proof (parse_program_stops tokens _ (Nat.le_refl _)) as Hstops.
  pose proof (never_crashes_program_loop (6 * List.length tokens + 4) []
                (parser_init tokens) (no_parenthesis_init tokens Htokens)) as Hnc.
  unfold parse_program in *.
  destruct (program_loop _ _ _) as [statements p|p|]; simpl in *.
  - by eexists _, _.
  - by destruct (Hnc p).
  - done.
Qed.

Lemma X15_no_parenthesis_no_crash_witness :
  exists program p,
    parse_program 16 (parser_init [mk_token RPAREN ")"; mk_token IF "if"])
    = Returns program p
    /\ errors p <> [].
Proof.
  destruct (X15_no_parenthesis_no_crash [mk_token RPAREN ")"; mk_token IF "if"])
    as (r & [_ Hr] & program & p & ->); [repeat constructor; discriminate|].
  specialize (Hr 16%nat ltac:(simpl; lia)).
  exists program, p. split; [exact Hr|].
  vm_compute in Hr. injection Hr as _ <-. discriminate.
Defined.



(** ** A block that is not closed *)

Section Blocks.

Lemma ends_block_peeked (tail : list token) :
  ends_block tail ->
  precedence (type (peeked tail)) = LOWEST /\ type (peeked tail) <> SEMICOLON.
Proof.
  intros [H| ->]; [|done]. destruct tail as [|t tail]; [done|].
  simpl in *. by rewrite H.
Qed.

Lemma ends_statement_app (s : simple_statement) (l : list simple_statement)
    (tail : list token) :
  ends_block tail -> ends_statement s (program_tokens l) ->
  ends_statement s (program_tokens l ++ tail).
Proof.
  intros Htail. destruct s as [name value|e]; [done|]. simpl.
  destruct l as [|s' l]; [intros _; by apply ends_block_peeked|].
  unfold program_tokens. cbn [map concat].
  destruct s' as [name value|e']; [done|]. simpl.
  destruct (tokens_of_head e') as (t & ts & -> & _). done.
Qed.

Lemma statement_tokens_not_brace (s : simple_statement) (rest : list token) :
  type (List.hd eof_token (statement_tokens s ++ rest)) <> RBRACE.
Proof.
  destruct s as [name value|e]; simpl; [done|].
  rewrite hd_tokens_app.
  by destruct (tokens_of_head e) as (t & ts & -> & _ & _ & _ & _ & _ & _ & Ht).
Qed.

(** The loop of a block reads the statements up to the closing brace or to
    the end of the input, whichever comes. *)
Lemma block_reads (l : list simple_statement) (tail : list token) :
  forallb well_formed_statement l = true -> separable l = true ->
  ends_block tail ->
  forall (acc : list statement_t) (errs : list string),
    yields (fun fuel =>
              block_statement_loop fuel acc
                (parser_at (program_tokens l ++ tail) errs))
      (Returns (acc ++ map reparsed_statement l) (parser_at tail errs)).
Proof.
  intros Hwf Hsep Htail. induction l as [|s l IH]; intros acc errs.
  - exists 1%nat. intros [|fuel] Hfuel; [lia|].
    rewrite block_statement_loop_S. simpl. rewrite app_nil_r.
    destruct Htail as [H| ->].
    + change (cur_tok (parser_at tail errs)) with (List.hd eof_token tail).
      by rewrite bool_decide_eq_true_2.
    + done.
  - simpl in Hwf. apply andb_prop in Hwf as [Hs Hwf].
    destruct (separable_ends s l Hsep) as [Hends Hsep'].
    pose proof (ends_statement_app s l tail Htail Hends) as Hends'.
    destruct (statement_reads s (program_tokens l ++ tail) errs Hs Hends')
      as [ns Hns].
    destruct (IH Hwf Hsep' (acc ++ [reparsed_statement s]) errs) as [nl Hnl].
    exists (S (Nat.max ns nl)). intros [|fuel] Hfuel; [lia|].
    rewrite block_statement_loop_S. unfold program_tokens. cbn [map concat].
    rewrite <- app_assoc. fold (program_tokens l).
    change (cur_tok (parser_at ?ts errs)) with (List.hd eof_token ts).
    rewrite (bool_decide_eq_false_2 (_ = RBRACE))
      by apply statement_tokens_not_brace.
    rewrite (bool_decide_eq_false_2 (_ = END_OF_FILE))
      by apply statement_tokens_head.
    cbn [negb andb].
    rewrite Hns by lia. cbn [bind]. rewrite parser_at_next.
    rewrite Hnl by lia. by rewrite <- app_assoc.
Qed.

(** The function literal, with its body closed or not. *)
Lemma function_reads (fn : token) (l : list simple_statement) (tail : list token)
    (errs : list string) (prec : operator_precedence_t) :
  type fn = FUNCTION ->
  forallb well_formed_statement l = true -> separable l = true ->
  ends_block tail -> precedence (type (peeked (List.tl tail))) = LOWEST ->
  yields (fun fuel =>
            parse_expression fuel prec (parser_at (function_tokens fn l ++ tail) errs))
    (Returns
       (Some (FunctionLiteral fn [] (BlockStatement LB (map reparsed_statement l))))
       (parser_at tail errs)).
Proof.
  intros Hfn Hwf Hsep Htail Hnext.
  destruct (block_reads l tail Hwf Hsep Htail [] errs) as [n Hn].
  exists (S (S n)). intros [|[|fuel]] Hfuel; [lia | lia |].
  unfold function_tokens. cbn [app].
  rewrite parse_expression_S, parser_at_cur, Hfn.
  change (table_entry prefix_fns FUNCTION) with (Some parse_function_literal_fn).
  cbv iota. unfold parse_function_literal, expect_peek.
  rewrite parser_at_peek. cbn [type LP].
  destruct (decide (LPAREN = LPAREN)); [|done]. cbn [negb].
  rewrite parser_at_next. unfold parse_function_parameters.
  rewrite parser_at_peek. cbn [type RP].
  destruct (decide (RPAREN = RPAREN)); [|done].
  rewrite parser_at_next. cbn [bind].
  rewrite parser_at_peek. cbn [type LB].
  destruct (decide (LBRACE = LBRACE)); [|done]. cbn [negb].
  rewrite parser_at_next, parse_block_statement_S, parser_at_next, parser_at_cur.
  rewrite Hn by lia. cbn [bind app].
  rewrite infix_loop_stops; [done|].
  unfold peek_precedence.
  destruct tail as [|t tail]; [by destruct prec|].
  rewrite parser_at_peeked. simpl in Hnext. rewrite Hnext.
  destruct prec; simpl; lia.
Qed.

End Blocks.

(** X17. A missing closing brace is not reported.  For a function without
    parameters whose body holds statements of the fragment,
    [parse_program] returns the same program from the tokens with the
    closing brace and from those that end before it, and records no message
    in either case: [parse_block_statement] ends a block at the end of the
    input as at a brace. *)
Theorem X17_missing_brace_not_reported (fn : token) (l : list simple_statement) :
  type fn = FUNCTION ->
  forallb well_formed_statement l = true -> separable l = true ->
  let body := BlockStatement LB (map reparsed_statement l) in
  let program :=
    mk_program [ExpressionStatement fn (Some (FunctionLiteral fn [] body))] in
  yields (fun fuel => parse_program fuel (parser_init (function_tokens fn l ++ [RB])))
    (Returns program (parser_at [] []))
  /\ yields (fun fuel => parse_program fuel (parser_init (function_tokens fn l)))
       (Returns program (parser_at [] [])).
Proof.
  intros Hfn Hwf Hsep body program.
  assert (H : forall tail,
             ends_block tail -> tail = [RB] \/ tail = [] ->
             yields (fun fuel =>
                       parse_program fuel (parser_init (function_tokens fn l ++ tail)))
               (Returns program (parser_at [] []))).
  { intros tail Hends Htail.
    destruct (function_reads fn l tail [] LOWEST Hfn Hwf Hsep Hends) as [n Hn];
      [by destruct Htail as [-> | ->]|].
    exists (S (S (S n))). intros [|[|[|fuel]]] Hfuel; [lia | lia | lia |].
    unfold parse_program. rewrite parser_at_init, program_loop_S.
    change (cur_tok (parser_at (function_tokens fn l ++ tail) [])) with fn.
    rewrite Hfn, bool_decide_eq_false_2 by done. cbn [negb].
    rewrite parser_parse_statement_S.
    change (cur_tok (parser_at (function_tokens fn l ++ tail) [])) with fn.
    rewrite Hfn. unfold parse_expression_statement.
    change (cur_tok (parser_at (function_tokens fn l ++ tail) [])) with fn.
    rewrite Hn by lia. cbn [bind].
    destruct Htail as [-> | ->]; simpl; done. }
  split.
  - apply H; [by left | by left].
  - rewrite <- (app_nil_r (function_tokens fn l)). apply H; [by right | by right].
Qed.

Lemma X17_missing_brace_not_reported_witness :
  exists program,
    parse_program 12
      (parser_init
         (function_tokens (mk_token FUNCTION "fn")
            [SLet "a" (SInt 1); SExpression (SIdent "a")] ++ [RB]))
    = Returns program (parser_at [] [])
    /\ parse_program 12
         (parser_init
            (function_tokens (mk_token FUNCTION "fn")
               [SLet "a" (SInt 1); SExpression (SIdent "a")]))
       = Returns program (parser_at [] []).
Proof.
  destruct (X17_missing_brace_not_reported (mk_token FUNCTION "fn")
              [SLet "a" (SInt 1); SExpression (SIdent "a")] eq_refl eq_refl eq_refl)
    as [[n1 H1] [n2 H2]].
  eexists. split.
  - symmetry. rewrite <- (H1 (12 + n1)%nat) by lia.
    apply (parse_program_more_fuel 12); [lia | reflexivity | vm_compute; discriminate].
  - symmetry. rewrite <- (H2 (12 + n2)%nat) by lia.
    apply (parse_program_more_fuel 12); [lia | reflexivity | vm_compute; discriminate].
Defined.
